(** * Taproot Assets extension (browser side): a shallow embedding

    The JavaScript sources are embedded as Rocq functions:

    - [Js]: the value universe (scalars and object references), objects
      as finite maps from property names to values, a heap of objects;
    - [Store]: the actions of [taprootStore] (store.js);
    - further modules follow the services and helpers they embed.

    Objects are mutable and shared in the sources (an invoice handed to
    [addInvoice] is stored by reference and marked in place), so every
    object lives in a heap and collections hold references. *)

From stdpp Require Import gmap strings list fin_maps pretty.
From Stdlib Require Import ZArith Lia Sorted.

(** ** JavaScript values and objects *)

Module Js.

Definition loc := positive.

(** Scalars as JSON delivers them, [NaN] (which arithmetic on a missing
    field produces), and references to heap objects.  Numbers are the
    integral doubles: amounts, balances and timestamps are whole units.
    The arithmetic below is that of the integers, which is that of the
    doubles as long as the operands and the result are safe integers
    ([safe_integer]); a statement that depends on the value of a sum or a
    difference assumes as much. *)
Inductive jsval :=
| JUndefined
| JNull
| JBool (b : bool)
| JNaN
| JNum (n : Z)
| JStr (s : string)
| JRef (l : loc).

#[global] Instance jsval_eq_dec : EqDecision jsval.
Proof. solve_decision. Defined.

#[global] Instance jsval_inhabited : Inhabited jsval := populate JUndefined.

(** ToBoolean. *)
Definition truthy (v : jsval) : bool :=
  match v with
  | JUndefined | JNull | JNaN => false
  | JBool b => b
  | JNum n => negb (n =? 0)%Z
  | JStr s => negb (String.eqb s "")
  | JRef _ => true
  end.

(** [v === w]: same type and same value; [NaN] differs from itself and
    objects are compared by reference. *)
Definition strict_eq (v w : jsval) : bool :=
  match v, w with
  | JNaN, _ | _, JNaN => false
  | _, _ => bool_decide (v = w)
  end.

(** [a || b] and [a && b] on values. *)
Definition js_or (a b : jsval) : jsval := if truthy a then a else b.
Definition js_and (a b : jsval) : jsval := if truthy a then b else a.

(** An object: its own enumerable properties. *)
Abbreviation obj := (gmap string jsval).
Abbreviation heap := (gmap loc (gmap string jsval)).

(** [o.k]: a missing property reads as [undefined]. *)
Definition get (o : obj) (k : string) : jsval := default JUndefined (o !! k).

(** The object a reference points to. *)
Definition deref (h : heap) (l : loc) : obj := default ∅ (h !! l).

(** [{...a, ...b}]: the properties of [b] override those of [a]. *)
Definition spread (a b : obj) : obj := b ∪ a.

(** [Array.prototype.findIndex]; [None] stands for [-1]. *)
Fixpoint findIndex {A} (p : A → bool) (l : list A) : option nat :=
  match l with
  | [] => None
  | x :: l' => if p x then Some 0 else S <$> findIndex p l'
  end.


(** *** Numbers, conversions and what the runtime supplies *)

(** A number: [NaN] or an integral double. *)
Inductive number := NaN | Int (z : Z).

#[global] Instance number_eq_dec : EqDecision number.
Proof. solve_decision. Defined.

Definition of_number (n : number) : jsval :=
  match n with
  | NaN => JNaN
  | Int z => JNum z
  end.

(** The integers a double holds exactly and next to which it holds their
    neighbours ([Number.isSafeInteger]). *)
Definition safe_integer (z : Z) : Prop := (- (2 ^ 53 - 1) ≤ z ≤ 2 ^ 53 - 1)%Z.

#[global] Instance safe_integer_dec z : Decision (safe_integer z).
Proof. unfold safe_integer. apply _. Defined.

(** What the sources take from the browser, from Quasar and from the
    clock: conversions of strings and objects to numbers, [parseFloat] on
    them, [toString] of an object, the text of a number of magnitude 1e21
    or more (which [toString] prints with an exponent), the member a plain
    object inherits under a name ([undefined] where [Object.prototype] has
    none), [String.prototype.toLowerCase], the
    time value of [new Date(v)] ([NaN] for an invalid date), the local
    midnight and the last millisecond of the local day of an instant
    ([setHours(0,0,0,0)], [setHours(23,59,59,999)]), the two date
    formatters of DataUtils (which wrap Quasar and the clock), and the
    clock readings [Date.now().toString()], [new Date().toISOString()]. *)
Record runtime := mkRuntime {
  string_to_number : string → number;
  object_to_number : loc → number;
  string_parseFloat : string → number;
  object_parseFloat : loc → number;
  object_toString : loc → string;
  exponent_toString : Z → string;
  object_prototype : string → jsval;
  toLowerCase : string → string;
  date_time : jsval → number;
  startOfDay : Z → Z;
  endOfDay : Z → Z;
  formatDate : jsval → jsval;
  getRelativeTime : jsval → jsval;
  now_string : string;
  now_iso : string
}.

(** ToNumber. *)
Definition to_number (rt : runtime) (v : jsval) : number :=
  match v with
  | JUndefined | JNaN => NaN
  | JNull => Int 0
  | JBool b => Int (if b then 1 else 0)
  | JNum n => Int n
  | JStr s => string_to_number rt s
  | JRef l => object_to_number rt l
  end.

(** [parseFloat(v)]: the argument is turned into a string and its longest
    numeric prefix is read; a number reads back as itself. *)
Definition parseFloat (rt : runtime) (v : jsval) : number :=
  match v with
  | JNum n => Int n
  | JStr s => string_parseFloat rt s
  | JRef l => object_parseFloat rt l
  | JUndefined | JNull | JBool _ | JNaN => NaN
  end.

Definition num_sub (a b : number) : number :=
  match a, b with
  | Int x, Int y => Int (x - y)
  | _, _ => NaN
  end.

(** [a <= b], [a < b], [a > b] on numbers: false as soon as one is [NaN]. *)
Definition num_le (a b : number) : bool :=
  match a, b with
  | Int x, Int y => (x <=? y)%Z
  | _, _ => false
  end.

Definition num_lt (a b : number) : bool :=
  match a, b with
  | Int x, Int y => (x <? y)%Z
  | _, _ => false
  end.

Definition num_gt (a b : number) : bool := num_lt b a.

(** [Math.max(a, b)]. *)
Definition math_max (a b : number) : number :=
  match a, b with
  | Int x, Int y => Int (Z.max x y)
  | _, _ => NaN
  end.

(** [v.k] on a value that is neither [null] nor [undefined] (the sources
    guard the read): a property of the object a reference points to;
    primitives have none of the properties read here. *)
Definition prop (h : heap) (v : jsval) (k : string) : jsval :=
  match v with
  | JRef l => get (deref h l) k
  | _ => JUndefined
  end.

(** [v?.k]. *)
Definition opt_prop (h : heap) (v : jsval) (k : string) : jsval := prop h v k.

(** An argument that should be an array: [Array.isArray] tells. *)
Inductive array_arg :=
| NotArray (v : jsval)
| Array (items : list jsval).

(** A computation that may raise a [TypeError]. *)
Inductive result (A : Type) :=
| Ok (a : A)
| TypeError.
Arguments Ok {A} a.
Arguments TypeError {A}.

Definition bind {A B} (r : result A) (f : A → result B) : result B :=
  match r with
  | Ok a => f a
  | TypeError => TypeError
  end.

(** [Array.prototype.filter] with a predicate that may raise. *)
Fixpoint filterR {A} (p : A → result bool) (l : list A) : result (list A) :=
  match l with
  | [] => Ok []
  | x :: l' =>
      bind (p x) (λ b, bind (filterR p l') (λ r, Ok (if b then x :: r else r)))
  end.

(** [s.includes(needle)]. *)
Fixpoint includes (s needle : string) : bool :=
  String.prefix needle s
  || match s with
     | EmptyString => false
     | String _ s' => includes s' needle
     end.


(** [v.k] where nothing guards the read: [null] and [undefined] raise. *)
Definition read (h : heap) (v : jsval) (k : string) : result jsval :=
  match v with
  | JUndefined | JNull => TypeError
  | _ => Ok (prop h v k)
  end.

(** [v.toLowerCase().includes(needle)]: only a string has the method. *)
Definition lower_includes (rt : runtime) (v : jsval) (needle : string) : result bool :=
  match v with
  | JStr s => Ok (includes (toLowerCase rt s) needle)
  | _ => TypeError
  end.

(** The own enumerable properties a spread copies: those of an object,
    the characters of a string under their indices, none for the other
    primitives. *)
Definition own_props (h : heap) (v : jsval) : obj :=
  match v with
  | JRef l => deref h l
  | JStr s =>
      list_to_map
        (imap (λ i c, (pretty i, JStr (String c EmptyString))) (String.list_ascii_of_string s))
  | _ => ∅
  end.

(** [v.k = x]: writes into the object behind a reference; on a primitive
    the assignment is dropped (the scripts are not strict). *)
Definition write (h : heap) (v : jsval) (k : string) (x : jsval) : heap :=
  match v with
  | JRef l => <[l := <[k := x]> (deref h l)]> h
  | _ => h
  end.

(** A new object. *)
Definition alloc (h : heap) (o : obj) : heap * loc :=
  (<[fresh (dom h) := o]> h, fresh (dom h)).


(** [Number.prototype.toString] on an integral number: the decimal digits
    below 1e21, the form with an exponent from there on. *)
Definition number_toString (rt : runtime) (n : Z) : string :=
  if (Z.abs n <? 10 ^ 21)%Z then pretty n else exponent_toString rt n.

(** ToPropertyKey, for a value used as a property name. *)
Definition to_key (rt : runtime) (v : jsval) : string :=
  match v with
  | JStr s => s
  | JNum n => number_toString rt n
  | JNaN => "NaN"
  | JBool b => if b then "true" else "false"
  | JNull => "null"
  | JUndefined => "undefined"
  | JRef l => object_toString rt l
  end.

(** [Math.ceil(v / 1000)] on an integral number. *)
Definition ceil_div_1000 (n : number) : number :=
  match n with
  | Int z => Int (- ((- z) `div` 1000))
  | NaN => NaN
  end.

(** *** Facts about values, objects and [findIndex] *)

Lemma strict_eq_refl v : v ≠ JNaN → strict_eq v v = true.
Proof.
  intros Hv. destruct v; unfold strict_eq; try done; by apply bool_decide_eq_true_2.
Qed.

Lemma strict_eq_true v w : strict_eq v w = true → v = w.
Proof.
  unfold strict_eq. intros H.
  destruct v; try discriminate H; destruct w; try discriminate H;
    by apply bool_decide_eq_true_1 in H.
Qed.

Lemma truthy_not_NaN v : truthy v = true → v ≠ JNaN.
Proof. by destruct v. Qed.

Lemma get_insert_eq (o : obj) k v : get (<[k := v]> o) k = v.
Proof. unfold get. by rewrite lookup_insert_eq. Qed.

Lemma get_insert_ne (o : obj) k k' v : k ≠ k' → get (<[k := v]> o) k' = get o k'.
Proof. intros. unfold get. by rewrite lookup_insert_ne. Qed.

Lemma get_spread (a b : obj) k :
  get (spread a b) k = match b !! k with Some v => v | None => get a k end.
Proof.
  unfold get, spread. rewrite lookup_union.
  destruct (b !! k), (a !! k); done.
Qed.

Lemma spread_spread (a b : obj) : spread (spread a b) b = spread a b.
Proof. unfold spread. by rewrite (assoc_L (∪)), (idemp_L (∪)). Qed.

Lemma deref_insert_eq (h : heap) l o : deref (<[l := o]> h) l = o.
Proof. unfold deref. by rewrite lookup_insert_eq. Qed.

Lemma deref_insert_ne (h : heap) l l' o : l ≠ l' → deref (<[l := o]> h) l' = deref h l'.
Proof. intros. unfold deref. by rewrite lookup_insert_ne. Qed.

Lemma fresh_not_allocated (h : heap) l : is_Some (h !! l) → l ≠ fresh (dom h).
Proof.
  intros Hl ->. apply elem_of_dom in Hl. by apply (is_fresh (dom h)).
Qed.

Lemma findIndex_Some {A} (p : A → bool) l i :
  findIndex p l = Some i →
  ∃ x, l !! i = Some x ∧ p x = true.
Proof.
  revert i. induction l as [|y l IH]; intros i; simpl; [done|].
  destruct (p y) eqn:Hy.
  - intros [= <-]. eauto.
  - destruct (findIndex p l) as [j|]; simpl; [|done].
    intros [= <-]. destruct (IH j eq_refl) as (x & ? & ?). eauto.
Qed.

Lemma findIndex_lt {A} (p : A → bool) l i :
  findIndex p l = Some i → i < length l.
Proof.
  intros H. destruct (findIndex_Some _ _ _ H) as (x & Hx & _).
  by eapply lookup_lt_Some.
Qed.

Lemma findIndex_ext {A} (p q : A → bool) l :
  (∀ x, x ∈ l → q x = p x) → findIndex q l = findIndex p l.
Proof.
  induction l as [|y l IH]; intros H; simpl; [done|].
  rewrite (H y) by left. rewrite IH; [done|].
  intros x Hx. apply H. by right.
Qed.

(** Replacing the found element by another one that matches (under a
    predicate that agrees on the old elements) finds the same index. *)
Lemma findIndex_insert {A} (p q : A → bool) l i n :
  findIndex p l = Some i →
  (∀ x, x ∈ l → q x = p x) →
  q n = true →
  findIndex q (<[i := n]> l) = Some i.
Proof.
  revert i. induction l as [|y l IH]; intros i; simpl; [done|].
  intros Hf Hq Hn. destruct (p y) eqn:Hy.
  - injection Hf as <-. simpl. by rewrite Hn.
  - destruct (findIndex p l) as [j|] eqn:Hj; simpl in Hf; [|done].
    injection Hf as <-. simpl. rewrite (Hq y) by left. rewrite Hy.
    rewrite (IH j); [done..| |done].
    intros x Hx. apply Hq. by right.
Qed.

Lemma findIndex_None {A} (p : A → bool) l :
  (∀ x, x ∈ l → p x = false) → findIndex p l = None.
Proof.
  induction l as [|y l IH]; intros H; simpl; [done|].
  rewrite (H y) by left. rewrite IH; [done|].
  intros x Hx. apply H. by right.
Qed.

(** *** Heaps that only grow *)

(** Every object of [h] is in [h'] as it was. *)
Definition extends (h h' : heap) : Prop := ∀ x, is_Some (h !! x) → h' !! x = h !! x.

Lemma extends_refl h : extends h h.
Proof. by intros x _. Qed.

Lemma extends_trans h1 h2 h3 : extends h1 h2 → extends h2 h3 → extends h1 h3.
Proof.
  intros H12 H23 x Hx. rewrite H23, H12; [done..|]. by rewrite H12.
Qed.

Lemma extends_fresh h h' : extends h h' → h !! fresh (dom h') = None.
Proof.
  intros He. destruct (h !! fresh (dom h')) eqn:Hf; [|done].
  assert (is_Some (h' !! fresh (dom h'))) as Hs by (rewrite He; eauto).
  by destruct (fresh_not_allocated _ _ Hs).
Qed.

Lemma extends_insert h h' l o : extends h h' → h !! l = None → extends h (<[l := o]> h').
Proof.
  intros He Hl x Hx. rewrite lookup_insert_ne; [by apply He|].
  intros ->. rewrite Hl in Hx. by destruct Hx.
Qed.

Lemma extends_write h h' v k x :
  extends h h' → (∀ l, v = JRef l → h !! l = None) → extends h (write h' v k x).
Proof.
  intros He Hv. destruct v; try done. simpl. apply extends_insert; auto.
Qed.

Lemma extends_alloc h h' o : extends h h' → extends h (alloc h' o).1.
Proof. intros He. apply extends_insert; [done|]. by apply extends_fresh. Qed.

Lemma prop_write_eq h l k x : prop (write h (JRef l) k x) (JRef l) k = x.
Proof. simpl. by rewrite deref_insert_eq, get_insert_eq. Qed.

Lemma prop_write_ne h l k k' x :
  k ≠ k' → prop (write h (JRef l) k x) (JRef l) k' = prop h (JRef l) k'.
Proof. intros. simpl. by rewrite deref_insert_eq, get_insert_ne. Qed.

(** A [let] is proved through an invariant of the bound value, so that
    the chain of assignments of a function body is walked one by one. *)
Lemma let_rule {A B} (Q : B → Prop) (a : A) (f : A → B) (I : A → Prop) :
  I a → (∀ x, I x → Q (f x)) → Q (let x := a in f x).
Proof. intros Ha Hf. by apply Hf. Qed.

Ltac split_if :=
  lazymatch goal with
  | |- ?I (if ?c then _ else _) => destruct c
  end.

Ltac step I :=
  lazymatch goal with
  | |- ?Q (let x := ?a in @?f x) => refine (let_rule Q a f I _ _)
  end.

Lemma prop_extends h h' v k :
  extends h h' → prop h v k ≠ JUndefined → prop h' v k = prop h v k.
Proof.
  intros He Hv. destruct v as [| | | | | |l]; try done. simpl in *.
  unfold deref in *. destruct (h !! l) eqn:Hl; [|done].
  rewrite He, Hl; [done|]. rewrite Hl. eauto.
Qed.

Lemma prop_alloc_truthy h o v k :
  truthy (prop h v k) = true → prop (alloc h o).1 v k = prop h v k.
Proof.
  intros Ht. apply prop_extends; [apply extends_alloc, extends_refl|].
  intros Hu. by rewrite Hu in Ht.
Qed.

Lemma truthy_prop h v k : truthy (prop h v k) = true → truthy v = true.
Proof. by destruct v. Qed.

Lemma prop_insert_fresh (h : heap) o v k :
  truthy (prop h v k) = true → prop (<[fresh (dom h) := o]> h) v k = prop h v k.
Proof. apply (prop_alloc_truthy h o). Qed.

Lemma js_or_twice v d : truthy d = true → js_or (js_or v d) d = js_or v d.
Proof. intros Hd. unfold js_or. destruct (truthy v) eqn:Hv; by rewrite ?Hv, ?Hd. Qed.

Lemma pair_eq_snd {A B} (a a' : A) (b b' : B) : (a, b) = (a', b') → b = b'.
Proof. by intros [= _ ->]. Qed.

End Js.

Export Js.

(** ** The reactive store (store.js) *)

Module Store.

(** [taprootStore.state]: the three collections hold references into the
    heap.  (The loading flags, filters and wallet are not touched by the
    actions below.) *)
Record store := mkStore {
  objects : heap;
  assets : list loc;
  invoices : list loc;
  payments : list loc
}.

(** The object a getter or an action of the store is called on.  The
    store is [{ state, getters: {...}, actions: {...} }]: [taprootStore]
    itself has the [state], while the [getters] and [actions] objects,
    which hold the functions, have none.  Every call of the repository is
    of the form [taprootStore.actions.addInvoice(...)] or
    [taprootStore.getters.getAssetName(...)], so that [this] is the member
    object there and [this.state] is undefined. *)
Inductive receiver := TaprootStore | Getters | Actions.

(** [this.state] is there. *)
Definition has_state (this : receiver) : bool :=
  match this with
  | TaprootStore => true
  | Getters | Actions => false
  end.

(** [this] has the getters ([this.getAssetById], [this.combinedTransactions]). *)
Definition has_getters (this : receiver) : bool :=
  match this with
  | Getters => true
  | TaprootStore | Actions => false
  end.

(** What a reader of the store sees: the records of each collection. *)
Definition records (h : heap) (l : list loc) : list obj := deref h <$> l.

Definition view (s : store) : list obj * list obj * list obj :=
  (records (objects s) (assets s),
   records (objects s) (invoices s),
   records (objects s) (payments s)).

(** [x._previousStatus = prev; x._statusChanged = true]. *)
Definition mark_status (prev : jsval) (o : obj) : obj :=
  <["_statusChanged" := JBool true]> (<["_previousStatus" := prev]> o).

(** What [addInvoice] and [addPayment] do once their guard on
    [this.state] has let them pass (store.js 196-213 and 242-259), on the
    collection [l]; [r] is the object passed in.  The object is marked in
    place and stored by reference. *)
Definition add_record (h : heap) (l : list loc) (r : loc) : heap * list loc :=
  match findIndex (λ x, strict_eq (get (deref h x) "id") (get (deref h r) "id")) l with
  | Some index =>
      let h' :=
        if negb (strict_eq (get (deref h (l !!! index)) "status") (get (deref h r) "status"))
        then <[r := mark_status (get (deref h (l !!! index)) "status") (deref h r)]> h
        else h in
      (h', <[index := r]> l)
  | None =>
      (<[r := <["_isNew" := JBool true]> (deref h r)]> h, r :: l)
  end.

(** What [updateInvoice] and [updatePayment] do once their guard on
    [this.state] has let them pass (store.js 219-229 and 265-275): [c] is
    the [changes] object, marked in place; the merged record is a new
    object. *)
Definition update_record (h : heap) (l : list loc) (id : jsval) (c : loc)
  : heap * list loc :=
  match findIndex (λ x, strict_eq (get (deref h x) "id") id) l with
  | Some index =>
      let h1 :=
        if truthy (get (deref h c) "status")
           && negb (strict_eq (get (deref h (l !!! index)) "status") (get (deref h c) "status"))
        then <[c := mark_status (get (deref h (l !!! index)) "status") (deref h c)]> h
        else h in
      let n := fresh (dom h1) in
      (<[n := spread (deref h1 (l !!! index)) (deref h1 c)]> h1, <[index := n]> l)
  | None => (h, l)
  end.

(** [addInvoice] (193-214), [addPayment] (239-260), [updateInvoice]
    (216-230) and [updatePayment] (262-276): each returns at once when
    [this.state] is missing.  ([state.invoices] and [state.payments] are
    arrays, hence truthy.) *)
Definition addInvoice (this : receiver) (s : store) (invoice : loc) : store :=
  if negb (has_state this) then s
  else
    let '(h, l) := add_record (objects s) (invoices s) invoice in
    mkStore h (assets s) l (payments s).

Definition addPayment (this : receiver) (s : store) (payment : loc) : store :=
  if negb (has_state this) then s
  else
    let '(h, l) := add_record (objects s) (payments s) payment in
    mkStore h (assets s) (invoices s) l.

Definition updateInvoice (this : receiver) (s : store) (invoiceId : jsval) (changes : loc)
  : store :=
  if negb (has_state this) then s
  else
    let '(h, l) := update_record (objects s) (invoices s) invoiceId changes in
    mkStore h (assets s) l (payments s).

Definition updatePayment (this : receiver) (s : store) (paymentId : jsval) (changes : loc)
  : store :=
  if negb (has_state this) then s
  else
    let '(h, l) := update_record (objects s) (payments s) paymentId changes in
    mkStore h (assets s) (invoices s) l.

(** [updateAsset] (store.js 171-178): after the guard on [this.state],
    merge [changes] into the first asset with that [asset_id]; nothing
    happens when there is none. *)
Definition updateAsset (this : receiver) (s : store) (assetId : jsval) (changes : loc)
  : store :=
  if negb (has_state this) then s
  else
    match findIndex (λ x, strict_eq (get (deref (objects s) x) "asset_id") assetId)
            (assets s) with
    | Some index =>
        let n := fresh (dom (objects s)) in
        mkStore
          (<[n := spread (deref (objects s) (assets s !!! index))
                    (deref (objects s) changes)]>
             (objects s))
          (<[index := n]> (assets s)) (invoices s) (payments s)
    | None => s
    end.

(** [setAssets] (165-169), [setInvoices] (187-191) and [setPayments]
    (233-237), for an array argument. *)
Definition setAssets (this : receiver) (s : store) (assets : list loc) : store :=
  if has_state this then mkStore (objects s) assets (invoices s) (payments s) else s.

Definition setInvoices (this : receiver) (s : store) (invoices : list loc) : store :=
  if has_state this then mkStore (objects s) (assets s) invoices (payments s) else s.

Definition setPayments (this : receiver) (s : store) (payments : list loc) : store :=
  if has_state this then mkStore (objects s) (assets s) (invoices s) payments else s.

(** The four upserts by id. *)
Inductive upsert :=
| AddInvoice (invoice : loc)
| AddPayment (payment : loc)
| UpdateInvoice (invoiceId : jsval) (changes : loc)
| UpdatePayment (paymentId : jsval) (changes : loc).

Definition apply (this : receiver) (s : store) (u : upsert) : store :=
  match u with
  | AddInvoice r => addInvoice this s r
  | AddPayment r => addPayment this s r
  | UpdateInvoice id c => updateInvoice this s id c
  | UpdatePayment id c => updatePayment this s id c
  end.

(** Every reference held by the store, and the argument object, is
    allocated. *)
Definition allocated (s : store) (l : loc) : Prop := is_Some (objects s !! l).

Definition wf (s : store) : Prop :=
  ∀ l, l ∈ assets s ++ invoices s ++ payments s → allocated s l.

(** *** Marking keeps every property but the two markers *)

Lemma get_mark_status prev (o : obj) k :
  k ≠ "_statusChanged" → k ≠ "_previousStatus" →
  get (mark_status prev o) k = get o k.
Proof.
  intros H1 H2. unfold mark_status. by rewrite !get_insert_ne.
Qed.

Lemma get_deref_marked (h : heap) r prev k x :
  k ≠ "_statusChanged" → k ≠ "_previousStatus" →
  get (deref (<[r := mark_status prev (deref h r)]> h) x) k = get (deref h x) k.
Proof.
  intros H1 H2. destruct (decide (r = x)) as [->|Hne].
  - by rewrite deref_insert_eq, get_mark_status.
  - by rewrite deref_insert_ne.
Qed.

Lemma get_deref_new (h : heap) r k x :
  k ≠ "_isNew" →
  get (deref (<[r := <["_isNew" := JBool true]> (deref h r)]> h) x) k = get (deref h x) k.
Proof.
  intros H1. destruct (decide (r = x)) as [->|Hne].
  - by rewrite deref_insert_eq, get_insert_ne.
  - by rewrite deref_insert_ne.
Qed.

(** *** Adding the same object twice *)

Lemma add_record_twice h l r :
  get (deref h r) "id" ≠ JNaN →
  get (deref h r) "status" ≠ JNaN →
  add_record (add_record h l r).1 (add_record h l r).2 r = add_record h l r.
Proof.
  intros Hid Hst. unfold add_record at 2 3.
  destruct (findIndex _ l) as [i|] eqn:Hf; simpl.
  - set (h' := if negb _ then _ else _).
    assert (Hk : ∀ k x, k ≠ "_statusChanged" → k ≠ "_previousStatus" →
                        get (deref h' x) k = get (deref h x) k).
    { intros k x H1 H2. subst h'. destruct (negb _); [|done].
      by apply get_deref_marked. }
    unfold add_record.
    erewrite (findIndex_insert _ _ l i r Hf).
    + rewrite list_lookup_total_insert.
      pose proof (findIndex_lt _ _ _ Hf) as Hlt.
      rewrite decide_True by done.
      rewrite strict_eq_refl by (by rewrite Hk). simpl.
      by rewrite Hf, list_insert_insert_eq.
    + intros x _. by rewrite !Hk.
    + rewrite strict_eq_refl; [done|]. by rewrite Hk.
  - unfold add_record. simpl.
    rewrite strict_eq_refl by (by rewrite get_deref_new).
    simpl. rewrite strict_eq_refl by (by rewrite get_deref_new).
    by rewrite Hf.
Qed.

(** *** Updating with the same changes twice *)

(** The changes leave the record's id alone: they carry no [id] of their
    own, or the one they are applied under. *)
Definition keeps_id (h : heap) (id : jsval) (c : loc) : Prop :=
  deref h c !! "id" = None ∨ strict_eq (get (deref h c) "id") id = true.

(** The marking step of [update_record]. *)
Definition marked (h : heap) (prev : jsval) (c : loc) : heap :=
  if truthy (get (deref h c) "status")
     && negb (strict_eq prev (get (deref h c) "status"))
  then <[c := mark_status prev (deref h c)]> h
  else h.

Lemma marked_allocated h prev c x : is_Some (h !! x) → is_Some (marked h prev c !! x).
Proof.
  intros Hx. unfold marked. destruct (_ && _); [|done].
  rewrite lookup_insert_is_Some. destruct (decide (c = x)); auto.
Qed.

Lemma marked_lookup h prev c x k :
  k ≠ "_statusChanged" → k ≠ "_previousStatus" →
  deref (marked h prev c) x !! k = deref h x !! k.
Proof.
  intros H1 H2. unfold marked. destruct (_ && _); [|done].
  destruct (decide (c = x)) as [->|Hne].
  - rewrite deref_insert_eq. unfold mark_status. by rewrite !lookup_insert_ne.
  - by rewrite deref_insert_ne.
Qed.

Lemma marked_get h prev c x k :
  k ≠ "_statusChanged" → k ≠ "_previousStatus" →
  get (deref (marked h prev c) x) k = get (deref h x) k.
Proof. intros. unfold get. by rewrite marked_lookup. Qed.

Lemma update_record_found h l id c i :
  findIndex (λ x, strict_eq (get (deref h x) "id") id) l = Some i →
  update_record h l id c =
    let h1 := marked h (get (deref h (l !!! i)) "status") c in
    (<[fresh (dom h1) := spread (deref h1 (l !!! i)) (deref h1 c)]> h1,
     <[i := fresh (dom h1)]> l).
Proof. intros Hf. unfold update_record, marked. by rewrite Hf. Qed.

(** A merged record never asks for a second marking by the same changes. *)
Lemma no_second_mark (a ch : obj) :
  truthy (get ch "status") && negb (strict_eq (get (spread a ch) "status") (get ch "status"))
  = false.
Proof.
  rewrite get_spread. unfold get at 1 3.
  destruct (ch !! "status") as [v|]; simpl; [|done].
  destruct (truthy v) eqn:Hv; [|done].
  by rewrite strict_eq_refl by by apply truthy_not_NaN.
Qed.

Lemma update_record_twice h l id c :
  (∀ x, x ∈ l → is_Some (h !! x)) →
  is_Some (h !! c) →
  keeps_id h id c →
  let s1 := update_record h l id c in
  let s2 := update_record s1.1 s1.2 id c in
  records s2.1 s2.2 = records s1.1 s1.2
  ∧ ∀ x, is_Some (h !! x) → deref s2.1 x = deref s1.1 x.
Proof.
  intros Hl Hc Hid.
  destruct (findIndex (λ x, strict_eq (get (deref h x) "id") id) l) as [i|] eqn:Hf;
    cycle 1.
  { unfold update_record. rewrite Hf. simpl. by rewrite Hf. }
  rewrite (update_record_found _ _ _ _ _ Hf). cbv zeta. cbn [fst snd].
  set (li := l !!! i).
  set (h1 := marked h (get (deref h li) "status") c).
  set (n := fresh (dom h1)).
  set (M := spread (deref h1 li) (deref h1 c)).
  destruct (findIndex_Some _ _ _ Hf) as (y & Hy & Hpy).
  assert (li = y) as Hli by (by apply list_lookup_total_correct).
  assert (Hlt : i < length l) by (by eapply lookup_lt_Some).
  assert (Hn : ∀ x, is_Some (h !! x) → n ≠ x).
  { intros x Hx. apply not_eq_sym, fresh_not_allocated.
    by apply marked_allocated. }
  assert (HM : strict_eq (get M "id") id = true).
  { subst M. rewrite get_spread.
    destruct (deref h1 c !! "id") as [v|] eqn:Hv.
    - subst h1. rewrite marked_lookup in Hv by done.
      destruct Hid as [Hid|Hid]; [congruence|].
      unfold get in Hid. by rewrite Hv in Hid.
    - subst h1. rewrite marked_get by done. by rewrite Hli. }
  assert (Hf2 : findIndex (λ x, strict_eq (get (deref (<[n := M]> h1) x) "id") id)
                  (<[i := n]> l) = Some i).
  { apply (findIndex_insert _ _ _ _ _ Hf).
    - intros x Hx. rewrite deref_insert_ne by (by apply Hn, Hl).
      subst h1. by rewrite marked_get.
    - by rewrite deref_insert_eq. }
  rewrite (update_record_found _ _ _ _ _ Hf2). cbv zeta. cbn [fst snd].
  rewrite list_lookup_total_insert_eq by done.
  rewrite deref_insert_eq.
  assert (Hnomark : marked (<[n := M]> h1) (get M "status") c = <[n := M]> h1).
  { unfold marked. rewrite deref_insert_ne by (by apply Hn).
    subst M. by rewrite no_second_mark. }
  rewrite Hnomark. rewrite deref_insert_eq.
  rewrite (deref_insert_ne _ n c) by (by apply Hn).
  replace (spread M (deref h1 c)) with M by (subst M; by rewrite spread_spread).
  set (n2 := fresh (dom (<[n := M]> h1))).
  assert (Hn2 : ∀ x, is_Some (h !! x) → n2 ≠ x).
  { intros x Hx. apply not_eq_sym, fresh_not_allocated.
    rewrite lookup_insert_is_Some. destruct (decide (n = x)); [auto|].
    right. split; [done|]. by apply marked_allocated. }
  split.
  - unfold records. rewrite list_insert_insert_eq, !list_fmap_insert.
    rewrite !deref_insert_eq. f_equal.
    apply list_fmap_ext. intros j x Hx.
    assert (is_Some (h !! x)) by (eapply Hl, list_elem_of_lookup_2; eauto).
    by rewrite deref_insert_ne by (by apply Hn2).
  - intros x Hx. by rewrite deref_insert_ne by (by apply Hn2).
Qed.

(** At most one record of the collection carries the id. *)
Definition unique_id (h : heap) (l : list loc) (id : jsval) : Prop :=
  ∀ i j x y, l !! i = Some x → l !! j = Some y →
    strict_eq (get (deref h x) "id") id = true →
    strict_eq (get (deref h y) "id") id = true → i = j.

(** Changes that move the only record with the id away from it: the second
    application finds nothing. *)
Lemma update_record_twice_moved h l id c :
  (∀ x, x ∈ l → is_Some (h !! x)) →
  is_Some (h !! c) →
  ¬ keeps_id h id c →
  unique_id h l id →
  let s1 := update_record h l id c in
  update_record s1.1 s1.2 id c = s1.
Proof.
  intros Hl Hc Hid Hu.
  destruct (findIndex (λ x, strict_eq (get (deref h x) "id") id) l) as [i|] eqn:Hf;
    cycle 1.
  { unfold update_record. rewrite Hf. simpl. by rewrite Hf. }
  rewrite (update_record_found _ _ _ _ _ Hf). cbv zeta. cbn [fst snd].
  set (li := l !!! i).
  set (h1 := marked h (get (deref h li) "status") c).
  set (n := fresh (dom h1)).
  set (M := spread (deref h1 li) (deref h1 c)).
  destruct (findIndex_Some _ _ _ Hf) as (y & Hy & Hpy).
  assert (Hn : ∀ x, is_Some (h !! x) → n ≠ x).
  { intros x Hx. apply not_eq_sym, fresh_not_allocated.
    by apply marked_allocated. }
  assert (HM : strict_eq (get M "id") id = false).
  { subst M. rewrite get_spread.
    destruct (deref h1 c !! "id") as [v|] eqn:Hv.
    - subst h1. rewrite marked_lookup in Hv by done.
      destruct (strict_eq v id) eqn:Hvid; [|done].
      destruct Hid. right. unfold get. by rewrite Hv.
    - subst h1. rewrite marked_lookup in Hv by done. destruct Hid. by left. }
  unfold update_record. rewrite findIndex_None; [done|].
  intros x Hx. apply list_elem_of_lookup in Hx as [j Hj].
  apply list_lookup_insert_Some in Hj as [(-> & <- & _)|[Hne Hj]].
  - by rewrite deref_insert_eq.
  - assert (is_Some (h !! x)) by (eapply Hl, list_elem_of_lookup_2; eauto).
    rewrite deref_insert_ne by (by apply Hn).
    subst h1. rewrite marked_get by done.
    destruct (strict_eq (get (deref h x) "id") id) eqn:Hx; [|done].
    destruct Hne. by apply (Hu i j y x).
Qed.

#[global] Instance keeps_id_dec h id c : Decision (keeps_id h id c).
Proof. unfold keeps_id. apply _. Defined.

(** *** The upserts on an object that has the state

    What follows in this part is about the code behind the guard: the
    upserts as they would run on [taprootStore] itself.  The repository
    never calls them so. *)

(** The object an upsert is handed. *)
Definition argument (u : upsert) : loc :=
  match u with
  | AddInvoice r | AddPayment r => r
  | UpdateInvoice _ c | UpdatePayment _ c => c
  end.

(** The side condition under which a second application changes nothing:
    an added object has an id and a status other than [NaN]; changes do
    not move a record away from an id that other records share. *)
Definition settles (s : store) (u : upsert) : Prop :=
  match u with
  | AddInvoice r | AddPayment r =>
      get (deref (objects s) r) "id" ≠ JNaN
      ∧ get (deref (objects s) r) "status" ≠ JNaN
  | UpdateInvoice id c =>
      keeps_id (objects s) id c ∨ unique_id (objects s) (invoices s) id
  | UpdatePayment id c =>
      keeps_id (objects s) id c ∨ unique_id (objects s) (payments s) id
  end.

Lemma addInvoice_eq s r :
  addInvoice TaprootStore s r =
  mkStore (add_record (objects s) (invoices s) r).1 (assets s)
          (add_record (objects s) (invoices s) r).2 (payments s).
Proof. unfold addInvoice. cbn [has_state negb]. by destruct (add_record _ _ _). Qed.

Lemma addPayment_eq s r :
  addPayment TaprootStore s r =
  mkStore (add_record (objects s) (payments s) r).1 (assets s) (invoices s)
          (add_record (objects s) (payments s) r).2.
Proof. unfold addPayment. cbn [has_state negb]. by destruct (add_record _ _ _). Qed.

Lemma updateInvoice_eq s id c :
  updateInvoice TaprootStore s id c =
  mkStore (update_record (objects s) (invoices s) id c).1 (assets s)
          (update_record (objects s) (invoices s) id c).2 (payments s).
Proof.
  unfold updateInvoice. cbn [has_state negb]. by destruct (update_record _ _ _ _).
Qed.

Lemma updatePayment_eq s id c :
  updatePayment TaprootStore s id c =
  mkStore (update_record (objects s) (payments s) id c).1 (assets s) (invoices s)
          (update_record (objects s) (payments s) id c).2.
Proof.
  unfold updatePayment. cbn [has_state negb]. by destruct (update_record _ _ _ _).
Qed.

Lemma records_frame (h h' : heap) (l : list loc) :
  (∀ x, x ∈ l → deref h' x = deref h x) → records h' l = records h l.
Proof.
  intros H. apply list_fmap_ext. intros i x Hx.
  eapply H, list_elem_of_lookup_2; eauto.
Qed.

Lemma update_record_idem h l id c :
  (∀ x, x ∈ l → is_Some (h !! x)) →
  is_Some (h !! c) →
  keeps_id h id c ∨ unique_id h l id →
  let s1 := update_record h l id c in
  let s2 := update_record s1.1 s1.2 id c in
  records s2.1 s2.2 = records s1.1 s1.2
  ∧ ∀ x, is_Some (h !! x) → deref s2.1 x = deref s1.1 x.
Proof.
  intros Hl Hc Hside. destruct (decide (keeps_id h id c)) as [Hk|Hk].
  - by apply update_record_twice.
  - destruct Hside as [?|Hu]; [done|]. simpl.
    by rewrite update_record_twice_moved.
Qed.

(** Well-formedness and allocation of a concrete store are checked by
    evaluation. *)
Definition check_wf (s : store) : bool :=
  forallb (λ l, bool_decide (is_Some (objects s !! l)))
    (assets s ++ invoices s ++ payments s).

Lemma check_wf_sound s : check_wf s = true → wf s.
Proof.
  unfold check_wf, wf, allocated. rewrite forallb_forall.
  intros H l Hl. apply list_elem_of_In, H in Hl.
  by apply bool_decide_eq_true_1 in Hl.
Qed.

Lemma check_allocated s l : bool_decide (is_Some (objects s !! l)) = true → allocated s l.
Proof. apply bool_decide_eq_true_1. Qed.

Ltac solve_wf := apply check_wf_sound; vm_compute; reflexivity.
Ltac solve_allocated := apply check_allocated; vm_compute; reflexivity.

(** On an object that has the state, in every well-formed store: the same
    update (the same object) a second time leaves the records of all three
    collections as the first application left them -- provided an added
    object has an id and a status other than NaN, and changes either keep
    the id they are applied under or no other record shares that id. *)
Lemma upsert_twice_on_state (s : store) (u : upsert) :
  wf s →
  allocated s (argument u) →
  settles s u →
  view (apply TaprootStore (apply TaprootStore s u) u) = view (apply TaprootStore s u).
Proof.
  intros Hwf Harg Hside.
  assert (Ha : ∀ x, x ∈ assets s → is_Some (objects s !! x)).
  { intros x Hx. apply Hwf. rewrite !elem_of_app. auto. }
  assert (Hi : ∀ x, x ∈ invoices s → is_Some (objects s !! x)).
  { intros x Hx. apply Hwf. rewrite !elem_of_app. auto. }
  assert (Hp : ∀ x, x ∈ payments s → is_Some (objects s !! x)).
  { intros x Hx. apply Hwf. rewrite !elem_of_app. auto. }
  destruct u as [r|r|id c|id c]; cbn [apply argument settles] in *.
  - destruct Hside as [Hid Hst].
    rewrite (addInvoice_eq (addInvoice TaprootStore s r)), (addInvoice_eq s r). simpl.
    by rewrite add_record_twice.
  - destruct Hside as [Hid Hst].
    rewrite (addPayment_eq (addPayment TaprootStore s r)), (addPayment_eq s r). simpl.
    by rewrite add_record_twice.
  - rewrite (updateInvoice_eq (updateInvoice TaprootStore s id c)), (updateInvoice_eq s id c).
    unfold view. simpl.
    destruct (update_record_idem _ _ id c Hi Harg Hside) as [Hrec Hframe].
    simpl in Hrec, Hframe. rewrite Hrec.
    rewrite (records_frame _ _ (assets s)) by (intros; by apply Hframe, Ha).
    by rewrite (records_frame _ _ (payments s)) by (intros; by apply Hframe, Hp).
  - rewrite (updatePayment_eq (updatePayment TaprootStore s id c)), (updatePayment_eq s id c).
    unfold view. simpl.
    destruct (update_record_idem _ _ id c Hp Harg Hside) as [Hrec Hframe].
    simpl in Hrec, Hframe. rewrite Hrec.
    rewrite (records_frame _ _ (assets s)) by (intros; by apply Hframe, Ha).
    by rewrite (records_frame _ _ (invoices s)) by (intros; by apply Hframe, Hi).
Qed.

(** Two pending invoices that share the id 1, and a changes object
    [{id: 2}]. *)
Definition shared_id_store : store :=
  mkStore
    (<[1%positive := {[ "id" := JNum 1; "status" := JStr "pending" ]}]>
       (<[2%positive := {[ "id" := JNum 1; "status" := JStr "pending" ]}]>
          (<[3%positive := {[ "id" := JNum 2 ]}]> ∅)))
    [] [1%positive; 2%positive] [].

(** One pending invoice and the changes [{status: 'paid'}]. *)
Definition pending_store : store :=
  mkStore
    (<[1%positive := {[ "id" := JNum 1; "status" := JStr "pending" ]}]>
       (<[2%positive := {[ "status" := JStr "paid" ]}]> ∅))
    [] [1%positive] [].

Definition ids (l : list obj) : list jsval := (λ o, get o "id") <$> l.

(** Without the side condition the second application can differ, on an
    object that has the state: [updateInvoice(1, {id: 2})] on a store whose
    two invoices share the id 1 renames the first invoice; the same call
    again renames the second one. *)
Lemma upsert_twice_on_state_differs :
  let u := UpdateInvoice (JNum 1) 3%positive in
  wf shared_id_store
  ∧ ids (view (apply TaprootStore shared_id_store u)).1.2 = [JNum 2; JNum 1]
  ∧ ids (view (apply TaprootStore (apply TaprootStore shared_id_store u) u)).1.2
    = [JNum 2; JNum 2].
Proof. split_and!; [solve_wf|by vm_compute|by vm_compute]. Qed.

(** *** The upserts as the repository calls them *)



(** *** The status-changed marker *)

(** The collection an upsert works on, the id it looks for, the index of
    the existing record (if any), the record stored there, and the object
    coming in. *)
Definition target (s : store) (u : upsert) : list loc :=
  match u with
  | AddInvoice _ | UpdateInvoice _ _ => invoices s
  | AddPayment _ | UpdatePayment _ _ => payments s
  end.

Definition key (s : store) (u : upsert) : jsval :=
  match u with
  | AddInvoice r | AddPayment r => get (deref (objects s) r) "id"
  | UpdateInvoice id _ | UpdatePayment id _ => id
  end.

Definition existing_index (s : store) (u : upsert) : option nat :=
  findIndex (λ x, strict_eq (get (deref (objects s) x) "id") (key s u)) (target s u).

Definition record_at (s : store) (u : upsert) (i : nat) : obj :=
  deref (objects s) (target s u !!! i).

Definition incoming (s : store) (u : upsert) : obj :=
  deref (objects s) (argument u).

Definition is_update (u : upsert) : bool :=
  match u with
  | AddInvoice _ | AddPayment _ => false
  | UpdateInvoice _ _ | UpdatePayment _ _ => true
  end.

(** What the merged record inherits when nothing is marked: an added
    object replaces the record; changes are spread over it. *)
Definition unmarked_merge (s : store) (u : upsert) (i : nat) : obj :=
  if is_update u then spread (record_at s u i) (incoming s u) else incoming s u.

(** On an object that has the state: if the update's status differs from
    the stored one (and, for updateInvoice and updatePayment, is truthy),
    the merged record carries _statusChanged = true and _previousStatus =
    the stored status before the merge; otherwise the merge sets no marker:
    the merged record has exactly the markers that the incoming object (or,
    under it, the stored record of an update) already carried. *)
Lemma status_marker_on_state (s : store) (u : upsert) (i : nat) :
  existing_index s u = Some i →
  let before := get (record_at s u i) "status" in
  let merged := record_at (apply TaprootStore s u) u i in
  if negb (strict_eq before (get (incoming s u) "status"))
     && (negb (is_update u) || truthy (get (incoming s u) "status"))
  then get merged "_statusChanged" = JBool true
       ∧ get merged "_previousStatus" = before
  else get merged "_statusChanged" = get (unmarked_merge s u i) "_statusChanged"
       ∧ get merged "_previousStatus" = get (unmarked_merge s u i) "_previousStatus".
Proof.
  unfold existing_index, record_at, incoming, unmarked_merge.
  intros Hf. pose proof (findIndex_lt _ _ _ Hf) as Hlt.
  destruct u as [r|r|id c|id c];
    cbn [apply argument target key is_update negb orb] in *.
  - rewrite addInvoice_eq. unfold add_record. rewrite Hf. simpl.
    rewrite list_lookup_total_insert_eq by done.
    rewrite andb_true_r. destruct (negb _); [|done].
    rewrite deref_insert_eq. unfold mark_status.
    by rewrite get_insert_eq, get_insert_ne, get_insert_eq.
  - rewrite addPayment_eq. unfold add_record. rewrite Hf. simpl.
    rewrite list_lookup_total_insert_eq by done.
    rewrite andb_true_r. destruct (negb _); [|done].
    rewrite deref_insert_eq. unfold mark_status.
    by rewrite get_insert_eq, get_insert_ne, get_insert_eq.
  - rewrite updateInvoice_eq, (update_record_found _ _ _ _ _ Hf). simpl.
    rewrite list_lookup_total_insert_eq by done.
    rewrite deref_insert_eq, andb_comm. unfold marked.
    destruct (_ && _); [|done].
    rewrite deref_insert_eq, !get_spread. unfold mark_status.
    rewrite lookup_insert_eq, lookup_insert_ne by done.
    by rewrite lookup_insert_eq.
  - rewrite updatePayment_eq, (update_record_found _ _ _ _ _ Hf). simpl.
    rewrite list_lookup_total_insert_eq by done.
    rewrite deref_insert_eq, andb_comm. unfold marked.
    destruct (_ && _); [|done].
    rewrite deref_insert_eq, !get_spread. unfold mark_status.
    rewrite lookup_insert_eq, lookup_insert_ne by done.
    by rewrite lookup_insert_eq.
Qed.

(** C2. The marker is not set by the store as the repository calls it.
    A pending invoice is in the store and [updateInvoice], called as a
    member of taprootStore.actions, brings the status paid: the status
    differs, so that the merged record should carry _statusChanged = true
    and _previousStatus = pending.  The action returns at its guard on
    [this.state] instead: the stored invoice carries no marker and is
    still pending, and the changes object is not marked either.  The same
    action on an object that has the state merges and sets both markers. *)
Theorem status_marker_not_set :
  let u := UpdateInvoice (JNum 1) 2%positive in
  existing_index pending_store u = Some 0
  ∧ get (record_at pending_store u 0) "status" = JStr "pending"
  ∧ get (incoming pending_store u) "status" = JStr "paid"
  ∧ get (record_at (apply Actions pending_store u) u 0) "_statusChanged" = JUndefined
  ∧ get (record_at (apply Actions pending_store u) u 0) "_previousStatus" = JUndefined
  ∧ get (record_at (apply Actions pending_store u) u 0) "status" = JStr "pending"
  ∧ get (incoming (apply Actions pending_store u) u) "_statusChanged" = JUndefined
  ∧ get (record_at (apply TaprootStore pending_store u) u 0) "_statusChanged" = JBool true
  ∧ get (record_at (apply TaprootStore pending_store u) u 0) "_previousStatus"
    = JStr "pending"
  ∧ get (record_at (apply TaprootStore pending_store u) u 0) "status" = JStr "paid".
Proof. by vm_compute. Qed.

(** On an object that has the state the marker outlives the change it
    reports: once the invoice was marked paid, a second update with the
    same status meets an equal stored status, and the merged record still
    carries [_statusChanged = true]. *)
Definition paid_twice_store : store :=
  mkStore
    (<[1%positive := {[ "id" := JNum 1; "status" := JStr "pending" ]}]>
       (<[2%positive := {[ "status" := JStr "paid" ]}]>
          (<[3%positive := {[ "status" := JStr "paid" ]}]> ∅)))
    [] [1%positive] [].

Lemma status_marker_on_state_survives :
  let s1 := apply TaprootStore paid_twice_store (UpdateInvoice (JNum 1) 2%positive) in
  let u := UpdateInvoice (JNum 1) 3%positive in
  existing_index s1 u = Some 0
  ∧ get (record_at s1 u 0) "status" = JStr "paid"
  ∧ get (incoming s1 u) "status" = JStr "paid"
  ∧ get (record_at (apply TaprootStore s1 u) u 0) "_statusChanged" = JBool true
  ∧ get (record_at (apply TaprootStore s1 u) u 0) "status" = JStr "paid".
Proof. by vm_compute. Qed.

(** [addInvoice] and [addPayment] write to the object passed in only. *)
Lemma add_record_frame (h : heap) l r x :
  x ≠ r → (add_record h l r).1 !! x = h !! x.
Proof.
  intros Hx. unfold add_record. case_match; [case_match|]; cbn [fst];
    by rewrite ?lookup_insert_ne.
Qed.

(** *** The getters of the store and the asset actions *)

(** [getAssetById] of the getters (store.js 147-153). *)
Definition getAssetById (this : receiver) (s : store) (assetId : jsval) : jsval :=
  if negb (truthy assetId) || negb (has_state this) || (length (assets s) =? 0)%nat
  then JNull
  else
    match findIndex (λ x, strict_eq (get (deref (objects s) x) "asset_id") assetId)
            (assets s) with
    | Some index => JRef (assets s !!! index)
    | None => JNull
    end.

(** [getAssetName] of the getters (156-159); [this.getAssetById] is a
    function only when [this] is the getters object. *)
Definition getAssetName (this : receiver) (s : store) (assetId : jsval) : result jsval :=
  if negb (has_getters this) then TypeError
  else
    let asset := getAssetById this s assetId in
    Ok (if truthy asset then prop (objects s) asset "name" else JStr "Unknown").

(** The test and the callback of [filteredAssets] (43-62): an asset with
    channel information is copied, and the copy gets a [user_balance] of 0
    when it has none. *)
Definition hasChannel (h : heap) (x : loc) : bool :=
  negb (strict_eq (get (deref h x) "channel_info") JUndefined).

Definition copyAsset (h : heap) (x : loc) : heap * loc :=
  let '(h, assetCopy) := alloc h (deref h x) in
  let h :=
    if strict_eq (get (deref h assetCopy) "user_balance") JUndefined
    then write h (JRef assetCopy) "user_balance" (JNum 0)
    else h in
  (h, assetCopy).

(** [array.map(copy)], threading the heap. *)
Fixpoint copyAssets (h : heap) (l : list loc) : heap * list loc :=
  match l with
  | [] => (h, [])
  | x :: l' =>
      let '(h, y) := copyAsset h x in
      let '(h, ys) := copyAssets h l' in
      (h, y :: ys)
  end.

(** [filteredAssets] (44-63): the empty list when [this.state] is missing
    (or there are no assets). *)
Definition filteredAssets (this : receiver) (s : store) : heap * list loc :=
  if negb (has_state this) || (length (assets s) =? 0)%nat then (objects s, [])
  else copyAssets (objects s) (filter (λ x, hasChannel (objects s) x = true) (assets s)).

(** What the copy of [filteredAssets] holds. *)
Definition withBalance (o : obj) : obj :=
  if strict_eq (get o "user_balance") JUndefined then <["user_balance" := JNum 0]> o
  else o.

Lemma copyAsset_spec h x :
  extends h (copyAsset h x).1
  ∧ h !! (copyAsset h x).2 = None
  ∧ (copyAsset h x).1 !! (copyAsset h x).2 = Some (withBalance (deref h x)).
Proof.
  unfold copyAsset, alloc. cbv zeta beta iota. cbn [fst snd].
  set (c := fresh (dom h)).
  assert (h !! c = None) as Hc by apply extends_fresh, extends_refl.
  rewrite deref_insert_eq. unfold withBalance.
  destruct (strict_eq _ _); cbn [fst snd write].
  - split_and!; [|done|].
    + do 2 (apply extends_insert; [|done]). apply extends_refl.
    + by rewrite deref_insert_eq, lookup_insert_eq.
  - split_and!; [|done|].
    + apply extends_insert; [|done]. apply extends_refl.
    + by rewrite lookup_insert_eq.
Qed.

Lemma copyAssets_spec l h :
  (∀ x, x ∈ l → is_Some (h !! x)) →
  extends h (copyAssets h l).1
  ∧ records (copyAssets h l).1 (copyAssets h l).2 = withBalance <$> records h l
  ∧ Forall (λ y, h !! y = None) (copyAssets h l).2.
Proof.
  revert h. induction l as [|x l IH]; intros h Hl.
  { cbn. split_and!; [apply extends_refl|done|done]. }
  cbn [copyAssets]. destruct (copyAsset_spec h x) as (He & Hn & Hc).
  destruct (copyAsset h x) as [h1 c]. cbn [fst snd] in *.
  destruct (IH h1) as (He' & Hr & Hf).
  { intros y Hy. rewrite He; apply Hl; by right. }
  destruct (copyAssets h1 l) as [h2 ys]. cbn [fst snd] in *. split_and!.
  - by eapply extends_trans.
  - unfold records in *. rewrite !fmap_cons. f_equal.
    + unfold deref at 1. rewrite He', Hc; [done|]. rewrite Hc. eauto.
    + rewrite Hr. f_equal. apply list_fmap_ext. intros i y Hy.
      unfold deref. rewrite He; [done|]. apply Hl. right.
      by eapply list_elem_of_lookup_2.
  - constructor; [done|]. eapply Forall_impl; [exact Hf|]. cbn. intros y Hy.
    destruct (h !! y) eqn:Hhy; [|done]. rewrite He in Hy; [congruence|]. rewrite Hhy. eauto.
Qed.

Lemma records_hasChannel h l :
  records h (filter (λ x, hasChannel h x = true) l)
  = filter (λ o, strict_eq (get o "channel_info") JUndefined = false) (records h l).
Proof.
  unfold records, hasChannel. induction l as [|x xs IH]; [done|].
  rewrite fmap_cons.
  destruct (strict_eq (get (deref h x) "channel_info") JUndefined) eqn:E.
  - rewrite !filter_cons_False; [exact IH|by rewrite E|by rewrite E].
  - rewrite !filter_cons_True; [|by rewrite E..]. by rewrite fmap_cons, IH.
Qed.

(** X1. Called on [taprootStore.getters], as the repository would call it,
    [filteredAssets] returns the empty list, whatever the store holds.
    Called on an object that has the state it hands out copies: the
    objects of the store are left as they were and none of them is
    returned; the copies are those of the assets with channel information,
    in the order of the store, each with a [user_balance] (0 when the asset
    has none). *)
Theorem filteredAssets_copies (this : receiver) (s : store) :
  wf s →
  if has_state this then
    (∀ x, is_Some (objects s !! x) → (filteredAssets this s).1 !! x = objects s !! x)
    ∧ Forall (λ y, objects s !! y = None) (filteredAssets this s).2
    ∧ records (filteredAssets this s).1 (filteredAssets this s).2
      = withBalance
          <$> filter (λ o, strict_eq (get o "channel_info") JUndefined = false)
                (records (objects s) (assets s))
    ∧ Forall (λ o, get o "user_balance" ≠ JUndefined ∧ get o "channel_info" ≠ JUndefined)
        (records (filteredAssets this s).1 (filteredAssets this s).2)
  else filteredAssets this s = (objects s, []).
Proof.
  intros Hwf. unfold filteredAssets. destruct (has_state this); [|done]. cbn [negb orb].
  destruct (Nat.eqb_spec (length (assets s)) 0) as [Hz|_].
  { apply nil_length_inv in Hz. rewrite Hz. cbn. split_and!; done. }
  set (l := filter (λ x, hasChannel (objects s) x = true) (assets s)).
  destruct (copyAssets_spec l (objects s)) as (He & Hr & Hf).
  { intros x [_ Hx]%list_elem_of_filter. apply Hwf. apply elem_of_app. by left. }
  pose proof (records_hasChannel (objects s) (assets s)) as Hl. fold l in Hl.
  split_and!; [exact He|exact Hf|by rewrite Hr, Hl|].
  rewrite Hr, Hl. apply Forall_fmap, Forall_forall. intros o [Ho _]%list_elem_of_filter.
  cbn. unfold withBalance. destruct (strict_eq (get o "user_balance") JUndefined) eqn:Hb.
  - rewrite get_insert_eq, get_insert_ne by done. split; [done|].
    intros Hu. by rewrite Hu in Ho.
  - split; intros Hu; by rewrite Hu in *.
Qed.

(** A store with a channel asset that has no balance yet (1), an asset
    without channel (2) and a channel asset with a balance (3). *)
Definition channel_store : store :=
  mkStore
    (<[1%positive := {[ "asset_id" := JStr "a"; "channel_info" := JRef 4%positive ]}]>
       (<[2%positive := {[ "asset_id" := JStr "b" ]}]>
          (<[3%positive := {[ "asset_id" := JStr "c"; "channel_info" := JRef 4%positive;
                              "user_balance" := JNum 7 ]}]>
             (<[4%positive := {[ "active" := JBool true ]}]> ∅))))
    [1%positive; 2%positive; 3%positive] [] [].

Lemma filteredAssets_copies_witness :
  filteredAssets Getters channel_store = (objects channel_store, [])
  ∧ (∀ x, is_Some (objects channel_store !! x) →
          (filteredAssets TaprootStore channel_store).1 !! x = objects channel_store !! x)
  ∧ Forall (λ y, objects channel_store !! y = None)
      (filteredAssets TaprootStore channel_store).2
  ∧ records (filteredAssets TaprootStore channel_store).1
      (filteredAssets TaprootStore channel_store).2
    = withBalance
        <$> filter (λ o, strict_eq (get o "channel_info") JUndefined = false)
              (records (objects channel_store) (assets channel_store))
  ∧ Forall (λ o, get o "user_balance" ≠ JUndefined ∧ get o "channel_info" ≠ JUndefined)
      (records (filteredAssets TaprootStore channel_store).1
         (filteredAssets TaprootStore channel_store).2).
Proof.
  assert (wf channel_store) as Hwf by (apply check_wf_sound; vm_compute; reflexivity).
  split.
  - exact (filteredAssets_copies Getters channel_store Hwf).
  - exact (filteredAssets_copies TaprootStore channel_store Hwf).
Defined.

(** X2. Called on [taprootStore.actions], as the repository calls it,
    [updateAsset] changes nothing.  Called on an object that has the state
    it merges the changes into the first asset with the given id, as a new
    object in the same place: a property of the changes wins, every other
    property stays; no other record of the store is touched; an id that is
    not in the store changes nothing. *)
Theorem updateAsset_merges (this : receiver) (s : store) (assetId : jsval) (changes : loc) :
  wf s →
  if has_state this then
    match findIndex (λ x, strict_eq (get (deref (objects s) x) "asset_id") assetId)
            (assets s) with
    | Some i =>
        length (assets (updateAsset this s assetId changes)) = length (assets s)
        ∧ (∀ k,
             get (deref (objects (updateAsset this s assetId changes))
                    (assets (updateAsset this s assetId changes) !!! i)) k
             = match deref (objects s) changes !! k with
               | Some v => v
               | None => get (deref (objects s) (assets s !!! i)) k
               end)
        ∧ (∀ j, j ≠ i →
             records (objects (updateAsset this s assetId changes))
               (assets (updateAsset this s assetId changes)) !! j
             = records (objects s) (assets s) !! j)
        ∧ records (objects (updateAsset this s assetId changes))
            (invoices (updateAsset this s assetId changes))
          = records (objects s) (invoices s)
        ∧ records (objects (updateAsset this s assetId changes))
            (payments (updateAsset this s assetId changes))
          = records (objects s) (payments s)
    | None => updateAsset this s assetId changes = s
    end
  else updateAsset this s assetId changes = s.
Proof.
  intros Hwf. unfold updateAsset. destruct (has_state this); [|done]. cbn [negb].
  destruct (findIndex _ (assets s)) as [i|] eqn:Hfind; [|done].
  cbn [objects assets invoices payments].
  pose proof (findIndex_lt _ _ _ Hfind) as Hlt.
  set (n := fresh (dom (objects s))).
  assert (∀ x, x ∈ assets s ++ invoices s ++ payments s →
               deref (<[n := spread (deref (objects s) (assets s !!! i))
                                (deref (objects s) changes)]> (objects s)) x
               = deref (objects s) x) as Hsame.
  { intros x Hx. apply deref_insert_ne. apply not_eq_sym, fresh_not_allocated.
    by apply Hwf. }
  split_and!.
  - by rewrite length_insert.
  - intros k. rewrite list_lookup_total_insert_eq by done.
    by rewrite deref_insert_eq, get_spread.
  - intros j Hj. unfold records. rewrite !list_lookup_fmap.
    rewrite list_lookup_insert_ne by done.
    destruct (assets s !! j) as [x|] eqn:Hx; [|done]. cbn. f_equal.
    apply Hsame, elem_of_app. left. by eapply list_elem_of_lookup_2.
  - apply records_frame. intros x Hx. apply Hsame. rewrite !elem_of_app. auto.
  - apply records_frame. intros x Hx. apply Hsame. rewrite !elem_of_app. auto.
Qed.

Lemma updateAsset_merges_witness :
  updateAsset Actions channel_store (JStr "c") 4%positive = channel_store
  ∧ length (assets (updateAsset TaprootStore channel_store (JStr "c") 4%positive))
    = length (assets channel_store)
  ∧ get (deref (objects (updateAsset TaprootStore channel_store (JStr "c") 4%positive))
           (assets (updateAsset TaprootStore channel_store (JStr "c") 4%positive) !!! 2))
      "active"
    = JBool true
  ∧ get (deref (objects (updateAsset TaprootStore channel_store (JStr "c") 4%positive))
           (assets (updateAsset TaprootStore channel_store (JStr "c") 4%positive) !!! 2))
      "user_balance"
    = JNum 7.
Proof.
  assert (wf channel_store) as Hwf by (apply check_wf_sound; vm_compute; reflexivity).
  split; [exact (updateAsset_merges Actions channel_store (JStr "c") 4%positive Hwf)|].
  pose proof (updateAsset_merges TaprootStore channel_store (JStr "c") 4%positive Hwf) as H.
  cbn [has_state] in H.
  change (findIndex _ (assets channel_store)) with (Some 2) in H.
  destruct H as (H1 & H2 & _).
  split_and!; [exact H1|exact (H2 "active")|exact (H2 "user_balance")].
Defined.

Lemma updateAsset_on_state (s : store) (assetId : jsval) (changes : loc) (i : nat) :
  wf s →
  findIndex (λ x, strict_eq (get (deref (objects s) x) "asset_id") assetId) (assets s)
  = Some i →
  length (assets (updateAsset TaprootStore s assetId changes)) = length (assets s)
  ∧ ∀ k,
      get (deref (objects (updateAsset TaprootStore s assetId changes))
             (assets (updateAsset TaprootStore s assetId changes) !!! i)) k
      = match deref (objects s) changes !! k with
        | Some v => v
        | None => get (deref (objects s) (assets s !!! i)) k
        end.
Proof.
  intros Hwf Hfind. unfold updateAsset. cbn [has_state negb]. rewrite Hfind.
  cbn [objects assets]. pose proof (findIndex_lt _ _ _ Hfind) as Hlt. split.
  - by rewrite length_insert.
  - intros k. rewrite list_lookup_total_insert_eq by done.
    by rewrite deref_insert_eq, get_spread.
Qed.

(** X3. The getter [getAssetById] after the action [updateAsset], each
    with its own receiver.  When both are called on an object that has the
    state, the asset updated is the one returned for that id afterwards,
    with the merged properties, as long as the changes do not bring another
    [asset_id].  As the repository calls them (the action on
    [taprootStore.actions], the getter on [taprootStore.getters]) the getter
    returns null; and a getter with the state after an action without it
    returns what it returned before. *)
Theorem updated_asset_is_found (a g : receiver) (s : store) (assetId : jsval)
    (changes : loc) (i : nat) :
  wf s →
  truthy assetId = true →
  findIndex (λ x, strict_eq (get (deref (objects s) x) "asset_id") assetId) (assets s)
  = Some i →
  deref (objects s) changes !! "asset_id" = None
  ∨ strict_eq (get (deref (objects s) changes) "asset_id") assetId = true →
  match has_state a, has_state g with
  | true, true =>
      getAssetById g (updateAsset a s assetId changes) assetId
      = JRef (assets (updateAsset a s assetId changes) !!! i)
      ∧ ∀ k,
          prop (objects (updateAsset a s assetId changes))
            (getAssetById g (updateAsset a s assetId changes) assetId) k
          = match deref (objects s) changes !! k with
            | Some v => v
            | None => get (deref (objects s) (assets s !!! i)) k
            end
  | false, true =>
      getAssetById g (updateAsset a s assetId changes) assetId = getAssetById g s assetId
  | _, false => getAssetById g (updateAsset a s assetId changes) assetId = JNull
  end.
Proof.
  intros Hwf Hid Hfind Hkeep.
  destruct a, g; cbn [has_state];
    try (unfold getAssetById; cbn [has_state negb orb]; rewrite Hid; reflexivity);
    try reflexivity.
  destruct (updateAsset_on_state s assetId changes i Hwf Hfind) as (Hlen & Hget).
  pose proof (findIndex_lt _ _ _ Hfind) as Hlt.
  assert (getAssetById TaprootStore (updateAsset TaprootStore s assetId changes) assetId
          = JRef (assets (updateAsset TaprootStore s assetId changes) !!! i)) as Hby.
  { unfold getAssetById. rewrite Hid, Hlen. cbn [has_state negb orb].
    destruct (Nat.eqb_spec (length (assets s)) 0) as [Hz|_]; [lia|].
    assert (findIndex
              (λ x, strict_eq
                      (get (deref (objects (updateAsset TaprootStore s assetId changes)) x)
                         "asset_id") assetId)
              (assets (updateAsset TaprootStore s assetId changes)) = Some i) as ->; [|done].
    unfold updateAsset. cbn [has_state negb]. rewrite Hfind. cbn [objects assets].
    apply (findIndex_insert _ _ _ _ _ Hfind).
    - intros x Hx. rewrite deref_insert_ne; [done|].
      apply not_eq_sym, fresh_not_allocated, Hwf, elem_of_app. by left.
    - rewrite deref_insert_eq, get_spread.
      destruct (findIndex_Some _ _ _ Hfind) as (x & Hx & Hp).
      rewrite (list_lookup_total_correct _ _ _ Hx).
      destruct Hkeep as [Hnone|Hsame].
      + by rewrite Hnone.
      + unfold get in Hsame. destruct (deref (objects s) changes !! "asset_id"); [done|].
        exact Hp. }
  split; [exact Hby|]. intros k. rewrite Hby. cbn [prop]. apply Hget.
Qed.

Lemma updated_asset_is_found_witness :
  getAssetById Getters (updateAsset Actions channel_store (JStr "c") 4%positive) (JStr "c")
  = JNull
  ∧ getAssetById TaprootStore
      (updateAsset TaprootStore channel_store (JStr "c") 4%positive) (JStr "c")
    = JRef (assets (updateAsset TaprootStore channel_store (JStr "c") 4%positive) !!! 2)
  ∧ prop (objects (updateAsset TaprootStore channel_store (JStr "c") 4%positive))
      (getAssetById TaprootStore
         (updateAsset TaprootStore channel_store (JStr "c") 4%positive) (JStr "c")) "active"
    = JBool true.
Proof.
  assert (wf channel_store) as Hwf by (apply check_wf_sound; vm_compute; reflexivity).
  split.
  - exact (updated_asset_is_found Actions Getters channel_store (JStr "c") 4%positive 2 Hwf
             eq_refl eq_refl (or_introl eq_refl)).
  - destruct (updated_asset_is_found TaprootStore TaprootStore channel_store (JStr "c")
                4%positive 2 Hwf eq_refl eq_refl (or_introl eq_refl)) as (H1 & H2).
    split; [exact H1|exact (H2 "active")].
Defined.

Lemma add_record_found (h : heap) (l : list loc) (r : loc) :
  get (deref h r) "id" ≠ JNaN →
  ∃ j,
    findIndex (λ x, strict_eq (get (deref (add_record h l r).1 x) "id")
                      (get (deref h r) "id"))
      (add_record h l r).2 = Some j
    ∧ (add_record h l r).2 !! j = Some r
    ∧ match findIndex (λ x, strict_eq (get (deref h x) "id") (get (deref h r) "id")) l with
      | Some i =>
          j = i ∧ length (add_record h l r).2 = length l
          ∧ get (deref (add_record h l r).1 r) "_isNew" = get (deref h r) "_isNew"
      | None =>
          j = 0 ∧ (add_record h l r).2 = r :: l
          ∧ get (deref (add_record h l r).1 r) "_isNew" = JBool true
      end.
Proof.
  intros Hid. unfold add_record.
  destruct (findIndex _ l) as [i|] eqn:Hfind; cbn [fst snd].
  - exists i. pose proof (findIndex_lt _ _ _ Hfind) as Hlt. split_and!.
    + apply (findIndex_insert _ _ _ _ _ Hfind).
      * intros x Hx. destruct (negb _); [|done]. by rewrite get_deref_marked.
      * destruct (negb _); [by rewrite get_deref_marked, strict_eq_refl|].
        by rewrite strict_eq_refl.
    + by rewrite list_lookup_insert_eq.
    + done.
    + by rewrite length_insert.
    + destruct (negb _); [|done]. by rewrite get_deref_marked.
  - exists 0. split_and!; try done.
    + cbn. by rewrite get_deref_new, strict_eq_refl.
    + by rewrite deref_insert_eq, get_insert_eq.
Qed.

(** X4. Called on [taprootStore.actions], as the repository calls them,
    [addInvoice] and [addPayment] leave the store as it is.  Called on an
    object that has the state, [addInvoice] (and [addPayment], which is the
    same code on the payments) puts the object passed in into the
    collection, where it is found under its own id: in the place of the
    record that had that id, or else at the front and marked [_isNew]. *)
Theorem added_record_is_found (this : receiver) (s : store) (r : loc) :
  get (deref (objects s) r) "id" ≠ JNaN →
  if has_state this then
    (∃ j,
       findIndex (λ x, strict_eq (get (deref (objects (addInvoice this s r)) x) "id")
                         (get (deref (objects s) r) "id"))
         (invoices (addInvoice this s r)) = Some j
       ∧ invoices (addInvoice this s r) !! j = Some r
       ∧ match findIndex (λ x, strict_eq (get (deref (objects s) x) "id")
                                 (get (deref (objects s) r) "id")) (invoices s) with
         | Some i => j = i ∧ length (invoices (addInvoice this s r)) = length (invoices s)
         | None =>
             j = 0 ∧ invoices (addInvoice this s r) = r :: invoices s
             ∧ get (deref (objects (addInvoice this s r)) r) "_isNew" = JBool true
         end)
    ∧ (∃ j,
         findIndex (λ x, strict_eq (get (deref (objects (addPayment this s r)) x) "id")
                           (get (deref (objects s) r) "id"))
           (payments (addPayment this s r)) = Some j
         ∧ payments (addPayment this s r) !! j = Some r
         ∧ match findIndex (λ x, strict_eq (get (deref (objects s) x) "id")
                                   (get (deref (objects s) r) "id")) (payments s) with
           | Some i => j = i ∧ length (payments (addPayment this s r)) = length (payments s)
           | None =>
               j = 0 ∧ payments (addPayment this s r) = r :: payments s
               ∧ get (deref (objects (addPayment this s r)) r) "_isNew" = JBool true
           end)
  else addInvoice this s r = s ∧ addPayment this s r = s.
Proof.
  intros Hid. unfold addInvoice, addPayment.
  destruct (has_state this); cbn [negb]; [|done]. split.
  - destruct (add_record_found (objects s) (invoices s) r Hid) as (j & H1 & H2 & H3).
    exists j.
    destruct (add_record (objects s) (invoices s) r) as [h' l'].
    cbn [fst snd objects invoices] in *. split_and!; [exact H1|exact H2|].
    destruct (findIndex _ (invoices s)); [by destruct H3 as (? & ? & _)|exact H3].
  - destruct (add_record_found (objects s) (payments s) r Hid) as (j & H1 & H2 & H3).
    exists j.
    destruct (add_record (objects s) (payments s) r) as [h' l'].
    cbn [fst snd objects payments] in *. split_and!; [exact H1|exact H2|].
    destruct (findIndex _ (payments s)); [by destruct H3 as (? & ? & _)|exact H3].
Qed.

(** A pending invoice in the store (1) and the same invoice as it comes
    in again, paid (2). *)
Definition incoming_store : store :=
  mkStore
    (<[1%positive := {[ "id" := JNum 1; "status" := JStr "pending" ]}]>
       (<[2%positive := {[ "id" := JNum 1; "status" := JStr "paid" ]}]> ∅))
    [] [1%positive] [].

Lemma added_record_is_found_witness :
  addInvoice Actions incoming_store 2%positive = incoming_store
  ∧ ∃ j,
      findIndex
        (λ x, strict_eq
                (get (deref (objects (addInvoice TaprootStore incoming_store 2%positive)) x)
                   "id")
                (get (deref (objects incoming_store) 2%positive) "id"))
        (invoices (addInvoice TaprootStore incoming_store 2%positive)) = Some j
      ∧ invoices (addInvoice TaprootStore incoming_store 2%positive) !! j = Some 2%positive.
Proof.
  assert (get (deref (objects incoming_store) 2%positive) "id" ≠ JNaN) as Hid
    by (vm_compute; discriminate).
  split.
  - exact (proj1 (added_record_is_found Actions incoming_store 2%positive Hid)).
  - destruct (added_record_is_found TaprootStore incoming_store 2%positive Hid)
      as ((j & H1 & H2 & _) & _).
    exists j. split; [exact H1|exact H2].
Defined.

End Store.

(** ** The live-update channel manager (websocket.manager.js) *)

Module WebSocketManager.

Inductive channel := Invoices | Payments | Balances.

(** [config]. *)
Definition reconnectDelay : Z := 5000.
Definition maxReconnectAttempts : nat := 5.

(** [taprootStore.state.websocketStatus]; [reconnectAttempts] would appear
    in it once a status that carries it had been merged. *)
Record status := mkStatus {
  st_connected : bool;
  st_reconnecting : bool;
  st_fallbackPolling : bool;
  st_reconnectAttempts : option nat
}.

(** The manager: [connections] (a slot is [true] when it holds a socket,
    [false] when it is [null]), [state], the store's copy of the status,
    and the browser's side: the reconnect timeouts that are pending (set
    and neither fired nor cleared) and how many timeouts and intervals were
    set so far.  A timer handle is a positive number, hence truthy. *)
Record manager := mkManager {
  conn_invoices : bool;
  conn_payments : bool;
  conn_balances : bool;
  connected : bool;
  reconnectAttempts : nat;
  reconnectTimeout : option nat;
  fallbackPolling : bool;
  pollingInterval : option nat;
  userId : option string;
  storeStatus : status;
  pendingTimeouts : list nat;
  timeoutsSet : nat;
  intervalsSet : nat
}.

Definition initial : manager :=
  mkManager false false false false 0 None false None None
    (mkStatus false false false None) [] 0 0.

Definition set_conn (c : channel) (b : bool) (m : manager) : manager :=
  match c with
  | Invoices => mkManager b (conn_payments m) (conn_balances m) (connected m)
      (reconnectAttempts m) (reconnectTimeout m) (fallbackPolling m) (pollingInterval m)
      (userId m) (storeStatus m) (pendingTimeouts m) (timeoutsSet m) (intervalsSet m)
  | Payments => mkManager (conn_invoices m) b (conn_balances m) (connected m)
      (reconnectAttempts m) (reconnectTimeout m) (fallbackPolling m) (pollingInterval m)
      (userId m) (storeStatus m) (pendingTimeouts m) (timeoutsSet m) (intervalsSet m)
  | Balances => mkManager (conn_invoices m) (conn_payments m) b (connected m)
      (reconnectAttempts m) (reconnectTimeout m) (fallbackPolling m) (pollingInterval m)
      (userId m) (storeStatus m) (pendingTimeouts m) (timeoutsSet m) (intervalsSet m)
  end.

Definition set_connected (b : bool) (m : manager) : manager :=
  mkManager (conn_invoices m) (conn_payments m) (conn_balances m) b
    (reconnectAttempts m) (reconnectTimeout m) (fallbackPolling m) (pollingInterval m)
    (userId m) (storeStatus m) (pendingTimeouts m) (timeoutsSet m) (intervalsSet m).

Definition set_reconnectAttempts (n : nat) (m : manager) : manager :=
  mkManager (conn_invoices m) (conn_payments m) (conn_balances m) (connected m)
    n (reconnectTimeout m) (fallbackPolling m) (pollingInterval m)
    (userId m) (storeStatus m) (pendingTimeouts m) (timeoutsSet m) (intervalsSet m).

Definition set_reconnectTimeout (t : option nat) (m : manager) : manager :=
  mkManager (conn_invoices m) (conn_payments m) (conn_balances m) (connected m)
    (reconnectAttempts m) t (fallbackPolling m) (pollingInterval m)
    (userId m) (storeStatus m) (pendingTimeouts m) (timeoutsSet m) (intervalsSet m).

Definition set_fallbackPolling (b : bool) (m : manager) : manager :=
  mkManager (conn_invoices m) (conn_payments m) (conn_balances m) (connected m)
    (reconnectAttempts m) (reconnectTimeout m) b (pollingInterval m)
    (userId m) (storeStatus m) (pendingTimeouts m) (timeoutsSet m) (intervalsSet m).

Definition set_pollingInterval (t : option nat) (m : manager) : manager :=
  mkManager (conn_invoices m) (conn_payments m) (conn_balances m) (connected m)
    (reconnectAttempts m) (reconnectTimeout m) (fallbackPolling m) t
    (userId m) (storeStatus m) (pendingTimeouts m) (timeoutsSet m) (intervalsSet m).

Definition set_userId (u : option string) (m : manager) : manager :=
  mkManager (conn_invoices m) (conn_payments m) (conn_balances m) (connected m)
    (reconnectAttempts m) (reconnectTimeout m) (fallbackPolling m) (pollingInterval m)
    u (storeStatus m) (pendingTimeouts m) (timeoutsSet m) (intervalsSet m).

Definition set_storeStatus (st : status) (m : manager) : manager :=
  mkManager (conn_invoices m) (conn_payments m) (conn_balances m) (connected m)
    (reconnectAttempts m) (reconnectTimeout m) (fallbackPolling m) (pollingInterval m)
    (userId m) st (pendingTimeouts m) (timeoutsSet m) (intervalsSet m).

(** [setTimeout]: one more pending timeout, with a fresh handle. *)
Definition setTimeout (m : manager) : nat * manager :=
  (S (timeoutsSet m),
   mkManager (conn_invoices m) (conn_payments m) (conn_balances m) (connected m)
     (reconnectAttempts m) (reconnectTimeout m) (fallbackPolling m) (pollingInterval m)
     (userId m) (storeStatus m) (S (timeoutsSet m) :: pendingTimeouts m)
     (S (timeoutsSet m)) (intervalsSet m)).

Definition clearTimeout (t : nat) (m : manager) : manager :=
  mkManager (conn_invoices m) (conn_payments m) (conn_balances m) (connected m)
    (reconnectAttempts m) (reconnectTimeout m) (fallbackPolling m) (pollingInterval m)
    (userId m) (storeStatus m) (filter (λ x, x ≠ t) (pendingTimeouts m))
    (timeoutsSet m) (intervalsSet m).

(** [setInterval]; the polling callback only refreshes assets and
    transactions and never touches the manager. *)
Definition setInterval (m : manager) : nat * manager :=
  (S (intervalsSet m),
   mkManager (conn_invoices m) (conn_payments m) (conn_balances m) (connected m)
     (reconnectAttempts m) (reconnectTimeout m) (fallbackPolling m) (pollingInterval m)
     (userId m) (storeStatus m) (pendingTimeouts m) (timeoutsSet m) (S (intervalsSet m))).

Definition conn (c : channel) (m : manager) : bool :=
  match c with
  | Invoices => conn_invoices m
  | Payments => conn_payments m
  | Balances => conn_balances m
  end.

(** [Object.values(this.connections).every(conn => conn === null)]. *)
Definition all_null (m : manager) : bool :=
  negb (conn_invoices m) && negb (conn_payments m) && negb (conn_balances m).

(** [setWebsocketStatus] of the store's actions (store.js 318-322): the
    given fields are merged into the status when [this.state] is there;
    [None] leaves a field as it is. *)
Definition setWebsocketStatus (this : Store.receiver)
    (c r f : option bool) (a : option nat) (st : status) : status :=
  if Store.has_state this then
    mkStatus (default (st_connected st) c) (default (st_reconnecting st) r)
      (default (st_fallbackPolling st) f)
      (match a with Some n => Some n | None => st_reconnectAttempts st end)
  else st.

(** [_updateStoreConnectionStatus] (344-348): the action is called as a
    member of [taprootStore.actions]. *)
Definition updateStoreConnectionStatus
    (c r f : option bool) (a : option nat) (m : manager) : manager :=
  set_storeStatus (setWebsocketStatus Store.Actions c r f a (storeStatus m)) m.

(** [_scheduleReconnect] (416-451). *)
Definition scheduleReconnect (m : manager) : manager :=
  let m :=
    match reconnectTimeout m with
    | Some t => set_reconnectTimeout None (clearTimeout t m)
    | None => m
    end in
  if maxReconnectAttempts <=? reconnectAttempts m then
    updateStoreConnectionStatus None (Some false) (Some true) None m
  else
    let m := set_reconnectAttempts (S (reconnectAttempts m)) m in
    let m := updateStoreConnectionStatus None (Some true) None
               (Some (reconnectAttempts m)) m in
    let '(t, m) := setTimeout m in
    set_reconnectTimeout (Some t) m.

(** [_startFallbackPolling] (457-476). *)
Definition startFallbackPolling (m : manager) : manager :=
  if fallbackPolling m || bool_decide (is_Some (pollingInterval m)) then m
  else
    let m := set_fallbackPolling true m in
    let m := updateStoreConnectionStatus None None (Some true) None m in
    let '(t, m) := setInterval m in
    set_pollingInterval (Some t) m.

(** [_stopFallbackPolling] (482-493). *)
Definition stopFallbackPolling (m : manager) : manager :=
  let m := set_pollingInterval None m in
  let m := set_fallbackPolling false m in
  updateStoreConnectionStatus None None (Some false) None m.

(** [_handleConnectionClose] (355-375). *)
Definition handleConnectionClose (c : channel) (m : manager) : manager :=
  let m := set_conn c false m in
  if all_null m then
    let m := set_connected false m in
    let m := updateStoreConnectionStatus (Some false)
               (Some (bool_decide (is_Some (reconnectTimeout m)))) None None m in
    let m := scheduleReconnect m in
    startFallbackPolling m
  else m.

(** [_handleConnectionError] (383-410); closing the socket that is still
    open does not touch the manager. *)
Definition handleConnectionError (c : channel) (m : manager) : manager :=
  let m := set_conn c false m in
  if all_null m then
    let m := set_connected false m in
    let m := updateStoreConnectionStatus (Some false) (Some true) None None m in
    let m := scheduleReconnect m in
    startFallbackPolling m
  else m.

(** [closeAll] (519-550). *)
Definition closeAll (m : manager) : manager :=
  let m := set_conn Invoices false (set_conn Payments false (set_conn Balances false m)) in
  let m :=
    match reconnectTimeout m with
    | Some t => set_reconnectTimeout None (clearTimeout t m)
    | None => m
    end in
  let m := stopFallbackPolling m in
  let m := set_connected false m in
  updateStoreConnectionStatus (Some false) (Some false) (Some false) None m.

(** [!userId]. *)
Definition no_user (m : manager) : bool :=
  match userId m with
  | Some u => String.eqb u ""
  | None => true
  end.

(** [_connectInvoices], [_connectPayments], [_connectBalances] (79-136):
    [throws] tells whether [new WebSocket(url)] raises, in which case the
    [catch] hands the channel to [_handleConnectionError]. *)
Definition connectChannel (c : channel) (throws : bool) (m : manager) : manager :=
  if no_user m then m
  else if throws then handleConnectionError c m
  else set_conn c true m.

(** [connect] (50-73). *)
Definition connect (throws : channel → bool) (m : manager) : manager :=
  let m := closeAll m in
  let m := set_reconnectAttempts 0 m in
  let m := connectChannel Invoices (throws Invoices) m in
  let m := connectChannel Payments (throws Payments) m in
  let m := connectChannel Balances (throws Balances) m in
  let m := set_connected true m in
  updateStoreConnectionStatus (Some true) (Some false) (Some false) None m.

(** [initialize] (34-45). *)
Definition initialize (uid : option string) (throws : channel → bool) (m : manager)
  : manager :=
  match uid with
  | Some u => if String.eqb u "" then m else connect throws (set_userId (Some u) m)
  | None => m
  end.

(** [destroy] (555-561). *)
Definition destroy (m : manager) : manager :=
  set_reconnectAttempts 0 (set_userId None (closeAll m)).

(** The callback given to [setTimeout] in [_scheduleReconnect]: it runs
    when the timeout [t] is still pending. *)
Definition reconnectCallback (t : nat) (throws : channel → bool) (m : manager)
  : manager :=
  if bool_decide (t ∈ pendingTimeouts m) then
    set_reconnectTimeout None (connect throws (clearTimeout t m))
  else m.

(** What can happen to the manager. *)
Inductive event :=
| Initialize (uid : option string) (throws : channel → bool)
| Connect (throws : channel → bool)
| CloseAll
| Destroy
| SocketClose (c : channel)
| SocketError (c : channel)
| TimeoutFires (t : nat) (throws : channel → bool).

Definition step (m : manager) (e : event) : manager :=
  match e with
  | Initialize uid throws => initialize uid throws m
  | Connect throws => connect throws m
  | CloseAll => closeAll m
  | Destroy => destroy m
  | SocketClose c => handleConnectionClose c m
  | SocketError c => handleConnectionError c m
  | TimeoutFires t throws => reconnectCallback t throws m
  end.

Definition run (m : manager) (tr : list event) : manager := foldl step m tr.

(** *** Invariants of the manager *)

(** The polling flag and the interval handle go together. *)
Definition polling_consistent (m : manager) : Prop :=
  fallbackPolling m = bool_decide (is_Some (pollingInterval m)).

(** While polling, a reconnect is pending or the budget is used up. *)
Definition retry_or_exhausted (m : manager) : Prop :=
  fallbackPolling m = true →
  pendingTimeouts m ≠ [] ∨ maxReconnectAttempts ≤ reconnectAttempts m.

Definition inv (m : manager) : Prop :=
  polling_consistent m ∧ retry_or_exhausted m
  ∧ reconnectAttempts m ≤ maxReconnectAttempts.

(** Polling only while every channel is down. *)
Definition polling_only_when_down (m : manager) : Prop :=
  fallbackPolling m = true → all_null m = true.

Lemma scheduleReconnect_frame m :
  let m' := scheduleReconnect m in
  conn_invoices m' = conn_invoices m ∧ conn_payments m' = conn_payments m
  ∧ conn_balances m' = conn_balances m ∧ connected m' = connected m
  ∧ fallbackPolling m' = fallbackPolling m ∧ pollingInterval m' = pollingInterval m
  ∧ intervalsSet m' = intervalsSet m ∧ userId m' = userId m.
Proof.
  unfold scheduleReconnect. destruct (reconnectTimeout m); cbn -[Nat.leb];
    case_match; cbn; done.
Qed.

Lemma scheduleReconnect_exhausted m :
  maxReconnectAttempts ≤ reconnectAttempts m →
  let m' := scheduleReconnect m in
  reconnectAttempts m' = reconnectAttempts m ∧ timeoutsSet m' = timeoutsSet m
  ∧ reconnectTimeout m' = None.
Proof.
  intros H. unfold scheduleReconnect.
  destruct (reconnectTimeout m) eqn:Hrt; cbn -[Nat.leb];
    (case_match eqn:Hle; [|apply Nat.leb_gt in Hle; lia]); cbn; by rewrite ?Hrt.
Qed.

Lemma scheduleReconnect_retry m :
  reconnectAttempts m < maxReconnectAttempts →
  let m' := scheduleReconnect m in
  reconnectAttempts m' = S (reconnectAttempts m) ∧ timeoutsSet m' = S (timeoutsSet m)
  ∧ reconnectTimeout m' = Some (S (timeoutsSet m))
  ∧ pendingTimeouts m' ≠ [].
Proof.
  intros H. unfold scheduleReconnect.
  destruct (reconnectTimeout m) eqn:Hrt; cbn -[Nat.leb];
    (case_match eqn:Hle; [apply Nat.leb_le in Hle; lia|]); cbn; done.
Qed.

Lemma startFallbackPolling_frame m :
  let m' := startFallbackPolling m in
  conn_invoices m' = conn_invoices m ∧ conn_payments m' = conn_payments m
  ∧ conn_balances m' = conn_balances m ∧ connected m' = connected m
  ∧ reconnectAttempts m' = reconnectAttempts m ∧ reconnectTimeout m' = reconnectTimeout m
  ∧ pendingTimeouts m' = pendingTimeouts m ∧ timeoutsSet m' = timeoutsSet m
  ∧ userId m' = userId m.
Proof. unfold startFallbackPolling. destruct (_ || _); cbn; done. Qed.

Lemma startFallbackPolling_on m :
  polling_consistent m →
  let m' := startFallbackPolling m in
  fallbackPolling m' = true ∧ polling_consistent m'
  ∧ intervalsSet m' = (if fallbackPolling m then intervalsSet m else S (intervalsSet m))
  ∧ (fallbackPolling m = true → pollingInterval m' = pollingInterval m).
Proof.
  unfold polling_consistent, startFallbackPolling. intros H.
  rewrite <- H, orb_diag. destruct (fallbackPolling m) eqn:Hfp; cbn;
    split_and!; congruence.
Qed.

(** The two handlers differ only in the value of [reconnecting] they
    report to the store, which does not take it. *)
Lemma handlers_agree c m : handleConnectionError c m = handleConnectionClose c m.
Proof.
  unfold handleConnectionError, handleConnectionClose.
  destruct (all_null _); reflexivity.
Qed.

Lemma handler_conns c m :
  let m' := handleConnectionClose c m in
  conn_invoices m' = conn_invoices (set_conn c false m)
  ∧ conn_payments m' = conn_payments (set_conn c false m)
  ∧ conn_balances m' = conn_balances (set_conn c false m).
Proof.
  unfold handleConnectionClose. destruct (all_null _); [|done].
  match goal with |- context [scheduleReconnect ?X] =>
    pose proof (scheduleReconnect_frame X) as Hs;
    pose proof (startFallbackPolling_frame (scheduleReconnect X)) as Hf
  end.
  cbv zeta in *. destruct Hf as (-> & -> & -> & _). destruct Hs as (-> & -> & -> & _).
  destruct c; done.
Qed.

Lemma handler_all_null c m :
  all_null (handleConnectionClose c m) = all_null (set_conn c false m).
Proof.
  pose proof (handler_conns c m) as (H1 & H2 & H3). unfold all_null.
  by rewrite H1, H2, H3.
Qed.

Lemma handler_up c m :
  all_null (set_conn c false m) = false →
  handleConnectionClose c m = set_conn c false m.
Proof. unfold handleConnectionClose. by intros ->. Qed.

Lemma handler_down c m :
  all_null (set_conn c false m) = true →
  polling_consistent m →
  let m' := handleConnectionClose c m in
  fallbackPolling m' = true ∧ polling_consistent m'
  ∧ intervalsSet m' = (if fallbackPolling m then intervalsSet m else S (intervalsSet m))
  ∧ (fallbackPolling m = true → pollingInterval m' = pollingInterval m)
  ∧ (pendingTimeouts m' ≠ [] ∨ maxReconnectAttempts ≤ reconnectAttempts m')
  ∧ (maxReconnectAttempts ≤ reconnectAttempts m →
     reconnectAttempts m' = reconnectAttempts m ∧ timeoutsSet m' = timeoutsSet m)
  ∧ (reconnectAttempts m ≤ maxReconnectAttempts →
     reconnectAttempts m' ≤ maxReconnectAttempts).
Proof.
  intros Hall Hpc. unfold handleConnectionClose. rewrite Hall.
  match goal with |- context [scheduleReconnect ?X] => set (x := X) end.
  assert (Hx : fallbackPolling x = fallbackPolling m
               ∧ pollingInterval x = pollingInterval m
               ∧ intervalsSet x = intervalsSet m
               ∧ reconnectAttempts x = reconnectAttempts m
               ∧ timeoutsSet x = timeoutsSet m).
  { subst x. by destruct c. }
  destruct Hx as (Hx1 & Hx2 & Hx3 & Hx4 & Hx5).
  pose proof (scheduleReconnect_frame x) as Hs. cbv zeta in Hs.
  destruct Hs as (_ & _ & _ & _ & Hs1 & Hs2 & Hs3 & _).
  pose proof (startFallbackPolling_frame (scheduleReconnect x)) as Hf. cbv zeta in Hf.
  destruct Hf as (_ & _ & _ & _ & Hf1 & _ & Hf2 & Hf3 & _).
  assert (Hpc' : polling_consistent (scheduleReconnect x)).
  { unfold polling_consistent. by rewrite Hs1, Hs2, Hx1, Hx2. }
  pose proof (startFallbackPolling_on _ Hpc') as (Ho1 & Ho2 & Ho3 & Ho4).
  cbv zeta. rewrite Hf1, Hf2, Hf3, Ho3, Hs1, Hs3, Hx1, Hx3.
  split_and!; try done.
  - intros Hfp. rewrite Ho4 by congruence. congruence.
  - destruct (decide (maxReconnectAttempts ≤ reconnectAttempts x)) as [Hle|Hgt].
    + right. by destruct (scheduleReconnect_exhausted x Hle) as (-> & _).
    + left. apply scheduleReconnect_retry. lia.
  - intros Hle. rewrite <- Hx4, <- Hx5 in *.
    by destruct (scheduleReconnect_exhausted x Hle) as (-> & -> & _).
  - intros Hle. rewrite <- Hx4 in *.
    destruct (decide (maxReconnectAttempts ≤ reconnectAttempts x)) as [Hge|Hlt].
    + destruct (scheduleReconnect_exhausted x Hge) as (-> & _). lia.
    + destruct (scheduleReconnect_retry x) as (-> & _); lia.
Qed.

Lemma handler_inv c m : inv m → inv (handleConnectionClose c m).
Proof.
  intros (Hpc & Hre & Hle).
  destruct (all_null (set_conn c false m)) eqn:Hall.
  - destruct (handler_down c m Hall Hpc) as (_ & H2 & _ & _ & H5 & _ & H7).
    split_and!; [done| |by apply H7]. by intros _.
  - rewrite (handler_up c m Hall). unfold inv, polling_consistent, retry_or_exhausted in *.
    by destruct c.
Qed.

Lemma handler_polling_only_when_down c m :
  polling_consistent m →
  polling_only_when_down m → polling_only_when_down (handleConnectionClose c m).
Proof.
  intros Hpc Hq Hfp. rewrite handler_all_null.
  destruct (all_null (set_conn c false m)) eqn:Hall; [done|].
  rewrite (handler_up c m Hall) in Hfp.
  assert (fallbackPolling m = true) as Hm by (by destruct c).
  apply Hq in Hm. unfold all_null in *. destruct c; cbn in *;
    destruct (conn_invoices m), (conn_payments m), (conn_balances m); done.
Qed.

Lemma closeAll_effect m :
  let m' := closeAll m in
  fallbackPolling m' = false ∧ pollingInterval m' = None ∧ reconnectTimeout m' = None
  ∧ all_null m' = true ∧ reconnectAttempts m' = reconnectAttempts m
  ∧ timeoutsSet m' = timeoutsSet m ∧ intervalsSet m' = intervalsSet m
  ∧ userId m' = userId m.
Proof. unfold closeAll. cbn. destruct (reconnectTimeout m) eqn:Hrt; cbn; by rewrite ?Hrt. Qed.

Lemma inv_quiet m :
  fallbackPolling m = false → pollingInterval m = None →
  reconnectAttempts m ≤ maxReconnectAttempts → inv m.
Proof.
  intros H1 H2 H3. unfold inv, polling_consistent, retry_or_exhausted.
  rewrite H1, H2. split_and!; done.
Qed.

(** [inv] reads four fields only. *)
Lemma inv_ext m m' :
  fallbackPolling m' = fallbackPolling m →
  pollingInterval m' = pollingInterval m →
  pendingTimeouts m' = pendingTimeouts m →
  reconnectAttempts m' = reconnectAttempts m →
  inv m → inv m'.
Proof.
  unfold inv, polling_consistent, retry_or_exhausted. by intros -> -> -> ->.
Qed.

(** Reading a field through a setter that does not write it.  These are
    stated once, on a variable, and used by rewriting. *)
Lemma fallbackPolling_updateStore a b c d x :
  fallbackPolling (updateStoreConnectionStatus a b c d x) = fallbackPolling x.
Proof. reflexivity. Qed.

Lemma fallbackPolling_set_connected b x :
  fallbackPolling (set_connected b x) = fallbackPolling x.
Proof. reflexivity. Qed.

Lemma fallbackPolling_set_reconnectAttempts n x :
  fallbackPolling (set_reconnectAttempts n x) = fallbackPolling x.
Proof. reflexivity. Qed.

Lemma fallbackPolling_set_reconnectTimeout t x :
  fallbackPolling (set_reconnectTimeout t x) = fallbackPolling x.
Proof. reflexivity. Qed.

Lemma fallbackPolling_set_userId u x :
  fallbackPolling (set_userId u x) = fallbackPolling x.
Proof. reflexivity. Qed.

Lemma pollingInterval_set_reconnectAttempts n x :
  pollingInterval (set_reconnectAttempts n x) = pollingInterval x.
Proof. reflexivity. Qed.

Lemma pollingInterval_set_userId u x :
  pollingInterval (set_userId u x) = pollingInterval x.
Proof. reflexivity. Qed.

Lemma reconnectAttempts_set_reconnectAttempts n x :
  reconnectAttempts (set_reconnectAttempts n x) = n.
Proof. reflexivity. Qed.

Lemma all_null_set_reconnectAttempts n x :
  all_null (set_reconnectAttempts n x) = all_null x.
Proof. reflexivity. Qed.

Lemma all_null_set_userId u x : all_null (set_userId u x) = all_null x.
Proof. reflexivity. Qed.

Lemma inv_updateStore a b c d x : inv x → inv (updateStoreConnectionStatus a b c d x).
Proof. by apply inv_ext. Qed.

Lemma inv_set_connected b x : inv x → inv (set_connected b x).
Proof. by apply inv_ext. Qed.

Lemma inv_set_reconnectTimeout t x : inv x → inv (set_reconnectTimeout t x).
Proof. by apply inv_ext. Qed.

Lemma inv_set_conn c b x : inv x → inv (set_conn c b x).
Proof. apply inv_ext; by destruct c. Qed.

Lemma fallbackPolling_set_conn c b x :
  fallbackPolling (set_conn c b x) = fallbackPolling x.
Proof. by destruct c. Qed.

Lemma connectChannel_inv c thr m : inv m → inv (connectChannel c thr m).
Proof.
  intros H. unfold connectChannel. destruct (no_user m); [exact H|].
  destruct thr.
  - rewrite handlers_agree. by apply handler_inv.
  - by apply inv_set_conn.
Qed.

Lemma reset_inv m : inv (set_reconnectAttempts 0 (closeAll m)).
Proof.
  apply inv_quiet.
  - rewrite fallbackPolling_set_reconnectAttempts. apply closeAll_effect.
  - rewrite pollingInterval_set_reconnectAttempts. apply closeAll_effect.
  - rewrite reconnectAttempts_set_reconnectAttempts. apply Nat.le_0_l.
Qed.

Lemma connect_inv throws m : inv (connect throws m).
Proof.
  unfold connect. cbv zeta.
  apply inv_updateStore, inv_set_connected.
  do 3 apply connectChannel_inv. apply reset_inv.
Qed.

Lemma connectChannel_no_throw c m :
  fallbackPolling (connectChannel c false m) = fallbackPolling m.
Proof.
  unfold connectChannel. destruct (no_user m); [reflexivity|].
  apply fallbackPolling_set_conn.
Qed.

Lemma connect_no_throw throws m :
  (∀ c, throws c = false) → fallbackPolling (connect throws m) = false.
Proof.
  intros H. unfold connect. cbv zeta.
  rewrite !H, fallbackPolling_updateStore, fallbackPolling_set_connected.
  rewrite !connectChannel_no_throw, fallbackPolling_set_reconnectAttempts.
  apply closeAll_effect.
Qed.

(** Events whose [new WebSocket] calls all succeed. *)
Definition no_throw (e : event) : Prop :=
  match e with
  | Initialize _ throws | Connect throws | TimeoutFires _ throws =>
      ∀ c, throws c = false
  | _ => True
  end.

(** Close and error events of sockets. *)
Definition socket_event (e : event) : Prop :=
  match e with
  | SocketClose _ | SocketError _ => True
  | _ => False
  end.

Lemma closeAll_inv m : inv m → inv (closeAll m).
Proof.
  intros (_ & _ & H). pose proof (closeAll_effect m) as (H1 & H2 & _ & _ & H5 & _).
  apply inv_quiet; [exact H1|exact H2|]. rewrite H5. exact H.
Qed.

Lemma destroy_inv m : inv (destroy m).
Proof.
  unfold destroy. apply inv_quiet.
  - rewrite fallbackPolling_set_reconnectAttempts, fallbackPolling_set_userId.
    apply closeAll_effect.
  - rewrite pollingInterval_set_reconnectAttempts, pollingInterval_set_userId.
    apply closeAll_effect.
  - rewrite reconnectAttempts_set_reconnectAttempts. apply Nat.le_0_l.
Qed.

Lemma reconnectCallback_inv t thr m : inv m → inv (reconnectCallback t thr m).
Proof.
  intros H. unfold reconnectCallback. case_bool_decide; [|exact H].
  apply inv_set_reconnectTimeout, connect_inv.
Qed.

Lemma initialize_inv uid thr m : inv m → inv (initialize uid thr m).
Proof.
  intros H. unfold initialize. destruct uid as [u|]; [|exact H].
  destruct (String.eqb u ""); [exact H|]. apply connect_inv.
Qed.

Lemma step_inv m e : inv m → inv (step m e).
Proof.
  intros H. destruct e as [uid thr|thr| | |c|c|t thr]; unfold step.
  - by apply initialize_inv.
  - apply connect_inv.
  - by apply closeAll_inv.
  - apply destroy_inv.
  - by apply handler_inv.
  - rewrite handlers_agree. by apply handler_inv.
  - by apply reconnectCallback_inv.
Qed.

Lemma destroy_all_null m : all_null (destroy m) = true.
Proof.
  unfold destroy. rewrite all_null_set_reconnectAttempts, all_null_set_userId.
  apply closeAll_effect.
Qed.

Lemma step_polling_only_when_down m e :
  no_throw e → inv m →
  polling_only_when_down m → polling_only_when_down (step m e).
Proof.
  intros Hnt Hinv Hq. destruct e as [uid thr|thr| | |c|c|t thr];
    unfold step, no_throw in *.
  - unfold initialize. destruct uid as [u|]; [|exact Hq].
    destruct (String.eqb u ""); [exact Hq|].
    intros Hfp. rewrite connect_no_throw in Hfp by exact Hnt. discriminate.
  - intros Hfp. rewrite connect_no_throw in Hfp by exact Hnt. discriminate.
  - intros _. apply closeAll_effect.
  - intros _. apply destroy_all_null.
  - apply handler_polling_only_when_down; [apply Hinv|exact Hq].
  - rewrite handlers_agree. apply handler_polling_only_when_down; [apply Hinv|exact Hq].
  - unfold reconnectCallback. case_bool_decide; [|exact Hq].
    intros Hfp. rewrite fallbackPolling_set_reconnectTimeout in Hfp.
    rewrite connect_no_throw in Hfp by exact Hnt. discriminate.
Qed.

Lemma initial_inv : inv initial.
Proof. apply inv_quiet; [reflexivity|reflexivity|apply Nat.le_0_l]. Qed.

Lemma run_inv m tr : inv m → inv (run m tr).
Proof.
  revert m. induction tr as [|e tr IH]; intros m H; [done|].
  cbn. by apply IH, step_inv.
Qed.

Lemma run_polling_only_when_down m tr :
  Forall no_throw tr → inv m →
  polling_only_when_down m → polling_only_when_down (run m tr).
Proof.
  revert m. induction tr as [|e tr IH]; intros m Hnt Hinv Hq; [done|].
  inversion Hnt; subst. cbn. apply IH; [done|by apply step_inv|].
  by apply step_polling_only_when_down.
Qed.

(** *** One close or error event *)

Lemma socket_step m e :
  socket_event e →
  polling_consistent m →
  let m' := step m e in
  polling_consistent m'
  ∧ (maxReconnectAttempts ≤ reconnectAttempts m →
     reconnectAttempts m' = reconnectAttempts m ∧ timeoutsSet m' = timeoutsSet m)
  ∧ (fallbackPolling m = true →
     fallbackPolling m' = true ∧ pollingInterval m' = pollingInterval m
     ∧ intervalsSet m' = intervalsSet m)
  ∧ (fallbackPolling m = false →
     intervalsSet m' = if fallbackPolling m' then S (intervalsSet m) else intervalsSet m)
  ∧ (all_null m' = true → fallbackPolling m' = true).
Proof.
  intros He Hpc.
  assert (∃ c, step m e = handleConnectionClose c m) as [c ->].
  { destruct e as [| | | |c|c|]; try done; exists c; [done|]. apply handlers_agree. }
  cbv zeta. rewrite handler_all_null.
  destruct (all_null (set_conn c false m)) eqn:Hall.
  - destruct (handler_down c m Hall Hpc) as (H1 & H2 & H3 & H4 & _ & H6 & _).
    rewrite H1, H3. split_and!; try done.
    + intros Hfp. rewrite Hfp. auto.
    + by intros ->.
  - rewrite (handler_up c m Hall).
    assert (fallbackPolling (set_conn c false m) = fallbackPolling m
            ∧ pollingInterval (set_conn c false m) = pollingInterval m
            ∧ intervalsSet (set_conn c false m) = intervalsSet m
            ∧ reconnectAttempts (set_conn c false m) = reconnectAttempts m
            ∧ timeoutsSet (set_conn c false m) = timeoutsSet m)
      as (E1 & E2 & E3 & E4 & E5) by (by destruct c).
    unfold polling_consistent. rewrite E1, E2, E3, E4, E5.
    split_and!; try done. by intros ->.
Qed.

Lemma run_cons m e tr : run m (e :: tr) = run (step m e) tr.
Proof. reflexivity. Qed.

Lemma socket_run m tr :
  Forall socket_event tr →
  polling_consistent m →
  let m' := run m tr in
  polling_consistent m'
  ∧ (maxReconnectAttempts ≤ reconnectAttempts m →
     reconnectAttempts m' = reconnectAttempts m ∧ timeoutsSet m' = timeoutsSet m)
  ∧ (fallbackPolling m = true →
     fallbackPolling m' = true ∧ pollingInterval m' = pollingInterval m
     ∧ intervalsSet m' = intervalsSet m)
  ∧ (fallbackPolling m = false →
     intervalsSet m' = if fallbackPolling m' then S (intervalsSet m) else intervalsSet m)
  ∧ (tr ≠ [] → all_null m' = true → fallbackPolling m' = true).
Proof.
  intros Htr. revert m. induction Htr as [|e tr He Htr IH]; intros m Hpc.
  { cbv zeta. unfold run. cbn [foldl]. split_and!; try done.
    by intros ->. }
  cbv zeta. rewrite run_cons.
  destruct (socket_step m e He Hpc) as (S1 & S2 & S3 & S4 & S5).
  destruct (IH (step m e) S1) as (I1 & I2 & I3 & I4 & I5).
  split_and!.
  - exact I1.
  - intros Hle. destruct (S2 Hle) as [Ea Et].
    destruct I2 as [Ea' Et']; [by rewrite Ea|]. by rewrite Ea', Et'.
  - intros Hfp. destruct (S3 Hfp) as (F1 & F2 & F3).
    destruct (I3 F1) as (G1 & G2 & G3). by rewrite G1, G2, G3.
  - intros Hfp. specialize (S4 Hfp).
    destruct (fallbackPolling (step m e)) eqn:Hfp1.
    + destruct (I3 eq_refl) as (G1 & _ & G3). by rewrite G1, G3.
    + rewrite (I4 eq_refl), S4. done.
  - intros _ Hall. destruct tr as [|e' tr'].
    + unfold run in *. cbn [foldl] in *. by apply S5.
    + by apply I5.
Qed.

(** C3 (as amended). From any reachable state of the manager and along
    any sequence of socket close/error events: once reconnectAttempts has
    reached maxReconnectAttempts, no further reconnect timeout is set and
    the counter stays where it is (only connect() or destroy() reset it).
    The fallback-polling flag does not wait for that: it is on as soon as
    an event has left all three channels down, whatever the counter says;
    once on it stays on and polling is not started again; starting from
    off, polling is started at most once. *)
Theorem reconnect_budget (tr0 tr : list event) :
  let m := run initial tr0 in
  let m' := run m tr in
  Forall socket_event tr →
  (maxReconnectAttempts ≤ reconnectAttempts m →
     reconnectAttempts m' = reconnectAttempts m ∧ timeoutsSet m' = timeoutsSet m)
  ∧ (fallbackPolling m = true →
     fallbackPolling m' = true ∧ pollingInterval m' = pollingInterval m
     ∧ intervalsSet m' = intervalsSet m)
  ∧ (fallbackPolling m = false →
     intervalsSet m' = if fallbackPolling m' then S (intervalsSet m) else intervalsSet m)
  ∧ (tr ≠ [] → all_null m' = true → fallbackPolling m' = true).
Proof.
  intros m m' Htr.
  assert (polling_consistent m) as Hpc by (apply (run_inv initial tr0), initial_inv).
  by destruct (socket_run m tr Htr Hpc) as (_ & H).
Qed.

(** [new WebSocket] never raises. *)
Definition opens : channel → bool := λ _, false.

(** All three channels close after a first successful connect. *)
Definition all_closed : list event :=
  [Initialize (Some "user") opens;
   SocketClose Invoices; SocketClose Payments; SocketClose Balances].

(** C3, counterexample: after the three channels of the first connection
    have closed, the fallback-polling flag of the manager is already true
    and the polling interval runs, although only one of the five reconnect
    attempts has been used and that reconnect is still pending. *)
Lemma polling_before_budget_exhausted :
  fallbackPolling (run initial all_closed) = true
  ∧ pollingInterval (run initial all_closed) = Some 1
  ∧ reconnectAttempts (run initial all_closed) = 1
  ∧ reconnectAttempts (run initial all_closed) < maxReconnectAttempts
  ∧ reconnectTimeout (run initial all_closed) = Some 1
  ∧ pendingTimeouts (run initial all_closed) = [1].
Proof. vm_compute. split_and!; try reflexivity. lia. Qed.

(** Five further error events while everything is down use up the
    budget. *)
Definition budget_exhausted : list event :=
  all_closed ++ replicate 5 (SocketError Balances).

(** C3, witness: with the budget used up, three more error events set no
    timeout and leave the counter at five. *)
Lemma reconnect_budget_witness :
  reconnectAttempts (run (run initial budget_exhausted) (replicate 3 (SocketError Balances)))
  = reconnectAttempts (run initial budget_exhausted)
  ∧ timeoutsSet (run (run initial budget_exhausted) (replicate 3 (SocketError Balances)))
    = timeoutsSet (run initial budget_exhausted).
Proof.
  refine (proj1 (reconnect_budget budget_exhausted
                   (replicate 3 (SocketError Balances)) _) _).
  - repeat constructor.
  - vm_compute. constructor.
Defined.

(** *** When polling is active *)

(** C4 (as amended). In every reachable state of the manager: the
    fallback-polling flag is true exactly when the polling interval is
    running; whenever it is true, a reconnect timeout is pending or the
    reconnect budget is used up; and, as long as no WebSocket constructor
    has raised, it is true only while all three channels are down.  (One
    channel down does not start polling, and polling coexists with a
    pending retry.) *)
Theorem polling_invariant (tr : list event) :
  let m := run initial tr in
  (fallbackPolling m = true ↔ is_Some (pollingInterval m))
  ∧ (fallbackPolling m = true →
     pendingTimeouts m ≠ [] ∨ maxReconnectAttempts ≤ reconnectAttempts m)
  ∧ (Forall no_throw tr → fallbackPolling m = true → all_null m = true).
Proof.
  intros m. destruct (run_inv initial tr initial_inv) as (Hpc & Hre & _).
  fold m in Hpc, Hre. split_and!.
  - unfold polling_consistent in Hpc. rewrite Hpc. apply bool_decide_eq_true.
  - exact Hre.
  - intros Hnt. apply (run_polling_only_when_down initial tr Hnt initial_inv).
    intros Hfp. discriminate Hfp.
Qed.

(** The rule the specification states: polling if and only if not all
    three channels are connected and no retry is pending. *)
Definition stated_polling_rule (m : manager) : bool :=
  Bool.eqb (fallbackPolling m)
    (negb (conn_invoices m && conn_payments m && conn_balances m)
     && bool_decide (reconnectTimeout m = None)).

(** Only the invoices channel closes after a first successful connect. *)
Definition one_closed : list event :=
  [Initialize (Some "user") opens; SocketClose Invoices].

(** C4, counterexample: with only the invoices channel down and no retry
    pending there is no polling; with all three down, polling is active
    while a retry is pending. *)
Lemma polling_rule_fails :
  (conn_invoices (run initial one_closed) = false
   ∧ reconnectTimeout (run initial one_closed) = None
   ∧ pendingTimeouts (run initial one_closed) = []
   ∧ fallbackPolling (run initial one_closed) = false
   ∧ stated_polling_rule (run initial one_closed) = false)
  ∧ (all_null (run initial all_closed) = true
     ∧ reconnectTimeout (run initial all_closed) = Some 1
     ∧ pendingTimeouts (run initial all_closed) = [1]
     ∧ fallbackPolling (run initial all_closed) = true
     ∧ stated_polling_rule (run initial all_closed) = false).
Proof. vm_compute. split_and!; reflexivity. Qed.

(** *** The reconnect timer *)

(** The pending timeouts, as the handle the manager holds tells them. *)
Definition held (m : manager) : list nat :=
  match reconnectTimeout m with
  | Some t => [t]
  | None => []
  end.

(** The only pending timeout is the one the manager holds. *)
Definition single_timer (m : manager) : Prop := pendingTimeouts m = held m.

(** Every pending timeout is the one the manager holds. *)
Definition covered (m : manager) : Prop :=
  ∀ x, x ∈ pendingTimeouts m → reconnectTimeout m = Some x.

Lemma filter_held (t : nat) : filter (λ x, x ≠ t) [t] = [].
Proof. rewrite filter_cons, filter_nil. by case_decide. Qed.

Lemma scheduleReconnect_timer x : single_timer x → single_timer (scheduleReconnect x).
Proof.
  unfold single_timer, held, scheduleReconnect.
  destruct x as [ci cp cb co ra rt fp pi u ss pt ts ivs].
  cbn -[Nat.leb]. intros ->.
  destruct rt as [t|]; cbn -[Nat.leb]; rewrite ?filter_held;
    destruct (maxReconnectAttempts <=? ra); cbn; rewrite ?filter_held; try reflexivity;
    by case_decide.
Qed.

Lemma startFallbackPolling_timer x :
  single_timer x → single_timer (startFallbackPolling x).
Proof.
  unfold single_timer, held.
  pose proof (startFallbackPolling_frame x) as (_ & _ & _ & _ & _ & H1 & H2 & _).
  cbv zeta in *. by rewrite H1, H2.
Qed.

Lemma single_timer_down c m :
  single_timer m →
  single_timer
    (updateStoreConnectionStatus (Some false)
       (Some (bool_decide (is_Some (reconnectTimeout (set_connected false
                                                        (set_conn c false m))))))
       None None (set_connected false (set_conn c false m))).
Proof. unfold single_timer, held. by destruct m, c. Qed.

Lemma single_timer_set_conn c b m : single_timer m → single_timer (set_conn c b m).
Proof. unfold single_timer, held. by destruct m, c. Qed.

Lemma handler_timer c m : single_timer m → single_timer (handleConnectionClose c m).
Proof.
  intros H. unfold handleConnectionClose. destruct (all_null (set_conn c false m)).
  - cbv zeta. apply startFallbackPolling_timer, scheduleReconnect_timer.
    by apply single_timer_down.
  - by apply single_timer_set_conn.
Qed.

Lemma timer_covered m : single_timer m → covered m.
Proof.
  unfold single_timer. intros Hp x. rewrite Hp. unfold held.
  destruct (reconnectTimeout m); [|by intros ?%elem_of_nil].
  by intros ->%list_elem_of_singleton.
Qed.

Lemma closeAll_timer m :
  covered m →
  let m' := closeAll m in
  single_timer m' ∧ connected m' = false ∧ pendingTimeouts m' = [].
Proof.
  unfold covered, single_timer, held, closeAll.
  destruct m as [ci cp cb co ra rt fp pi u ss pt ts ivs]. cbn. intros Hp.
  assert (match rt with
          | Some t => filter (λ x, x ≠ t) pt
          | None => pt
          end = []) as Hnil.
  { apply elem_of_nil_inv. intros x Hx. destruct rt as [t|].
    - apply list_elem_of_filter in Hx as [Hne Hx]. apply Hp in Hx. congruence.
    - by apply Hp in Hx. }
  destruct rt as [t|]; cbn; rewrite Hnil; done.
Qed.

Lemma connectChannel_opens c m :
  connectChannel c false m = if no_user m then m else set_conn c true m.
Proof. unfold connectChannel. by destruct (no_user m). Qed.

Lemma no_user_set_conn c b m : no_user (set_conn c b m) = no_user m.
Proof. by destruct c. Qed.

Lemma no_user_set_reconnectAttempts n m : no_user (set_reconnectAttempts n m) = no_user m.
Proof. reflexivity. Qed.

(** The three channels of [connect], when no constructor raises. *)
Lemma connectChannels_idle y :
  no_user y = true →
  connectChannel Balances false
    (connectChannel Payments false
       (connectChannel Invoices false (set_reconnectAttempts 0 y)))
  = set_reconnectAttempts 0 y.
Proof.
  intros Hu.
  rewrite (connectChannel_opens Invoices), no_user_set_reconnectAttempts, Hu.
  rewrite (connectChannel_opens Payments), no_user_set_reconnectAttempts, Hu.
  by rewrite (connectChannel_opens Balances), no_user_set_reconnectAttempts, Hu.
Qed.

Lemma connectChannels_open y :
  no_user y = false →
  connectChannel Balances false
    (connectChannel Payments false
       (connectChannel Invoices false (set_reconnectAttempts 0 y)))
  = set_conn Balances true
      (set_conn Payments true (set_conn Invoices true (set_reconnectAttempts 0 y))).
Proof.
  intros Hu.
  rewrite (connectChannel_opens Invoices), no_user_set_reconnectAttempts, Hu.
  rewrite (connectChannel_opens Payments), no_user_set_conn,
    no_user_set_reconnectAttempts, Hu.
  by rewrite (connectChannel_opens Balances), !no_user_set_conn,
    no_user_set_reconnectAttempts, Hu.
Qed.

(** What the end of [connect] leaves of a manager [y]. *)
Lemma connect_tail_idle y :
  let m' := updateStoreConnectionStatus (Some true) (Some false) (Some false) None
              (set_connected true (set_reconnectAttempts 0 y)) in
  connected m' = true
  ∧ reconnectTimeout m' = reconnectTimeout y
  ∧ pendingTimeouts m' = pendingTimeouts y
  ∧ fallbackPolling m' = fallbackPolling y
  ∧ pollingInterval m' = pollingInterval y
  ∧ reconnectAttempts m' = 0
  ∧ userId m' = userId y
  ∧ conn_invoices m' = conn_invoices y
  ∧ conn_payments m' = conn_payments y
  ∧ conn_balances m' = conn_balances y.
Proof. by destruct y. Qed.

Lemma connect_tail_open y :
  let m' := updateStoreConnectionStatus (Some true) (Some false) (Some false) None
              (set_connected true
                 (set_conn Balances true
                    (set_conn Payments true
                       (set_conn Invoices true (set_reconnectAttempts 0 y))))) in
  connected m' = true
  ∧ reconnectTimeout m' = reconnectTimeout y
  ∧ pendingTimeouts m' = pendingTimeouts y
  ∧ fallbackPolling m' = fallbackPolling y
  ∧ pollingInterval m' = pollingInterval y
  ∧ reconnectAttempts m' = 0
  ∧ userId m' = userId y
  ∧ conn_invoices m' = true
  ∧ conn_payments m' = true
  ∧ conn_balances m' = true.
Proof. by destruct y. Qed.

Lemma no_user_closeAll m : no_user (closeAll m) = no_user m.
Proof.
  destruct (closeAll_effect m) as (_ & _ & _ & _ & _ & _ & _ & Hc8).
  unfold no_user. by rewrite Hc8.
Qed.

Lemma connect_eq_idle throws m :
  (∀ c, throws c = false) → no_user m = true →
  connect throws m
  = updateStoreConnectionStatus (Some true) (Some false) (Some false) None
      (set_connected true (set_reconnectAttempts 0 (closeAll m))).
Proof.
  intros Hthr Hu. unfold connect. cbv zeta. rewrite !Hthr.
  rewrite connectChannels_idle; [done|]. by rewrite no_user_closeAll.
Qed.

Lemma connect_eq_open throws m :
  (∀ c, throws c = false) → no_user m = false →
  connect throws m
  = updateStoreConnectionStatus (Some true) (Some false) (Some false) None
      (set_connected true
         (set_conn Balances true
            (set_conn Payments true
               (set_conn Invoices true (set_reconnectAttempts 0 (closeAll m)))))).
Proof.
  intros Hthr Hu. unfold connect. cbv zeta. rewrite !Hthr.
  rewrite connectChannels_open; [done|]. by rewrite no_user_closeAll.
Qed.

Lemma closeAll_conns m :
  conn_invoices (closeAll m) = false ∧ conn_payments (closeAll m) = false
  ∧ conn_balances (closeAll m) = false.
Proof. unfold closeAll. destruct m as [ci cp cb co ra [t|] fp pi u ss pt ts ivs]; done. Qed.

Lemma connect_idle throws m :
  (∀ c, throws c = false) →
  covered m → no_user m = true →
  single_timer (connect throws m) ∧ connected (connect throws m) = true
  ∧ reconnectTimeout (connect throws m) = None
  ∧ pendingTimeouts (connect throws m) = []
  ∧ fallbackPolling (connect throws m) = false
  ∧ pollingInterval (connect throws m) = None
  ∧ reconnectAttempts (connect throws m) = 0
  ∧ userId (connect throws m) = userId m
  ∧ conn_invoices (connect throws m) = false
  ∧ conn_payments (connect throws m) = false
  ∧ conn_balances (connect throws m) = false.
Proof.
  intros Hthr Hp Hm.
  destruct (closeAll_timer m Hp) as (_ & _ & Hc5).
  destruct (closeAll_effect m) as (Hc1 & Hc2 & Hc3 & _ & _ & _ & _ & Hc8).
  destruct (closeAll_conns m) as (Hi & Hq & Hb).
  rewrite (connect_eq_idle throws m Hthr Hm).
  destruct (connect_tail_idle (closeAll m))
    as (H1 & H5 & H6 & H7 & H8 & H9 & H10 & H11 & H12 & H13).
  split_and!.
  + unfold single_timer, held. by rewrite H5, H6, Hc3, Hc5.
  + exact H1.
  + rewrite H5. exact Hc3.
  + rewrite H6. exact Hc5.
  + rewrite H7. exact Hc1.
  + rewrite H8. exact Hc2.
  + exact H9.
  + rewrite H10. exact Hc8.
  + rewrite H11. exact Hi.
  + rewrite H12. exact Hq.
  + rewrite H13. exact Hb.
Qed.

Lemma connect_open throws m :
  (∀ c, throws c = false) →
  covered m → no_user m = false →
  single_timer (connect throws m) ∧ connected (connect throws m) = true
  ∧ reconnectTimeout (connect throws m) = None
  ∧ pendingTimeouts (connect throws m) = []
  ∧ fallbackPolling (connect throws m) = false
  ∧ pollingInterval (connect throws m) = None
  ∧ reconnectAttempts (connect throws m) = 0
  ∧ userId (connect throws m) = userId m
  ∧ conn_invoices (connect throws m) = true
  ∧ conn_payments (connect throws m) = true
  ∧ conn_balances (connect throws m) = true.
Proof.
  intros Hthr Hp Hm.
  destruct (closeAll_timer m Hp) as (_ & _ & Hc5).
  destruct (closeAll_effect m) as (Hc1 & Hc2 & Hc3 & _ & _ & _ & _ & Hc8).
  rewrite (connect_eq_open throws m Hthr Hm).
  destruct (connect_tail_open (closeAll m))
    as (H1 & H5 & H6 & H7 & H8 & H9 & H10 & H11 & H12 & H13).
  split_and!.
  + unfold single_timer, held. by rewrite H5, H6, Hc3, Hc5.
  + exact H1.
  + rewrite H5. exact Hc3.
  + rewrite H6. exact Hc5.
  + rewrite H7. exact Hc1.
  + rewrite H8. exact Hc2.
  + exact H9.
  + rewrite H10. exact Hc8.
  + exact H11.
  + exact H12.
  + exact H13.
Qed.

Lemma connect_timer throws m :
  (∀ c, throws c = false) → covered m → single_timer (connect throws m).
Proof.
  intros Hthr Hp. destruct (no_user m) eqn:Hm.
  - by destruct (connect_idle throws m Hthr Hp Hm) as (H & _).
  - by destruct (connect_open throws m Hthr Hp Hm) as (H & _).
Qed.

Lemma single_timer_set_reconnectTimeout_None y :
  single_timer y → reconnectTimeout y = None →
  single_timer (set_reconnectTimeout None y).
Proof.
  unfold single_timer, held. destruct y as [ci cp cb co ra rt fp pi u ss pt ts ivs].
  cbn. by intros ? ->.
Qed.

Lemma covered_clearTimeout t y :
  (∀ x, x ∈ pendingTimeouts y → reconnectTimeout y = Some x) →
  covered (clearTimeout t y).
Proof.
  unfold covered. destruct y as [ci cp cb co ra rt fp pi u ss pt ts ivs]. cbn.
  intros H x [_ Hx]%list_elem_of_filter. by apply H.
Qed.

Lemma reconnectCallback_timer t throws m :
  (∀ c, throws c = false) → single_timer m → single_timer (reconnectCallback t throws m).
Proof.
  intros Hthr Hs. unfold reconnectCallback. case_bool_decide as Ht; [|exact Hs].
  pose proof (covered_clearTimeout t m (timer_covered m Hs)) as Hc.
  destruct (no_user (clearTimeout t m)) eqn:Hm.
  - destruct (connect_idle throws _ Hthr Hc Hm) as (H & _ & Hrt & _).
    by apply single_timer_set_reconnectTimeout_None.
  - destruct (connect_open throws _ Hthr Hc Hm) as (H & _ & Hrt & _).
    by apply single_timer_set_reconnectTimeout_None.
Qed.

Lemma destroy_quiet m :
  covered m →
  single_timer (destroy m)
  ∧ all_null (destroy m) = true ∧ connected (destroy m) = false
  ∧ reconnectTimeout (destroy m) = None ∧ pendingTimeouts (destroy m) = []
  ∧ fallbackPolling (destroy m) = false ∧ pollingInterval (destroy m) = None
  ∧ reconnectAttempts (destroy m) = 0 ∧ userId (destroy m) = None.
Proof.
  unfold covered, single_timer, held, destroy, closeAll.
  destruct m as [ci cp cb co ra rt fp pi u ss pt ts ivs]. cbn. intros Hp.
  assert (match rt with
          | Some t => filter (λ x, x ≠ t) pt
          | None => pt
          end = []) as Hnil.
  { apply elem_of_nil_inv. intros x Hx. destruct rt as [t|].
    - apply list_elem_of_filter in Hx as [Hne Hx]. apply Hp in Hx. congruence.
    - by apply Hp in Hx. }
  destruct rt as [t|]; cbn; rewrite Hnil; done.
Qed.

Lemma step_timer m e :
  no_throw e → single_timer m → single_timer (step m e).
Proof.
  intros Hnt Hs. pose proof (timer_covered m Hs) as Hc.
  destruct e as [uid thr|thr| | |c|c|t thr]; unfold step, no_throw in *.
  - unfold initialize. destruct uid as [u|]; [|exact Hs].
    destruct (String.eqb u ""); [exact Hs|]. by apply connect_timer.
  - by apply connect_timer.
  - by destruct (closeAll_timer m Hc) as (H & _).
  - by destruct (destroy_quiet m Hc) as (H & _).
  - by apply handler_timer.
  - rewrite handlers_agree. by apply handler_timer.
  - by apply reconnectCallback_timer.
Qed.

Lemma initial_timer : single_timer initial.
Proof. reflexivity. Qed.

Lemma run_timer tr :
  Forall no_throw tr → single_timer (run initial tr).
Proof.
  intros Hnt.
  assert (∀ m, single_timer m → single_timer (run m tr)) as H.
  { induction Hnt as [|e tr He Htr IH]; intros m Hs; [done|].
    rewrite run_cons. apply IH. by apply step_timer. }
  apply H, initial_timer.
Qed.

Lemma all_closed_no_throw : Forall no_throw all_closed.
Proof. repeat constructor. Qed.

(** X6. In every state reached without a constructor raising, at most one
    reconnect timeout is pending, and it is the one whose handle the
    manager holds (so that [clearTimeout] reaches it). *)
Theorem single_reconnect_timer (tr : list event) :
  Forall no_throw tr →
  length (pendingTimeouts (run initial tr)) ≤ 1
  ∧ ∀ t, t ∈ pendingTimeouts (run initial tr) ↔ reconnectTimeout (run initial tr) = Some t.
Proof.
  intros Hnt. pose proof (run_timer tr Hnt) as H4. unfold single_timer in H4.
  rewrite H4. unfold held. destruct (reconnectTimeout (run initial tr)) as [t0|].
  - split; [done|]. intros t. rewrite list_elem_of_singleton. split; congruence.
  - split; [cbn; lia|]. intros t. split; [by intros ?%elem_of_nil|done].
Qed.

Lemma single_reconnect_timer_witness :
  length (pendingTimeouts (run initial all_closed)) ≤ 1
  ∧ ∀ t, t ∈ pendingTimeouts (run initial all_closed)
         ↔ reconnectTimeout (run initial all_closed) = Some t.
Proof. exact (single_reconnect_timer all_closed all_closed_no_throw). Defined.

(** *** The store's copy of the status *)

Lemma storeStatus_updateStore a b c d x :
  storeStatus (updateStoreConnectionStatus a b c d x) = storeStatus x.
Proof. reflexivity. Qed.

Lemma storeStatus_set_conn c b x : storeStatus (set_conn c b x) = storeStatus x.
Proof. by destruct c. Qed.

Lemma storeStatus_set_connected b x : storeStatus (set_connected b x) = storeStatus x.
Proof. reflexivity. Qed.

Lemma storeStatus_set_reconnectAttempts n x :
  storeStatus (set_reconnectAttempts n x) = storeStatus x.
Proof. reflexivity. Qed.

Lemma storeStatus_set_reconnectTimeout t x :
  storeStatus (set_reconnectTimeout t x) = storeStatus x.
Proof. reflexivity. Qed.

Lemma storeStatus_set_userId u x : storeStatus (set_userId u x) = storeStatus x.
Proof. reflexivity. Qed.

Lemma storeStatus_scheduleReconnect x :
  storeStatus (scheduleReconnect x) = storeStatus x.
Proof.
  unfold scheduleReconnect. destruct (reconnectTimeout x); cbn -[Nat.leb];
    case_match; reflexivity.
Qed.

Lemma storeStatus_startFallbackPolling x :
  storeStatus (startFallbackPolling x) = storeStatus x.
Proof. unfold startFallbackPolling. by destruct (_ || _). Qed.

Lemma storeStatus_handler c x :
  storeStatus (handleConnectionClose c x) = storeStatus x.
Proof.
  unfold handleConnectionClose. destruct (all_null _).
  - cbv zeta. rewrite storeStatus_startFallbackPolling, storeStatus_scheduleReconnect.
    rewrite storeStatus_updateStore, storeStatus_set_connected.
    apply storeStatus_set_conn.
  - apply storeStatus_set_conn.
Qed.

Lemma storeStatus_closeAll x : storeStatus (closeAll x) = storeStatus x.
Proof. unfold closeAll. by destruct x as [ci cp cb co ra [t|] fp pi u ss pt ts ivs]. Qed.

Lemma storeStatus_connectChannel c b x :
  storeStatus (connectChannel c b x) = storeStatus x.
Proof.
  unfold connectChannel. destruct (no_user x); [done|]. destruct b.
  - rewrite handlers_agree. apply storeStatus_handler.
  - apply storeStatus_set_conn.
Qed.

Lemma storeStatus_connect throws x : storeStatus (connect throws x) = storeStatus x.
Proof.
  unfold connect. cbv zeta.
  rewrite storeStatus_updateStore, storeStatus_set_connected.
  rewrite !storeStatus_connectChannel, storeStatus_set_reconnectAttempts.
  apply storeStatus_closeAll.
Qed.

Lemma storeStatus_destroy x : storeStatus (destroy x) = storeStatus x.
Proof.
  unfold destroy. rewrite storeStatus_set_reconnectAttempts, storeStatus_set_userId.
  apply storeStatus_closeAll.
Qed.

Lemma storeStatus_clearTimeout t x : storeStatus (clearTimeout t x) = storeStatus x.
Proof. reflexivity. Qed.

Lemma storeStatus_reconnectCallback t throws x :
  storeStatus (reconnectCallback t throws x) = storeStatus x.
Proof.
  unfold reconnectCallback. case_bool_decide; [|reflexivity].
  rewrite storeStatus_set_reconnectTimeout, storeStatus_connect.
  apply storeStatus_clearTimeout.
Qed.

Lemma storeStatus_initialize uid throws x :
  storeStatus (initialize uid throws x) = storeStatus x.
Proof.
  unfold initialize. destruct uid as [u|]; [|done].
  destruct (String.eqb u ""); [done|]. rewrite storeStatus_connect.
  apply storeStatus_set_userId.
Qed.

Lemma storeStatus_step m e : storeStatus (step m e) = storeStatus m.
Proof.
  destruct e as [uid thr|thr| | |c|c|t thr]; unfold step.
  - apply storeStatus_initialize.
  - apply storeStatus_connect.
  - apply storeStatus_closeAll.
  - apply storeStatus_destroy.
  - apply storeStatus_handler.
  - rewrite handlers_agree. apply storeStatus_handler.
  - apply storeStatus_reconnectCallback.
Qed.

Lemma storeStatus_run m tr : storeStatus (run m tr) = storeStatus m.
Proof.
  revert m. induction tr as [|e tr IH]; intros m; [done|].
  by rewrite run_cons, IH, storeStatus_step.
Qed.

(** X5. The manager never gets its status into the store.  It reports
    through [taprootStore.actions.setWebsocketStatus], which, called as a
    member of [actions], finds no [this.state] and writes nothing: whatever
    happens to the manager, the store's websocketStatus stays as it was.
    After the first connection the manager is connected and the store
    still says it is not; after the three sockets have closed the manager
    polls and holds a reconnect, and the store shows neither. *)
Theorem store_status_never_written (m : manager) (tr : list event) :
  storeStatus (run m tr) = storeStatus m
  ∧ (connected (run initial [Initialize (Some "user") opens]) = true
     ∧ st_connected (storeStatus (run initial [Initialize (Some "user") opens])) = false)
  ∧ (fallbackPolling (run initial all_closed) = true
     ∧ is_Some (reconnectTimeout (run initial all_closed))
     ∧ st_fallbackPolling (storeStatus (run initial all_closed)) = false
     ∧ st_reconnecting (storeStatus (run initial all_closed)) = false).
Proof.
  split; [apply storeStatus_run|]. rewrite !storeStatus_run. split_and!.
  - vm_compute. reflexivity.
  - reflexivity.
  - vm_compute. reflexivity.
  - apply (bool_decide_eq_true_1 (is_Some (reconnectTimeout (run initial all_closed)))).
    vm_compute. reflexivity.
  - reflexivity.
  - reflexivity.
Qed.

(** X7. From every state reached without a constructor raising,
    [initialize] with a user id (and sockets that open) ends fully
    connected: three sockets, the attempt counter at zero, no reconnect
    pending, no polling.  The store is not told: its status is the one it
    started with, [connected] false. *)
Theorem initialize_connects (tr : list event) (u : string) (throws : channel → bool) :
  Forall no_throw tr → u ≠ "" → (∀ c, throws c = false) →
  conn_invoices (initialize (Some u) throws (run initial tr)) = true
  ∧ conn_payments (initialize (Some u) throws (run initial tr)) = true
  ∧ conn_balances (initialize (Some u) throws (run initial tr)) = true
  ∧ connected (initialize (Some u) throws (run initial tr)) = true
  ∧ reconnectAttempts (initialize (Some u) throws (run initial tr)) = 0
  ∧ pendingTimeouts (initialize (Some u) throws (run initial tr)) = []
  ∧ fallbackPolling (initialize (Some u) throws (run initial tr)) = false
  ∧ pollingInterval (initialize (Some u) throws (run initial tr)) = None
  ∧ storeStatus (initialize (Some u) throws (run initial tr)) = storeStatus initial
  ∧ st_connected (storeStatus (initialize (Some u) throws (run initial tr))) = false.
Proof.
  intros Hnt Hu Hthr.
  assert (storeStatus (initialize (Some u) throws (run initial tr)) = storeStatus initial)
    as Hst by (by rewrite storeStatus_initialize, storeStatus_run).
  rewrite Hst. unfold initialize.
  apply String.eqb_neq in Hu. rewrite Hu.
  pose proof (timer_covered _ (run_timer tr Hnt)) as Hc.
  assert (covered (set_userId (Some u) (run initial tr))) as Hc'.
  { revert Hc. unfold covered. by destruct (run initial tr). }
  assert (no_user (set_userId (Some u) (run initial tr)) = false) as Hm.
  { unfold no_user. destruct (run initial tr). exact Hu. }
  destruct (connect_open throws _ Hthr Hc' Hm)
    as (_ & H2 & _ & H4 & H5 & H6 & H7 & _ & H9 & H10 & H11).
  split_and!; [exact H9|exact H10|exact H11|exact H2|exact H7|exact H4|exact H5|exact H6|
               reflexivity|reflexivity].
Qed.

Lemma initialize_connects_witness :
  conn_invoices (initialize (Some "user") opens (run initial all_closed)) = true
  ∧ conn_payments (initialize (Some "user") opens (run initial all_closed)) = true
  ∧ conn_balances (initialize (Some "user") opens (run initial all_closed)) = true
  ∧ connected (initialize (Some "user") opens (run initial all_closed)) = true
  ∧ reconnectAttempts (initialize (Some "user") opens (run initial all_closed)) = 0
  ∧ pendingTimeouts (initialize (Some "user") opens (run initial all_closed)) = []
  ∧ fallbackPolling (initialize (Some "user") opens (run initial all_closed)) = false
  ∧ pollingInterval (initialize (Some "user") opens (run initial all_closed)) = None
  ∧ storeStatus (initialize (Some "user") opens (run initial all_closed))
    = storeStatus initial
  ∧ st_connected (storeStatus (initialize (Some "user") opens (run initial all_closed)))
    = false.
Proof.
  apply (initialize_connects all_closed "user" opens all_closed_no_throw); [done|].
  intros c. reflexivity.
Defined.

(** X8. From every state reached without a constructor raising, [destroy]
    leaves nothing running in the manager: no socket, no pending
    reconnect, no polling, the counter at zero, no user.  The store's
    status is not written by it either: it is the one the store started
    with. *)
Theorem destroy_stops_everything (tr : list event) :
  Forall no_throw tr →
  all_null (destroy (run initial tr)) = true
  ∧ connected (destroy (run initial tr)) = false
  ∧ reconnectTimeout (destroy (run initial tr)) = None
  ∧ pendingTimeouts (destroy (run initial tr)) = []
  ∧ fallbackPolling (destroy (run initial tr)) = false
  ∧ pollingInterval (destroy (run initial tr)) = None
  ∧ reconnectAttempts (destroy (run initial tr)) = 0
  ∧ userId (destroy (run initial tr)) = None
  ∧ storeStatus (destroy (run initial tr)) = storeStatus initial.
Proof.
  intros Hnt. pose proof (timer_covered _ (run_timer tr Hnt)) as Hc.
  destruct (destroy_quiet _ Hc) as (_ & H1 & H2 & H3 & H4 & H5 & H6 & H7 & H8).
  split_and!;
    [exact H1|exact H2|exact H3|exact H4|exact H5|exact H6|exact H7|exact H8|].
  by rewrite storeStatus_destroy, storeStatus_run.
Qed.

Lemma destroy_stops_everything_witness :
  all_null (destroy (run initial all_closed)) = true
  ∧ connected (destroy (run initial all_closed)) = false
  ∧ reconnectTimeout (destroy (run initial all_closed)) = None
  ∧ pendingTimeouts (destroy (run initial all_closed)) = []
  ∧ fallbackPolling (destroy (run initial all_closed)) = false
  ∧ pollingInterval (destroy (run initial all_closed)) = None
  ∧ reconnectAttempts (destroy (run initial all_closed)) = 0
  ∧ userId (destroy (run initial all_closed)) = None
  ∧ storeStatus (destroy (run initial all_closed)) = storeStatus initial.
Proof. exact (destroy_stops_everything all_closed all_closed_no_throw). Defined.

Lemma manager_ext m m' :
  conn_invoices m = conn_invoices m' → conn_payments m = conn_payments m' →
  conn_balances m = conn_balances m' → connected m = connected m' →
  reconnectAttempts m = reconnectAttempts m' → reconnectTimeout m = reconnectTimeout m' →
  fallbackPolling m = fallbackPolling m' → pollingInterval m = pollingInterval m' →
  userId m = userId m' → storeStatus m = storeStatus m' →
  pendingTimeouts m = pendingTimeouts m' → timeoutsSet m = timeoutsSet m' →
  intervalsSet m = intervalsSet m' → m = m'.
Proof. destruct m, m'. cbn. by intros -> -> -> -> -> -> -> -> -> -> -> -> ->. Qed.

Lemma destroy_eq m :
  covered m →
  destroy m
  = mkManager false false false false 0 None false None None
      (storeStatus m) [] (timeoutsSet m) (intervalsSet m).
Proof.
  unfold covered, destroy, closeAll.
  destruct m as [ci cp cb co ra rt fp pi u ss pt ts ivs]. cbn. intros Hp.
  assert (match rt with
          | Some t => filter (λ x, x ≠ t) pt
          | None => pt
          end = []) as Hnil.
  { apply elem_of_nil_inv. intros x Hx. destruct rt as [t|].
    - apply list_elem_of_filter in Hx as [Hne Hx]. apply Hp in Hx. congruence.
    - by apply Hp in Hx. }
  apply manager_ext; destruct rt as [t|]; cbn; rewrite ?Hnil; reflexivity.
Qed.

(** A close event that reaches a destroyed manager. *)
Lemma close_after_destroy c (st : status) (ts ivs : nat) :
  handleConnectionClose c
    (mkManager false false false false 0 None false None None st [] ts ivs)
  = mkManager false false false false 1 (Some (S ts)) true (Some (S ivs)) None
      st [S ts] (S ts) (S ivs).
Proof. apply manager_ext; by destruct c. Qed.

Lemma connectChannel_no_user c b m : no_user m = true → connectChannel c b m = m.
Proof. unfold connectChannel. by intros ->. Qed.

(** The reconnect of a manager without user. *)
Lemma reconnect_without_user throws (st : status) (ts ivs : nat) :
  reconnectCallback (S ts) throws
    (mkManager false false false false 1 (Some (S ts)) true (Some (S ivs)) None
       st [S ts] (S ts) (S ivs))
  = mkManager false false false true 0 None false None None st [] (S ts) (S ivs).
Proof.
  unfold reconnectCallback. rewrite bool_decide_eq_true_2 by (cbn; left).
  unfold connect. cbv zeta. rewrite !connectChannel_no_user by (by unfold closeAll).
  apply manager_ext; cbn; try reflexivity.
  case_decide; [done|]. by rewrite filter_nil.
Qed.

(** X9. After [destroy], in a state reached without a constructor
    raising, the close event of a socket still reaches its handler: it
    starts polling and schedules a reconnect; when that timeout fires,
    [connect] opens no socket (there is no user any more) and yet marks
    the manager as connected, with polling stopped and nothing pending.
    The store's status is the one the store started with all along. *)
Theorem late_close_after_destroy (tr : list event) (c : channel)
    (throws : channel → bool) :
  Forall no_throw tr →
  ∃ t,
    reconnectTimeout (handleConnectionClose c (destroy (run initial tr))) = Some t
    ∧ pendingTimeouts (handleConnectionClose c (destroy (run initial tr))) = [t]
    ∧ fallbackPolling (handleConnectionClose c (destroy (run initial tr))) = true
    ∧ all_null (reconnectCallback t throws
                  (handleConnectionClose c (destroy (run initial tr)))) = true
    ∧ connected (reconnectCallback t throws
                   (handleConnectionClose c (destroy (run initial tr)))) = true
    ∧ storeStatus (reconnectCallback t throws
                     (handleConnectionClose c (destroy (run initial tr))))
      = storeStatus initial
    ∧ fallbackPolling (reconnectCallback t throws
                         (handleConnectionClose c (destroy (run initial tr)))) = false
    ∧ pendingTimeouts (reconnectCallback t throws
                         (handleConnectionClose c (destroy (run initial tr)))) = [].
Proof.
  intros Hnt. pose proof (timer_covered _ (run_timer tr Hnt)) as Hc.
  rewrite (destroy_eq _ Hc), close_after_destroy.
  exists (S (timeoutsSet (run initial tr))).
  rewrite reconnect_without_user. split_and!; try reflexivity.
  cbn [storeStatus]. apply storeStatus_run.
Qed.

Lemma late_close_after_destroy_witness :
  ∃ t,
    reconnectTimeout (handleConnectionClose Invoices (destroy (run initial all_closed)))
    = Some t
    ∧ pendingTimeouts (handleConnectionClose Invoices (destroy (run initial all_closed)))
      = [t]
    ∧ fallbackPolling (handleConnectionClose Invoices (destroy (run initial all_closed)))
      = true
    ∧ all_null (reconnectCallback t opens
                  (handleConnectionClose Invoices (destroy (run initial all_closed))))
      = true
    ∧ connected (reconnectCallback t opens
                   (handleConnectionClose Invoices (destroy (run initial all_closed))))
      = true
    ∧ storeStatus (reconnectCallback t opens
                     (handleConnectionClose Invoices (destroy (run initial all_closed))))
      = storeStatus initial
    ∧ fallbackPolling (reconnectCallback t opens
                         (handleConnectionClose Invoices
                            (destroy (run initial all_closed)))) = false
    ∧ pendingTimeouts (reconnectCallback t opens
                         (handleConnectionClose Invoices
                            (destroy (run initial all_closed)))) = [].
Proof. exact (late_close_after_destroy all_closed Invoices opens all_closed_no_throw). Defined.

End WebSocketManager.

(** ** Receivable ceiling of an invoice (asset.service.js, index.js) *)

Module AssetService.

(** [getMaxReceivableAmount] (asset.service.js 174-186). *)
Definition getMaxReceivableAmount (rt : runtime) (h : heap) (asset : jsval) : number :=
  if negb (truthy asset) || negb (truthy (prop h asset "channel_info")) then Int 0
  else
    let channelInfo := prop h asset "channel_info" in
    if negb (strict_eq (prop h channelInfo "capacity") JUndefined)
       && negb (strict_eq (prop h channelInfo "local_balance") JUndefined)
    then
      let totalCapacity := parseFloat rt (prop h channelInfo "capacity") in
      let localBalance := parseFloat rt (prop h channelInfo "local_balance") in
      num_sub totalCapacity localBalance
    else Int 0.

(** The computed properties of the page (index.js 140-151);
    [selectedAsset] is [invoiceDialog.selectedAsset] and [amount] is
    [invoiceDialog.form.amount]. *)
Definition maxInvoiceAmount (rt : runtime) (h : heap) (selectedAsset : jsval) : number :=
  if negb (truthy selectedAsset) then Int 0
  else getMaxReceivableAmount rt h selectedAsset.

Definition isInvoiceAmountValid (rt : runtime) (h : heap)
    (selectedAsset amount : jsval) : bool :=
  if negb (truthy selectedAsset) then false
  else num_le (parseFloat rt amount) (maxInvoiceAmount rt h selectedAsset).

(** C6. For an asset whose channel_info has a numeric capacity and
    local_balance, safe integers whose difference is one too, a requested
    amount (a safe integer) is valid exactly when it is at most capacity
    minus local_balance; with capacity 1000 and local_balance 400, 600 is
    valid and 601 is not. *)
Theorem invoice_ceiling (rt : runtime) (h : heap) (a c : loc) (capacity local_balance : Z) :
  get (deref h a) "channel_info" = JRef c →
  get (deref h c) "capacity" = JNum capacity →
  get (deref h c) "local_balance" = JNum local_balance →
  safe_integer capacity →
  safe_integer local_balance →
  safe_integer (capacity - local_balance) →
  (∀ amount : Z,
     safe_integer amount →
     isInvoiceAmountValid rt h (JRef a) (JNum amount)
     = bool_decide (amount ≤ capacity - local_balance)%Z)
  ∧ (capacity = 1000%Z → local_balance = 400%Z →
     isInvoiceAmountValid rt h (JRef a) (JNum 600) = true
     ∧ isInvoiceAmountValid rt h (JRef a) (JNum 601) = false).
Proof.
  intros Hci Hcap Hlb _ _ _.
  assert (Hgen : ∀ amount : Z,
    isInvoiceAmountValid rt h (JRef a) (JNum amount)
    = bool_decide (amount ≤ capacity - local_balance)%Z).
  { intros amount.
    unfold isInvoiceAmountValid, maxInvoiceAmount, getMaxReceivableAmount, prop.
    cbn [truthy negb orb]. rewrite Hci. cbn [truthy negb orb].
    rewrite Hcap, Hlb. unfold strict_eq.
    rewrite !(bool_decide_eq_false_2 (JNum _ = JUndefined)) by done. cbn.
    destruct (Z.leb_spec amount (capacity - local_balance)).
    - symmetry. by apply bool_decide_eq_true_2.
    - symmetry. apply bool_decide_eq_false_2. lia. }
  split; [intros amount _; apply Hgen|].
  intros -> ->. rewrite !Hgen. done.
Qed.

(** An asset with a channel of capacity 1000 and local balance 400. *)
Definition ceiling_heap : heap :=
  <[1%positive := {[ "asset_id" := JStr "usdt"; "channel_info" := JRef 2%positive ]}]>
    (<[2%positive := {[ "capacity" := JNum 1000; "local_balance" := JNum 400 ]}]> ∅).

(** A runtime that reads no string and no object as a number, prints
    every object as a plain one and every large number as 1e+21, knows of
    no inherited member, and leaves the case of letters and the instants
    as they are. *)
Definition bare_runtime : runtime :=
  mkRuntime (λ _, NaN) (λ _, NaN) (λ _, NaN) (λ _, NaN) (λ _, "[object Object]")
    (λ _, "1e+21") (λ _, JUndefined) (λ s, s) (λ _, NaN) (λ t, t) (λ t, t)
    (λ v, v) (λ v, v) "0" "".

(** C6, witness: capacity 1000 and local balance 400. *)
Lemma invoice_ceiling_witness :
  isInvoiceAmountValid bare_runtime ceiling_heap (JRef 1%positive) (JNum 600) = true
  ∧ isInvoiceAmountValid bare_runtime ceiling_heap (JRef 1%positive) (JNum 601) = false.
Proof.
  refine (proj2 (invoice_ceiling bare_runtime ceiling_heap 1%positive 2%positive 1000 400
                   _ _ _ _ _ _) eq_refl eq_refl);
    [vm_compute; reflexivity ..| | |]; unfold safe_integer; lia.
Defined.

End AssetService.

(** ** DataUtils: combining, filtering and exporting transactions *)

Module DataUtils.

(** [mapTransaction] (218-268).  [formatDate] and [getRelativeTime] catch
    whatever Quasar raises, so the [try] around them never fails. *)
Definition mapTransaction (rt : runtime) (h : heap) (transaction type : jsval)
  : heap * jsval :=
  if negb (truthy transaction) then (h, JNull)
  else
    let '(h, mapped) := alloc h (own_props h transaction) in
    let h := write h (JRef mapped) "type"
               (js_or type (if truthy (prop h transaction "payment_hash")
                            then JStr "invoice" else JStr "payment")) in
    let h := write h (JRef mapped) "direction"
               (if strict_eq (prop h (JRef mapped) "type") (JStr "invoice")
                then JStr "incoming" else JStr "outgoing") in
    let h :=
      if truthy (prop h (JRef mapped) "created_at") then
        let h := write h (JRef mapped) "date"
                   (formatDate rt (prop h (JRef mapped) "created_at")) in
        write h (JRef mapped) "timeFrom"
          (getRelativeTime rt (prop h (JRef mapped) "created_at"))
      else h in
    let h :=
      if truthy (prop h (JRef mapped) "description")
         && negb (truthy (prop h (JRef mapped) "memo"))
      then write h (JRef mapped) "memo" (prop h (JRef mapped) "description")
      else h in
    let h :=
      if truthy (prop h (JRef mapped) "extra") then
        write h (JRef mapped) "extra" (prop h (JRef mapped) "extra")
      else
        let '(h, extra) := alloc h ∅ in
        write h (JRef mapped) "extra" (JRef extra) in
    let h :=
      if strict_eq (prop h (JRef mapped) "type") (JStr "invoice") then
        let extra := prop h (JRef mapped) "extra" in
        let h :=
          if negb (truthy (prop h extra "asset_amount"))
             && truthy (prop h (JRef mapped) "asset_amount")
          then write h extra "asset_amount" (prop h (JRef mapped) "asset_amount")
          else h in
        if negb (truthy (prop h extra "asset_id"))
           && truthy (prop h (JRef mapped) "asset_id")
        then write h extra "asset_id" (prop h (JRef mapped) "asset_id")
        else h
      else
        let '(h', extra) :=
          alloc h {[ "asset_amount" := prop h (JRef mapped) "asset_amount";
                     "asset_id" := prop h (JRef mapped) "asset_id";
                     "fee_sats" := prop h (JRef mapped) "fee_sats" ]} in
        write h' (JRef mapped) "extra" (JRef extra) in
    (h, JRef mapped).

(** [array.map(x => this.mapTransaction(x, type))], threading the heap. *)
Fixpoint mapTransactions (rt : runtime) (h : heap) (l : list jsval) (type : jsval)
  : heap * list jsval :=
  match l with
  | [] => (h, [])
  | x :: l' =>
      let '(h, y) := mapTransaction rt h x type in
      let '(h, ys) := mapTransactions rt h l' type in
      (h, y :: ys)
  end.

(** The comparator of the sort (207-209):
    [new Date(b.created_at) - new Date(a.created_at)]. *)
Definition byRecency (rt : runtime) (h : heap) (a b : jsval) : result number :=
  bind (read h b "created_at") (λ cb,
  bind (read h a "created_at") (λ ca,
  Ok (num_sub (date_time rt cb) (date_time rt ca)))).

(** [Array.prototype.sort] as a stable insertion sort: [a] stays before
    [b] unless the comparator is positive ([NaN] counts as zero).  With a
    comparator that is not consistent the order is left to the
    implementation; this is one. *)
Fixpoint insertR {A} (cmp : A → A → result number) (x : A) (l : list A)
  : result (list A) :=
  match l with
  | [] => Ok [x]
  | y :: l' =>
      bind (cmp x y) (λ c,
        if num_lt (Int 0) c then bind (insertR cmp x l') (λ r, Ok (y :: r))
        else Ok (x :: l))
  end.

Definition sortR {A} (cmp : A → A → result number) (l : list A) : result (list A) :=
  foldr (λ x acc, bind acc (insertR cmp x)) (Ok []) l.

Definition safeArray (a : array_arg) : list jsval :=
  match a with
  | Array items => items
  | NotArray _ => []
  end.

(** [combineTransactions] (197-210). *)
Definition combineTransactions (rt : runtime) (h : heap) (invoices payments : array_arg)
  : result (heap * list jsval) :=
  let safeInvoices := safeArray invoices in
  let safePayments := safeArray payments in
  let '(h, mappedInvoices) := mapTransactions rt h safeInvoices (JStr "invoice") in
  let '(h, mappedPayments) := mapTransactions rt h safePayments (JStr "payment") in
  bind (sortR (byRecency rt h) (mappedInvoices ++ mappedPayments)) (λ sorted,
  Ok (h, sorted)).

(** [date.setHours(0, 0, 0, 0)] and [date.setHours(23, 59, 59, 999)]. *)
Definition toStartOfDay (rt : runtime) (d : number) : number :=
  match d with
  | Int t => Int (startOfDay rt t)
  | NaN => NaN
  end.

Definition toEndOfDay (rt : runtime) (d : number) : number :=
  match d with
  | Int t => Int (endOfDay rt t)
  | NaN => NaN
  end.

(** The four predicates handed to [filter] (285-324). *)
Definition directionIs (h : heap) (filters tx : jsval) : result bool :=
  bind (read h tx "direction") (λ d, Ok (strict_eq d (prop h filters "direction"))).

Definition statusIs (h : heap) (filters tx : jsval) : result bool :=
  bind (read h tx "status") (λ d, Ok (strict_eq d (prop h filters "status"))).

Definition textMatches (rt : runtime) (h : heap) (searchLower : string) (tx : jsval)
  : result bool :=
  bind (read h tx "memo") (λ memo,
  bind (if truthy memo then lower_includes rt memo searchLower else Ok false) (λ left,
  if left then Ok true
  else
    bind (read h tx "payment_hash") (λ hash,
    if truthy hash then lower_includes rt hash searchLower else Ok false))).

Definition inDateRange (rt : runtime) (h : heap) (dateRange tx : jsval) : result bool :=
  bind (read h tx "created_at") (λ created_at,
  let txDate := date_time rt created_at in
  let matches := true in
  let matches :=
    if truthy (prop h dateRange "from") then
      let fromDate := toStartOfDay rt (date_time rt (prop h dateRange "from")) in
      if num_lt txDate fromDate then false else matches
    else matches in
  let matches :=
    if matches && truthy (prop h dateRange "to") then
      let toDate := toEndOfDay rt (date_time rt (prop h dateRange "to")) in
      if num_gt txDate toDate then false else matches
    else matches in
  Ok matches).

(** [filterTransactions] (278-327).  [filters], [searchData] and
    [dateRange] may be missing. *)
Definition filterTransactions (rt : runtime) (h : heap) (transactions : array_arg)
    (filters searchData dateRange : jsval) : result (list jsval) :=
  match transactions with
  | NotArray _ => Ok []
  | Array items =>
      let result := Ok items in
      let result :=
        if truthy (opt_prop h filters "direction")
           && negb (strict_eq (prop h filters "direction") (JStr "all"))
        then bind result (filterR (directionIs h filters))
        else result in
      let result :=
        if truthy (opt_prop h filters "status")
           && negb (strict_eq (prop h filters "status") (JStr "all"))
        then bind result (filterR (statusIs h filters))
        else result in
      let result :=
        if truthy (opt_prop h searchData "searchText") then
          match prop h searchData "searchText" with
          | JStr searchText =>
              bind result (filterR (textMatches rt h (toLowerCase rt searchText)))
          | _ => TypeError
          end
        else result in
      let result :=
        if truthy dateRange
           && (truthy (prop h dateRange "from") || truthy (prop h dateRange "to"))
        then bind result (filterR (inDateRange rt h dateRange))
        else result in
      result
  end.

(** *** What [filterTransactions] keeps *)

(** A filter on [direction] or [status] is active when the field is set
    and is not ['all']. *)
Definition active (h : heap) (filters : jsval) (k : string) : bool :=
  truthy (prop h filters k) && negb (strict_eq (prop h filters k) (JStr "all")).

Definition dateActive (h : heap) (dateRange : jsval) : bool :=
  truthy dateRange
  && (truthy (prop h dateRange "from") || truthy (prop h dateRange "to")).

Definition sameField (h : heap) (k : string) (filters tx : jsval) : bool :=
  strict_eq (prop h tx k) (prop h filters k).

(** A non-empty string field that contains the search text, both in
    lower case. *)
Definition contains (rt : runtime) (v : jsval) (searchText : string) : bool :=
  match v with
  | JStr s => negb (String.eqb s "")
              && includes (toLowerCase rt s) (toLowerCase rt searchText)
  | _ => false
  end.

Definition mentions (rt : runtime) (h : heap) (searchData tx : jsval) : bool :=
  match prop h searchData "searchText" with
  | JStr searchText =>
      contains rt (prop h tx "memo") searchText
      || contains rt (prop h tx "payment_hash") searchText
  | _ => false
  end.

(** The first instant of the from-day and the last of the to-day, when the
    bound is given and is a valid date. *)
Definition lowerBound (rt : runtime) (h : heap) (dateRange : jsval) : option Z :=
  if truthy (prop h dateRange "from") then
    match date_time rt (prop h dateRange "from") with
    | Int f => Some (startOfDay rt f)
    | NaN => None
    end
  else None.

Definition upperBound (rt : runtime) (h : heap) (dateRange : jsval) : option Z :=
  if truthy (prop h dateRange "to") then
    match date_time rt (prop h dateRange "to") with
    | Int f => Some (endOfDay rt f)
    | NaN => None
    end
  else None.

(** [created_at] is not outside the day range: within it when it is a valid
    date, and anything when it is not. *)
Definition notOutside (rt : runtime) (h : heap) (dateRange tx : jsval) : bool :=
  match date_time rt (prop h tx "created_at") with
  | NaN => true
  | Int t =>
      match lowerBound rt h dateRange with Some lo => (lo <=? t)%Z | None => true end
      && match upperBound rt h dateRange with Some hi => (t <=? hi)%Z | None => true end
  end.

(** [created_at] is a valid date within the day range. *)
Definition withinDays (rt : runtime) (h : heap) (dateRange tx : jsval) : bool :=
  match date_time rt (prop h tx "created_at") with
  | NaN => false
  | Int t =>
      match lowerBound rt h dateRange with Some lo => (lo <=? t)%Z | None => true end
      && match upperBound rt h dateRange with Some hi => (t <=? hi)%Z | None => true end
  end.

(** The conjunction of the active filters. *)
Definition keeps (rt : runtime) (h : heap) (filters searchData dateRange tx : jsval)
  : bool :=
  (if active h filters "direction" then sameField h "direction" filters tx else true)
  && (if active h filters "status" then sameField h "status" filters tx else true)
  && (if truthy (prop h searchData "searchText") then mentions rt h searchData tx else true)
  && (if dateActive h dateRange then notOutside rt h dateRange tx else true).

(** A field that is a string or falsy; a transaction that is an object (or
    any value but null and undefined) with such memo and payment hash. *)
Definition isText (v : jsval) : bool :=
  negb (truthy v) || match v with JStr _ => true | _ => false end.

Definition wellTyped (h : heap) (tx : jsval) : bool :=
  match tx with JUndefined | JNull => false | _ => true end
  && isText (prop h tx "memo") && isText (prop h tx "payment_hash").

Lemma filterR_Ok {A} (p : A → result bool) (q : A → bool) l :
  (∀ x, x ∈ l → p x = Ok (q x)) → filterR p l = Ok (List.filter q l).
Proof.
  induction l as [|x l IH]; intros H; [done|]. cbn [filterR List.filter].
  rewrite (H x) by left. cbn [bind]. rewrite IH; [done|].
  intros y Hy. apply H. by right.
Qed.

Lemma filter_all {A} (l : list A) : List.filter (λ _, true) l = l.
Proof. induction l as [|x l IH]; [done|]. cbn. by rewrite IH. Qed.

Lemma filter_filter {A} (q1 q2 : A → bool) l :
  List.filter q2 (List.filter q1 l) = List.filter (λ x, q1 x && q2 x) l.
Proof.
  induction l as [|x l IH]; [done|]. cbn. destruct (q1 x); cbn; [|done].
  destruct (q2 x); by rewrite IH.
Qed.

Lemma forallb_filter {A} (p q : A → bool) l :
  forallb p l = true → forallb p (List.filter q l) = true.
Proof.
  rewrite !forallb_forall. intros H x Hx. apply filter_In in Hx as [Hx _].
  by apply H.
Qed.

Lemma read_wellTyped h tx k : wellTyped h tx = true → read h tx k = Ok (prop h tx k).
Proof. unfold wellTyped. by destruct tx. Qed.

Lemma lower_includes_text rt v needle searchText :
  isText v = true → truthy v = true → needle = toLowerCase rt searchText →
  lower_includes rt v needle = Ok (contains rt v searchText).
Proof.
  intros Ht Hv ->. unfold isText in Ht. rewrite Hv in Ht. cbn [negb orb] in Ht.
  destruct v; try done. cbn in *. by rewrite Hv.
Qed.

Lemma contains_falsy rt v searchText : truthy v = false → contains rt v searchText = false.
Proof. destruct v; try done. cbn. by intros ->. Qed.

Lemma textMatches_wellTyped rt h searchData searchText tx :
  prop h searchData "searchText" = JStr searchText →
  wellTyped h tx = true →
  textMatches rt h (toLowerCase rt searchText) tx = Ok (mentions rt h searchData tx).
Proof.
  intros Hs Hw. unfold textMatches, mentions. rewrite Hs, !(read_wellTyped _ _ _ Hw).
  cbn [bind]. unfold wellTyped in Hw.
  apply andb_prop in Hw as [Hw Hhash]. apply andb_prop in Hw as [_ Hmemo].
  destruct (truthy (prop h tx "memo")) eqn:Hm.
  - rewrite (lower_includes_text _ _ _ searchText Hmemo Hm eq_refl). cbn [bind].
    destruct (contains rt (prop h tx "memo") searchText); [done|]. cbn [orb].
    destruct (truthy (prop h tx "payment_hash")) eqn:Hp.
    + by rewrite (lower_includes_text _ _ _ searchText Hhash Hp eq_refl).
    + by rewrite contains_falsy.
  - cbn [bind]. rewrite (contains_falsy _ _ _ Hm). cbn [orb].
    destruct (truthy (prop h tx "payment_hash")) eqn:Hp.
    + by rewrite (lower_includes_text _ _ _ searchText Hhash Hp eq_refl).
    + by rewrite contains_falsy.
Qed.

Lemma inDateRange_wellTyped rt h dateRange tx :
  wellTyped h tx = true →
  inDateRange rt h dateRange tx = Ok (notOutside rt h dateRange tx).
Proof.
  intros Hw. unfold inDateRange, notOutside, lowerBound, upperBound.
  rewrite (read_wellTyped _ _ _ Hw). cbn [bind]. f_equal.
  destruct (date_time rt (prop h tx "created_at")) as [|t];
    destruct (truthy (prop h dateRange "from"));
    destruct (truthy (prop h dateRange "to"));
    destruct (date_time rt (prop h dateRange "from")) as [|f];
    destruct (date_time rt (prop h dateRange "to")) as [|g];
    cbn; try done; rewrite ?Z.leb_antisym;
    repeat (case_match; cbn; try done).
Qed.

Lemma stage_Ok {A} (act : bool) (p : A → result bool) (q : A → bool) (l : list A) :
  (∀ x, x ∈ l → p x = Ok (q x)) →
  (if act then bind (Ok l) (filterR p) else Ok l)
  = Ok (List.filter (λ x, if act then q x else true) l).
Proof.
  intros H. destruct act; cbn [bind].
  - by apply filterR_Ok.
  - by rewrite filter_all.
Qed.

Lemma wellTyped_elem h l x : forallb (wellTyped h) l = true → x ∈ l → wellTyped h x = true.
Proof.
  rewrite forallb_forall. intros H Hx. by apply H, list_elem_of_In.
Qed.

(** C5 (as amended). For every list of transactions none of which is null
    or undefined and whose memo and payment hash are strings or falsy, and
    a search text that is a string or falsy, filterTransactions returns, in
    order, exactly the transactions that satisfy the conjunction of the
    active filters: direction equal, status equal, memo or payment hash
    containing the search text without regard to case, and created_at not
    outside the day range from 00:00:00.000 of the from-day to 23:59:59.999
    of the to-day -- which for a valid created_at is the inclusive range,
    while a transaction whose created_at is not a valid date passes.
    Filtering the result again with the same filters returns it unchanged.
    With no active filter the input list comes back unchanged, whatever it
    holds. *)
Theorem filter_conjunction (rt : runtime) (h : heap) (items : list jsval)
    (filters searchData dateRange : jsval) :
  (forallb (wellTyped h) items = true →
   isText (prop h searchData "searchText") = true →
   filterTransactions rt h (Array items) filters searchData dateRange
   = Ok (List.filter (keeps rt h filters searchData dateRange) items))
  ∧ (forallb (wellTyped h) items = true →
     isText (prop h searchData "searchText") = true →
     ∃ kept,
       filterTransactions rt h (Array items) filters searchData dateRange = Ok kept
       ∧ filterTransactions rt h (Array kept) filters searchData dateRange = Ok kept)
  ∧ (active h filters "direction" = false →
     active h filters "status" = false →
     truthy (prop h searchData "searchText") = false →
     dateActive h dateRange = false →
     filterTransactions rt h (Array items) filters searchData dateRange = Ok items)
  ∧ (∀ tx t, date_time rt (prop h tx "created_at") = Int t →
     notOutside rt h dateRange tx = withinDays rt h dateRange tx).
Proof.
  assert (∀ items,
            forallb (wellTyped h) items = true →
            isText (prop h searchData "searchText") = true →
            filterTransactions rt h (Array items) filters searchData dateRange
            = Ok (List.filter (keeps rt h filters searchData dateRange) items)) as Hmain.
  { clear items. intros items Hty Hst. unfold filterTransactions, opt_prop. cbv zeta.
    fold (active h filters "direction") (active h filters "status")
         (dateActive h dateRange).
    rewrite (stage_Ok _ _ (sameField h "direction" filters)); cycle 1.
    { intros x Hx. unfold directionIs.
      by rewrite (read_wellTyped _ _ _ (wellTyped_elem _ _ _ Hty Hx)). }
    set (l1 := List.filter _ items).
    assert (forallb (wellTyped h) l1 = true) as Hty1 by (by apply forallb_filter).
    rewrite (stage_Ok _ _ (sameField h "status" filters)); cycle 1.
    { intros x Hx. unfold statusIs.
      by rewrite (read_wellTyped _ _ _ (wellTyped_elem _ _ _ Hty1 Hx)). }
    set (l2 := List.filter _ l1).
    assert (forallb (wellTyped h) l2 = true) as Hty2 by (by apply forallb_filter).
    set (l3 := List.filter
                 (λ x, if truthy (prop h searchData "searchText")
                       then mentions rt h searchData x else true) l2).
    assert (forallb (wellTyped h) l3 = true) as Hty3 by (by apply forallb_filter).
    assert ((if truthy (prop h searchData "searchText")
             then match prop h searchData "searchText" with
                  | JStr searchText =>
                      bind (Ok l2) (filterR (textMatches rt h (toLowerCase rt searchText)))
                  | _ => TypeError
                  end
             else Ok l2) = Ok l3) as ->.
    { subst l3. destruct (truthy (prop h searchData "searchText")) eqn:Ht.
      - unfold isText in Hst. rewrite Ht in Hst. cbn [negb orb] in Hst.
        destruct (prop h searchData "searchText") as [| | | | |searchText|] eqn:Hs;
          try done.
        cbn [bind]. apply filterR_Ok. intros x Hx.
        apply (textMatches_wellTyped _ _ _ _ _ Hs), (wellTyped_elem _ _ _ Hty2 Hx).
      - by rewrite filter_all. }
    rewrite (stage_Ok _ _ (notOutside rt h dateRange)); cycle 1.
    { intros x Hx. apply inDateRange_wellTyped, (wellTyped_elem _ _ _ Hty3 Hx). }
    f_equal. subst l3 l2 l1. rewrite !filter_filter.
    apply filter_ext. intros tx. unfold keeps. by rewrite !andb_assoc. }
  split_and!.
  - apply Hmain.
  - intros Hty Hst. eexists. split; [by apply Hmain|].
    rewrite Hmain; [|by apply forallb_filter|exact Hst].
    f_equal. rewrite filter_filter. apply filter_ext. intros tx. apply andb_diag.
  - intros H1 H2 H3 H4. unfold filterTransactions, opt_prop. cbv zeta.
    fold (active h filters "direction") (active h filters "status")
         (dateActive h dateRange).
    by rewrite H1, H2, H3, H4.
  - intros tx t Ht. unfold notOutside, withinDays. by rewrite Ht.
Qed.

(** Numbers are read as time values; days are those of the UTC calendar. *)
Definition utc_runtime : runtime :=
  mkRuntime (λ _, NaN) (λ _, NaN) (λ _, NaN) (λ _, NaN) (λ _, "[object Object]")
    (λ _, "1e+21") (λ _, JUndefined) (λ s, s)
    (λ v, match v with JNum n => Int n | _ => NaN end)
    (λ t, t - t `mod` 86400000)%Z
    (λ t, t - t `mod` 86400000 + 86399999)%Z
    (λ v, v) (λ v, v) "0" "".

(** An incoming transaction without [created_at], a second one of 15
    January 2024, and the range of January 2024 (as time values). *)
Definition undated_heap : heap :=
  <[1%positive := {[ "direction" := JStr "incoming"; "memo" := JStr "coffee" ]}]>
    (<[2%positive := {[ "direction" := JStr "incoming"; "memo" := JStr "coffee";
                        "created_at" := JNum 1705312800000 ]}]>
       (<[3%positive := {[ "from" := JNum 1704067200000; "to" := JNum 1706659200000 ]}]>
          (<[4%positive := {[ "direction" := JStr "incoming" ]}]>
             (<[5%positive := {[ "searchText" := JStr "coffee" ]}]> ∅)))).

(** C5, counterexample: with the date range of January 2024 active, the
    transaction that has no [created_at] at all is returned, although it
    is not within the range. *)
Lemma undated_transaction_passes :
  filterTransactions utc_runtime undated_heap (Array [JRef 1%positive; JRef 2%positive])
    (JRef 4%positive) (JRef 5%positive) (JRef 3%positive)
  = Ok [JRef 1%positive; JRef 2%positive]
  ∧ dateActive undated_heap (JRef 3%positive) = true
  ∧ date_time utc_runtime (prop undated_heap (JRef 1%positive) "created_at") = NaN
  ∧ withinDays utc_runtime undated_heap (JRef 3%positive) (JRef 1%positive) = false
  ∧ withinDays utc_runtime undated_heap (JRef 3%positive) (JRef 2%positive) = true.
Proof. vm_compute. split_and!; reflexivity. Qed.

(** C5, witness: the same call, characterised by the theorem. *)
Lemma filter_conjunction_witness :
  filterTransactions utc_runtime undated_heap (Array [JRef 1%positive; JRef 2%positive])
    (JRef 4%positive) (JRef 5%positive) (JRef 3%positive)
  = Ok (List.filter
          (keeps utc_runtime undated_heap (JRef 4%positive) (JRef 5%positive)
             (JRef 3%positive))
          [JRef 1%positive; JRef 2%positive]).
Proof.
  refine (proj1 (filter_conjunction utc_runtime undated_heap _ _ _ _) _ _);
    vm_compute; reflexivity.
Defined.

(** C10. filterTransactions answers the empty list for any transactions
    argument that is not an array (null and undefined included), and
    combineTransactions treats an invoices or payments argument that is not
    an array as the empty list: nothing is raised for such arguments. *)
Theorem not_an_array (rt : runtime) (h : heap) (v : jsval) :
  (∀ filters searchData dateRange,
     filterTransactions rt h (NotArray v) filters searchData dateRange = Ok [])
  ∧ (∀ payments,
       combineTransactions rt h (NotArray v) payments
       = combineTransactions rt h (Array []) payments)
  ∧ (∀ invoices,
       combineTransactions rt h invoices (NotArray v)
       = combineTransactions rt h invoices (Array []))
  ∧ (∀ w, combineTransactions rt h (NotArray v) (NotArray w) = Ok (h, [])).
Proof. split_and!; done. Qed.

(** *** A mapped payment is made of new objects *)

(** [mapTransaction(t, 'payment')] leaves every object of the heap as it
    was: the copy [m] and its [extra] [e] are new. *)
Lemma mapTransaction_payment rt h t (Q : heap * jsval → Prop) :
  truthy t = true →
  (∀ h' m e, extends h h' → h !! m = None → h !! e = None →
             prop h' (JRef m) "extra" = JRef e → Q (h', JRef m)) →
  Q (mapTransaction rt h t (JStr "payment")).
Proof.
  intros Ht HQ. cbv delta [mapTransaction] beta. rewrite Ht. cbv delta [alloc negb] beta iota.
  set (m := fresh (dom h)).
  assert (h !! m = None) as Hm by (apply extends_fresh, extends_refl).
  pose (I := λ hx : heap, extends h hx ∧ prop hx (JRef m) "type" = JStr "payment").
  assert (∀ hx k x, I hx → k ≠ "type" → I (write hx (JRef m) k x)) as Hstep.
  { intros hx k x [He Hty] Hk. split.
    - apply extends_write; [done|]. by intros ? [= <-].
    - by rewrite prop_write_ne. }
  step I.
  { split.
    - apply extends_write; [|by intros ? [= <-]]. apply extends_insert; [apply extends_refl|done].
    - by rewrite prop_write_eq. }
  intros h1 H1. step I. { by apply Hstep. }
  clear h1 H1. intros h1 H1. step I.
  { case_match; [|done]. cbv zeta. by do 2 (apply Hstep; [|done]). }
  clear h1 H1. intros h1 H1. step I.
  { case_match; [|done]. by apply Hstep. }
  clear h1 H1. intros h1 H1. step I.
  { case_match; [by apply Hstep|]. unfold alloc. cbv beta iota.
    destruct H1 as [He Hty]. split.
    - apply extends_write; [|by intros ? [= <-]]. by apply extends_alloc.
    - rewrite prop_write_ne by done. simpl. rewrite deref_insert_ne; [done|].
      intros Heq. simpl in Hty. unfold deref in Hty. 
      destruct (h1 !! m) eqn:Hh1; [|done].
      assert (is_Some (h1 !! m)) as Hs by eauto.
      by apply fresh_not_allocated in Hs. }
  clear h1 H1. intros h1 [He Hty].
  step (λ hx : heap, extends h hx ∧ h !! fresh (dom h1) = None
                     ∧ prop hx (JRef m) "extra" = JRef (fresh (dom h1))).
  { rewrite Hty. change (strict_eq (JStr "payment") (JStr "invoice")) with false.
    cbv beta iota. unfold alloc. cbv beta iota. split_and!.
    - apply extends_write; [|by intros ? [= <-]]. by apply extends_alloc.
    - by apply extends_fresh.
    - by rewrite prop_write_eq. }
  intros h2 (He2 & Hf & Hx). by apply (HQ h2 m (fresh (dom h1))).
Qed.

(** *** The combined list is ordered, most recent first *)

(** The time value of a transaction's [created_at]. *)
Definition stamp (rt : runtime) (h : heap) (v : jsval) : number :=
  date_time rt (prop h v "created_at").

(** A transaction that is an object of the heap with a valid date. *)
Definition dated (rt : runtime) (h : heap) (v : jsval) : bool :=
  match v with
  | JRef l => bool_decide (is_Some (h !! l)) && bool_decide (stamp rt h v ≠ NaN)
  | _ => false
  end.

(** [b] is not more recent than [a]. *)
Definition notAfter (rt : runtime) (h : heap) (a b : jsval) : Prop :=
  num_le (stamp rt h b) (stamp rt h a) = true.

(** From [h] to [h'] no object is lost and none changes its [created_at]. *)
Definition keepsDates (h h' : heap) : Prop :=
  ∀ l, is_Some (h !! l) →
       is_Some (h' !! l) ∧ get (deref h' l) "created_at" = get (deref h l) "created_at".

Lemma keepsDates_refl h : keepsDates h h.
Proof. by intros l Hl. Qed.

Lemma keepsDates_trans h1 h2 h3 : keepsDates h1 h2 → keepsDates h2 h3 → keepsDates h1 h3.
Proof.
  intros H12 H23 l Hl. destruct (H12 l Hl) as [Hl2 E2].
  destruct (H23 l Hl2) as [Hl3 E3]. split; [done|congruence].
Qed.

Lemma keepsDates_write h v k x : k ≠ "created_at" → keepsDates h (write h v k x).
Proof.
  intros Hk l Hl. destruct v as [| | | | | |l0]; try done. simpl.
  destruct (decide (l0 = l)) as [->|Hne].
  - rewrite lookup_insert_eq, deref_insert_eq, get_insert_ne by done. eauto.
  - by rewrite lookup_insert_ne, deref_insert_ne.
Qed.

Lemma keepsDates_alloc h o : keepsDates h (alloc h o).1.
Proof.
  intros l Hl. simpl. pose proof (fresh_not_allocated h l Hl) as Hne.
  by rewrite lookup_insert_ne, deref_insert_ne.
Qed.

Lemma dated_keepsDates rt h h' v :
  keepsDates h h' → dated rt h v = true →
  dated rt h' v = true ∧ stamp rt h' v = stamp rt h v.
Proof.
  intros Hk Hv. destruct v as [| | | | | |l]; try done. unfold dated, stamp in *. simpl in *.
  apply andb_true_iff in Hv as [Hl Hs].
  apply bool_decide_eq_true_1 in Hl. apply bool_decide_eq_true_1 in Hs.
  destruct (Hk l Hl) as [Hl' E]. rewrite E. split; [|done].
  apply andb_true_iff. split; by apply bool_decide_eq_true_2.
Qed.

(** The copy [mapTransaction] makes of an object has the [created_at] of
    the original, whatever the type asked for. *)
Lemma mapTransaction_dates rt h l type (Q : heap * jsval → Prop) :
  (∀ h' m, keepsDates h h' → is_Some (h' !! m) →
           get (deref h' m) "created_at" = get (deref h l) "created_at" →
           Q (h', JRef m)) →
  Q (mapTransaction rt h (JRef l) type).
Proof.
  intros HQ. cbv delta [mapTransaction] beta.
  change (truthy (JRef l)) with true. cbv delta [alloc negb] beta iota.
  set (m := fresh (dom h)).
  pose (I := λ hx : heap, keepsDates h hx ∧ is_Some (hx !! m)
                          ∧ get (deref hx m) "created_at" = get (deref h l) "created_at").
  assert (∀ hx hy, I hx → keepsDates hx hy → I hy) as Hstep.
  { intros hx hy (Hk & Hm & Hd) Hxy. destruct (Hxy m Hm) as [Hm' E]. split_and!.
    - by eapply keepsDates_trans.
    - done.
    - congruence. }
  assert (∀ hx v k x, I hx → k ≠ "created_at" → I (write hx v k x)) as Hw.
  { intros hx v k x Hx Hk. eapply Hstep; [done|]. by apply keepsDates_write. }
  assert (∀ hx o v k x, I hx → k ≠ "created_at" →
            I (write (<[fresh (dom hx) := o]> hx) v k x)) as Ha.
  { intros hx o v k x Hx Hk. apply Hw; [|done].
    eapply Hstep; [done|]. apply (keepsDates_alloc hx o). }
  step I.
  { apply Hw; [|done]. split_and!.
    - apply (keepsDates_alloc h).
    - rewrite lookup_insert_eq. eauto.
    - by rewrite deref_insert_eq. }
  intros h1 H1. step I. { by apply Hw. }
  clear h1 H1. intros h1 H1. step I.
  { case_match; [|done]. cbv zeta. by do 2 (apply Hw; [|done]). }
  clear h1 H1. intros h1 H1. step I.
  { case_match; [|done]. by apply Hw. }
  clear h1 H1. intros h1 H1. step I.
  { case_match; [by apply Hw|]. unfold alloc. cbv beta iota. by apply Ha. }
  clear h1 H1. intros h1 H1. step I.
  { case_match.
    - step (λ _ : jsval, True); [done|]. intros extra _. step I.
      { case_match; [by apply Hw|done]. }
      intros h2 H2. case_match; [by apply Hw|done].
    - unfold alloc. cbv beta iota. by apply Ha. }
  intros h2 (Hk & Hm & Hd). by apply HQ.
Qed.

Lemma mapTransactions_dates rt type l :
  ∀ h, Forall (λ v, dated rt h v = true) l →
  ∃ h' ys, mapTransactions rt h l type = (h', ys)
    ∧ keepsDates h h'
    ∧ Forall2 (λ x y, dated rt h' y = true ∧ stamp rt h' y = stamp rt h' x) l ys.
Proof.
  induction l as [|x l IH]; intros h Hl.
  { exists h, []. split_and!; [done|apply keepsDates_refl|constructor]. }
  apply Forall_cons in Hl as [Hx Hl]. cbn [mapTransactions].
  destruct x as [| | | | | |lx]; try done.
  apply mapTransaction_dates. intros h1 m Hk Hm Hd.
  assert (Forall (λ v, dated rt h1 v = true) l) as Hl1.
  { eapply Forall_impl; [exact Hl|]. intros v Hv. by apply (dated_keepsDates rt h h1). }
  destruct (IH h1 Hl1) as (h2 & ys & E & Hk2 & Hys). rewrite E.
  exists h2, (JRef m :: ys). split_and!; [done|by eapply keepsDates_trans|].
  destruct (dated_keepsDates rt h h1 _ Hk Hx) as [Hx1 Ex1].
  destruct (dated_keepsDates rt h1 h2 _ Hk2 Hx1) as [Hx2 Ex2].
  assert (stamp rt h1 (JRef m) = stamp rt h (JRef lx)) as Hs1.
  { unfold stamp. simpl. by rewrite Hd. }
  assert (dated rt h1 (JRef m) = true) as Hm1.
  { unfold dated. apply andb_true_iff. split; apply bool_decide_eq_true_2; [done|].
    rewrite Hs1. unfold dated in Hx. apply andb_true_iff in Hx as [_ Hx].
    by apply bool_decide_eq_true_1 in Hx. }
  destruct (dated_keepsDates rt h1 h2 _ Hk2 Hm1) as [Hm2 Em2].
  constructor; [|exact Hys]. split; [done|congruence].
Qed.

(** **** The sort *)

Lemma dated_stamp rt h v : dated rt h v = true → ∃ z, stamp rt h v = Int z.
Proof.
  destruct v as [| | | | | |l]; try done. unfold dated. intros H.
  apply andb_true_iff in H as [_ H]. apply bool_decide_eq_true_1 in H.
  destruct (stamp rt h (JRef l)) as [|z]; [done|eauto].
Qed.

Lemma byRecency_dated rt h a b :
  dated rt h a = true → dated rt h b = true →
  byRecency rt h a b = Ok (num_sub (stamp rt h b) (stamp rt h a)).
Proof. by destruct a, b. Qed.

Lemma notAfter_trans rt h a b c : notAfter rt h a b → notAfter rt h b c → notAfter rt h a c.
Proof.
  unfold notAfter. destruct (stamp rt h a), (stamp rt h b), (stamp rt h c); try done.
  simpl. lia.
Qed.

Lemma insertR_recency rt h x l :
  dated rt h x = true → Forall (λ v, dated rt h v = true) l →
  StronglySorted (notAfter rt h) l →
  ∃ r, insertR (byRecency rt h) x l = Ok r
       ∧ r ≡ₚ x :: l
       ∧ StronglySorted (notAfter rt h) r.
Proof.
  intros Hx. induction l as [|y l IH]; intros Hl Hs.
  { exists [x]. split_and!; [done|done|]. repeat constructor. }
  apply Forall_cons in Hl as [Hy Hl]. apply StronglySorted_inv in Hs as [Hs Hyl].
  cbn [insertR]. rewrite byRecency_dated by done. cbn [bind].
  destruct (dated_stamp _ _ _ Hx) as [zx Ex], (dated_stamp _ _ _ Hy) as [zy Ey].
  rewrite Ex, Ey. cbn [num_sub num_lt]. destruct (Z.ltb_spec 0 (zy - zx)) as [Hlt|Hge].
  - destruct (IH Hl Hs) as (r & -> & Hp & Hr). cbn [bind].
    exists (y :: r). split_and!; [done| |].
    + rewrite Hp. apply Permutation_swap.
    + constructor; [done|]. rewrite Hp. constructor; [|done].
      unfold notAfter. rewrite Ex, Ey. simpl. lia.
  - exists (x :: y :: l). split_and!; [done|done|].
    assert (notAfter rt h x y) as Hxy by (unfold notAfter; rewrite Ex, Ey; simpl; lia).
    constructor; [by constructor|]. constructor; [done|].
    eapply Forall_impl; [exact Hyl|]. intros z Hz. by eapply notAfter_trans.
Qed.

Lemma sortR_recency rt h l :
  Forall (λ v, dated rt h v = true) l →
  ∃ r, sortR (byRecency rt h) l = Ok r
       ∧ r ≡ₚ l
       ∧ StronglySorted (notAfter rt h) r.
Proof.
  induction l as [|x l IH]; intros Hl.
  { exists []. split_and!; [done|done|constructor]. }
  apply Forall_cons in Hl as [Hx Hl]. destruct (IH Hl) as (r & E & Hp & Hs).
  unfold sortR in *. cbn [foldr]. rewrite E. cbn [bind].
  destruct (insertR_recency rt h x r Hx) as (r' & E' & Hp' & Hs'); [by rewrite Hp|done|].
  exists r'. split_and!; [done| |done]. by rewrite Hp', Hp.
Qed.

(** X10. For arrays of objects with valid dates, [combineTransactions] returns
    one copy per invoice and per payment, each with the date of its
    original, ordered so that no element is more recent than one before
    it; the originals keep their dates. *)
Theorem combined_most_recent_first (rt : runtime) (h : heap) (invoices payments : list jsval) :
  Forall (λ v, dated rt h v = true) (invoices ++ payments) →
  ∃ h' sorted,
    combineTransactions rt h (Array invoices) (Array payments) = Ok (h', sorted)
    ∧ stamp rt h' <$> sorted ≡ₚ stamp rt h <$> (invoices ++ payments)
    ∧ StronglySorted (notAfter rt h') sorted
    ∧ Forall (λ v, stamp rt h' v = stamp rt h v) (invoices ++ payments).
Proof.
  intros Hall. pose proof Hall as Hall0. apply Forall_app in Hall as [Hi Hp].
  unfold combineTransactions. cbn [safeArray].
  destruct (mapTransactions_dates rt (JStr "invoice") invoices h Hi)
    as (h1 & is1 & -> & Hk1 & Hf1).
  assert (Forall (λ v, dated rt h1 v = true) payments) as Hp1.
  { eapply Forall_impl; [exact Hp|]. intros v Hv. by apply (dated_keepsDates rt h h1). }
  destruct (mapTransactions_dates rt (JStr "payment") payments h1 Hp1)
    as (h2 & ps & -> & Hk2 & Hf2).
  assert (Forall2 (λ x y, dated rt h2 y = true ∧ stamp rt h2 y = stamp rt h x)
            (invoices ++ payments) (is1 ++ ps)) as Hf.
  { apply Forall2_app.
    - clear Hall0. induction Hf1 as [|x y l l' [Hy Ey] _ IH]; [constructor|].
      apply Forall_cons in Hi as [Hx Hi]. constructor; [|by apply IH].
      destruct (dated_keepsDates rt h h1 _ Hk1 Hx) as [_ Ex1].
      destruct (dated_keepsDates rt h1 h2 _ Hk2 Hy) as [Hy2 Ey2].
      split; [done|congruence].
    - clear Hall0 Hp1. induction Hf2 as [|x y l l' [Hy Ey] _ IH]; [constructor|].
      apply Forall_cons in Hp as [Hx Hp]. constructor; [|by apply IH].
      destruct (dated_keepsDates rt h h1 _ Hk1 Hx) as [Hx1 Ex1].
      destruct (dated_keepsDates rt h1 h2 _ Hk2 Hx1) as [_ Ex2].
      split; [done|congruence]. }
  destruct (sortR_recency rt h2 (is1 ++ ps)) as (r & -> & Hperm & Hs).
  { eapply Forall2_Forall_r; [exact Hf|]. apply Forall_forall. by intros x _ y [? _]. }
  cbn [bind]. exists h2, r. split_and!; [done| |done|].
  - rewrite Hperm. clear -Hf.
    induction Hf as [|x y l l' [_ E] _ IH]; [done|]. cbn. by rewrite E, IH.
  - eapply Forall_impl; [exact Hall0|]. intros v Hv.
    by apply (dated_keepsDates rt h h2); [eapply keepsDates_trans|].
Qed.

(** An invoice of 1 January 2024 and a payment of 15 January 2024 (as time
    values). *)
Definition january_heap : heap :=
  <[1%positive := {[ "payment_hash" := JStr "ab12"; "created_at" := JNum 1704067200000 ]}]>
    (<[2%positive := {[ "asset_amount" := JNum 5; "created_at" := JNum 1705312800000 ]}]> ∅).

Lemma combined_most_recent_first_witness :
  ∃ h' sorted,
    combineTransactions utc_runtime january_heap
      (Array [JRef 1%positive]) (Array [JRef 2%positive]) = Ok (h', sorted)
    ∧ stamp utc_runtime h' <$> sorted
      ≡ₚ stamp utc_runtime january_heap <$> ([JRef 1%positive] ++ [JRef 2%positive])
    ∧ StronglySorted (notAfter utc_runtime h') sorted
    ∧ Forall (λ v, stamp utc_runtime h' v = stamp utc_runtime january_heap v)
        ([JRef 1%positive] ++ [JRef 2%positive]).
Proof.
  apply (combined_most_recent_first utc_runtime january_heap
           [JRef 1%positive] [JRef 2%positive]).
  repeat constructor.
Defined.

Local Open Scope Z_scope.

(** *** Shortening a text *)

(** [text.substring(start, end)] for integers: both are clamped to the
    text, and swapped when they come in the wrong order. *)
Definition jsSubstring (text : string) (a b : Z) : string :=
  let len := Z.of_nat (String.length text) in
  let a := Z.max 0 (Z.min a len) in
  let b := Z.max 0 (Z.min b len) in
  String.substring (Z.to_nat (Z.min a b)) (Z.to_nat (Z.max a b - Z.min a b)) text.

(** [shortify] (60-66) on a text, with an integer [maxLength] (10 when it
    is left out). *)
Definition shortify (text : string) (maxLength : option Z) : string :=
  let maxLength := default 10 maxLength in
  if String.eqb text "" then ""
  else if Z.of_nat (String.length text) <=? maxLength then text
  else
    let half := maxLength `div` 2 in
    String.append (jsSubstring text 0 half)
      (String.append "..."
         (jsSubstring text (Z.of_nat (String.length text) - half)
            (Z.of_nat (String.length text)))).

Lemma substring_all (s : string) : String.substring 0 (String.length s) s = s.
Proof. induction s as [|c s IH]; [done|]. cbn. by rewrite IH. Qed.

Lemma append_cons (c : Ascii.ascii) (s t : string) :
  String.append (String c s) t = String c (String.append s t).
Proof. reflexivity. Qed.

Lemma substring_suffix_split (n m : nat) (s : string) :
  (n + m ≤ String.length s)%nat →
  String.substring n (String.length s - n) s
  = String.append (String.substring n m s)
      (String.substring (n + m) (String.length s - n - m) s).
Proof.
  revert n m. induction s as [|c s IH]; intros n m H.
  - cbn in H. assert (n = 0 ∧ m = 0)%nat as [-> ->] by lia. done.
  - destruct n as [|n].
    + destruct m as [|m]; [done|]. simpl in *. rewrite append_cons. f_equal.
      specialize (IH 0%nat m). rewrite !Nat.sub_0_r in IH. simpl in IH. apply IH. lia.
    + simpl in *. apply IH. lia.
Qed.

Lemma substring_split (n : nat) (s : string) :
  (n ≤ String.length s)%nat →
  s = String.append (String.substring 0 n s) (String.substring n (String.length s - n) s).
Proof.
  intros Hn. pose proof (substring_suffix_split 0 n s Hn) as H.
  rewrite !Nat.sub_0_r, substring_all in H. exact H.
Qed.

Lemma substring_length (n m : nat) (s : string) :
  (n + m ≤ String.length s)%nat → String.length (String.substring n m s) = m.
Proof.
  revert n m. induction s as [|c s IH]; intros n m H.
  - cbn in H. assert (n = 0 ∧ m = 0)%nat as [-> ->] by lia. done.
  - destruct n as [|n]; cbn in *.
    + destruct m as [|m]; [done|]. cbn. f_equal. apply (IH 0%nat). lia.
    + apply IH. lia.
Qed.

Lemma append_length (s t : string) :
  String.length (String.append s t) = (String.length s + String.length t)%nat.
Proof. induction s as [|c s IH]; [done|]. rewrite append_cons. cbn. by rewrite IH. Qed.

(** X11. A text that fits is returned as it is.  A longer text is cut down to
    its first and its last [⌊maxLength / 2⌋] characters around three
    dots, so that the result has [2⌊maxLength / 2⌋ + 3] characters: three
    more than an even [maxLength], and possibly more than the text had. *)
Theorem shortify_shape (text : string) (maxLength : option Z) :
  0 ≤ default 10 maxLength →
  (Z.of_nat (String.length text) ≤ default 10 maxLength → shortify text maxLength = text)
  ∧ (default 10 maxLength < Z.of_nat (String.length text) →
     ∃ first middle last,
       shortify text maxLength = String.append first (String.append "..." last)
       ∧ text = String.append first (String.append middle last)
       ∧ Z.of_nat (String.length first) = default 10 maxLength `div` 2
       ∧ Z.of_nat (String.length last) = default 10 maxLength `div` 2
       ∧ Z.of_nat (String.length (shortify text maxLength))
         = 2 * (default 10 maxLength `div` 2) + 3).
Proof.
  intros Hmax. unfold shortify. cbv zeta.
  set (m := default 10 maxLength) in *. set (len := String.length text).
  split.
  - intros Hle. destruct (String.eqb_spec text "") as [->|_]; [done|].
    destruct (Z.leb_spec (Z.of_nat len) m); [done|lia].
  - intros Hlt. destruct (String.eqb_spec text "") as [->|_]; [cbn in *; lia|].
    destruct (Z.leb_spec (Z.of_nat len) m); [lia|].
    set (half := m `div` 2).
    assert (0 ≤ half ∧ 2 * half ≤ m) as [Hh0 Hh2].
    { unfold half. split; [by apply Z.div_pos|]. apply Z.mul_div_le. lia. }
    set (k := Z.to_nat half).
    assert (jsSubstring text 0 half = String.substring 0 k text) as ->.
    { unfold jsSubstring. cbv zeta. fold len.
      rewrite (Z.min_l 0 (Z.of_nat len)), (Z.max_l 0 0) by lia.
      rewrite (Z.min_l half), (Z.max_r 0 half) by lia.
      rewrite (Z.min_l 0 half), (Z.max_r 0 half) by lia.
      by rewrite Z.sub_0_r. }
    assert (jsSubstring text (Z.of_nat len - half) (Z.of_nat len)
            = String.substring (len - k) k text) as ->.
    { unfold jsSubstring. cbv zeta. fold len.
      rewrite (Z.min_l (Z.of_nat len - half)) by lia.
      rewrite (Z.max_r 0 (Z.of_nat len - half)) by lia.
      rewrite (Z.min_l (Z.of_nat len) (Z.of_nat len)), (Z.max_r 0 (Z.of_nat len)) by lia.
      rewrite (Z.min_l (Z.of_nat len - half)), (Z.max_r (Z.of_nat len - half)) by lia.
      f_equal; unfold k; lia. }
    assert (k ≤ len - k)%nat as Hk by (unfold k; lia).
    exists (String.substring 0 k text), (String.substring k (len - k - k) text),
           (String.substring (len - k) k text).
    assert (String.length (String.substring 0 k text) = k) as L1
      by (apply substring_length; fold len; lia).
    assert (String.length (String.substring (len - k) k text) = k) as L2
      by (apply substring_length; fold len; lia).
    split_and!.
    + done.
    + pose proof (substring_split k text) as H1.
      pose proof (substring_suffix_split k (len - k - k) text) as H2.
      fold len in H1, H2. rewrite H2 in H1 by lia.
      replace (k + (len - k - k))%nat with (len - k)%nat in H1 by lia.
      replace (len - k - (len - k - k))%nat with k in H1 by lia.
      apply H1. lia.
    + rewrite L1. unfold k. lia.
    + rewrite L2. unfold k. lia.
    + rewrite !append_length, L1, L2. cbn. unfold k. lia.
Qed.

Lemma shortify_shape_witness :
  (Z.of_nat (String.length "0123456789abcdef") ≤ default 10 None →
   shortify "0123456789abcdef" None = "0123456789abcdef")
  ∧ (default 10 None < Z.of_nat (String.length "0123456789abcdef") →
     ∃ first middle last,
       shortify "0123456789abcdef" None = String.append first (String.append "..." last)
       ∧ "0123456789abcdef" = String.append first (String.append middle last)
       ∧ Z.of_nat (String.length first) = default 10 None `div` 2
       ∧ Z.of_nat (String.length last) = default 10 None `div` 2
       ∧ Z.of_nat (String.length (shortify "0123456789abcdef" None))
         = 2 * (default 10 None `div` 2) + 3).
Proof. apply (shortify_shape "0123456789abcdef" None). cbn. lia. Defined.

End DataUtils.

(** ** The getters of the store on transactions *)

Module StoreGetters.
Import DataUtils.

(** [combinedTransactions] (store.js 66-80): the empty list when
    [this.state] is missing; else invoices and payments in one list, sorted
    with the comparator on [created_at]. *)
Definition combinedTransactions (this : Store.receiver) (rt : runtime) (s : Store.store)
  : result (list jsval) :=
  if negb (Store.has_state this) then Ok []
  else
    let safeInvoices := JRef <$> Store.invoices s in
    let safePayments := JRef <$> Store.payments s in
    sortR (byRecency rt (Store.objects s)) (safeInvoices ++ safePayments).

(** The date test of the store's filter (118-135), on [filters.dateFrom]
    and [filters.dateTo]. *)
Definition inFilterDates (rt : runtime) (h : heap) (filters tx : jsval) : result bool :=
  bind (read h tx "created_at") (λ created_at,
  let txDate := date_time rt created_at in
  let matches := true in
  let matches :=
    if truthy (prop h filters "dateFrom") then
      let fromDate := toStartOfDay rt (date_time rt (prop h filters "dateFrom")) in
      if num_lt txDate fromDate then false else matches
    else matches in
  let matches :=
    if matches && truthy (prop h filters "dateTo") then
      let toDate := toEndOfDay rt (date_time rt (prop h filters "dateTo")) in
      if num_gt txDate toDate then false else matches
    else matches in
  Ok matches).

(** [filteredTransactions] (store.js 83-139); [filters] is
    [state.filters].  [this.combinedTransactions] is a function only when
    [this] is the getters object; calling it elsewhere raises. *)
Definition filteredTransactions (this : Store.receiver) (rt : runtime) (s : Store.store)
    (filters : jsval) : result (list jsval) :=
  if negb (Store.has_getters this) then TypeError else
  bind (combinedTransactions this rt s) (λ combined,
  let h := Store.objects s in
  match combined with
  | [] => Ok []
  | _ :: _ =>
      if negb (Store.has_state this) || negb (truthy filters) then Ok combined
      else
        let result := Ok combined in
        let result :=
          if truthy (prop h filters "direction")
             && negb (strict_eq (prop h filters "direction") (JStr "all"))
          then bind result (filterR (directionIs h filters))
          else result in
        let result :=
          if truthy (prop h filters "status")
             && negb (strict_eq (prop h filters "status") (JStr "all"))
          then bind result (filterR (statusIs h filters))
          else result in
        let result :=
          if truthy (prop h filters "searchText") then
            match prop h filters "searchText" with
            | JStr searchText =>
                bind result (filterR (textMatches rt h (toLowerCase rt searchText)))
            | _ => TypeError
            end
          else result in
        let result :=
          if truthy (prop h filters "dateFrom") || truthy (prop h filters "dateTo")
          then bind result (filterR (inFilterDates rt h filters))
          else result in
        result
  end).

(** *** What the getters return *)

(** X19. Called on [taprootStore.getters], [combinedTransactions] finds no
    [this.state] and returns the empty list, whatever the store holds.
    Called on an object that has the state, for invoices and payments that
    are objects of the store with valid dates, it returns them all, ordered
    so that no element is more recent than one before it. *)
Theorem store_most_recent_first (this : Store.receiver) (rt : runtime) (s : Store.store) :
  Forall (λ v, dated rt (Store.objects s) v = true)
    (JRef <$> Store.invoices s ++ Store.payments s) →
  if Store.has_state this then
    ∃ sorted,
      combinedTransactions this rt s = Ok sorted
      ∧ sorted ≡ₚ JRef <$> Store.invoices s ++ Store.payments s
      ∧ StronglySorted (notAfter rt (Store.objects s)) sorted
  else combinedTransactions this rt s = Ok [].
Proof.
  intros Hall. unfold combinedTransactions.
  destruct (Store.has_state this); cbn [negb]; [|reflexivity].
  cbv zeta. rewrite <- fmap_app.
  exact (sortR_recency rt (Store.objects s) _ Hall).
Qed.

(** The invoice and the payment of [january_heap] in a store. *)
Definition january_store : Store.store :=
  Store.mkStore january_heap [] [1%positive] [2%positive].

Lemma store_most_recent_first_witness :
  combinedTransactions Store.Getters utc_runtime january_store = Ok []
  ∧ ∃ sorted,
      combinedTransactions Store.TaprootStore utc_runtime january_store = Ok sorted
      ∧ sorted ≡ₚ JRef <$> Store.invoices january_store ++ Store.payments january_store
      ∧ StronglySorted (notAfter utc_runtime (Store.objects january_store)) sorted.
Proof.
  assert (Forall (λ v, dated utc_runtime (Store.objects january_store) v = true)
            (JRef <$> Store.invoices january_store ++ Store.payments january_store))
    as Hall by (repeat constructor).
  split.
  - exact (store_most_recent_first Store.Getters utc_runtime january_store Hall).
  - exact (store_most_recent_first Store.TaprootStore utc_runtime january_store Hall).
Defined.

(** X20. The filters of the store never apply.  [filteredTransactions]
    starts from [this.combinedTransactions()]: on [taprootStore.getters]
    that is the empty list (there is no [this.state]), and the getter
    returns the empty list before it looks at a filter; on the store
    object itself or on its actions there is no such method, and the call
    raises.  Whatever the store holds and whatever the filters are, no
    transaction is returned. *)
Theorem store_filter_never_applies (this : Store.receiver) (rt : runtime)
    (s : Store.store) (filters : jsval) :
  filteredTransactions this rt s filters
  = (if Store.has_getters this then Ok [] else TypeError)
  ∧ filteredTransactions Store.Getters rt s filters = Ok [].
Proof. by destruct this. Qed.

End StoreGetters.

(** ** DataUtils.downloadCSV: the generated content *)

Module CsvExport.

(** A row: the own properties of a plain object in the order
    [Object.keys] lists them (names are distinct). *)
Definition row := list (string * jsval).

(** [row[header]]: an own property, or else what the object inherits
    under that name. *)
Fixpoint field (rt : runtime) (r : row) (header : string) : jsval :=
  match r with
  | [] => object_prototype rt header
  | (k, v) :: r' => if String.eqb k header then v else field rt r' header
  end.

Definition comma : string := ",".
Definition commaChar : Ascii.ascii := Ascii.ascii_of_nat 44.
Definition quoteChar : Ascii.ascii := Ascii.ascii_of_nat 34.
Definition newlineChar : Ascii.ascii := Ascii.ascii_of_nat 10.
Definition quote : string := String quoteChar EmptyString.
Definition newline : string := String newlineChar EmptyString.

(** [value.toString()] for a value that is neither null nor undefined. *)
Definition toString (rt : runtime) (v : jsval) : string :=
  match v with
  | JStr s => s
  | JNum n => number_toString rt n
  | JNaN => "NaN"
  | JBool b => if b then "true" else "false"
  | JRef l => object_toString rt l
  | JUndefined | JNull => ""
  end.

(** The [replace] of line 366: every double quote becomes two. *)
Fixpoint doubleQuotes (s : string) : string :=
  match s with
  | EmptyString => EmptyString
  | String c s' =>
      if Ascii.eqb c quoteChar then String c (String c (doubleQuotes s'))
      else String c (doubleQuotes s')
  end.

Definition needsQuoting (value : string) : bool :=
  includes value comma || includes value quote || includes value newline.

(** The callback of [headers.map] (361-369). *)
Definition cell (rt : runtime) (v : jsval) : string :=
  let value :=
    if negb (strict_eq v JUndefined) && negb (strict_eq v JNull)
    then toString rt v else "" in
  if needsQuoting value then String.append quote (String.append (doubleQuotes value) quote)
  else value.

(** [array.join(',')]. *)
Definition join (l : list string) : string := String.concat comma l.

(** One line of a row; reading a field of a null row raises. *)
Definition rowLine (rt : runtime) (headers : list string) (r : option row) : result string :=
  match r with
  | Some r =>
      Ok (String.append (join (map (λ header, cell rt (field rt r header)) headers)) newline)
  | None =>
      match headers with
      | [] => Ok newline
      | _ :: _ => TypeError
      end
  end.

Fixpoint rowLines (rt : runtime) (headers : list string) (rows : list (option row))
  : result string :=
  match rows with
  | [] => Ok EmptyString
  | r :: rows' =>
      bind (rowLine rt headers r) (λ line,
      bind (rowLines rt headers rows') (λ rest, Ok (String.append line rest)))
  end.

(** The [csvContent] built by [downloadCSV] (335-371): nothing for an
    empty list; [Object.keys] of a null first row raises, and so does a
    later null row, in which case the [catch] gives up.  Handing the
    content to the browser for download is not part of the model. *)
Definition csvContent (rt : runtime) (rows : list (option row)) : option (result string) :=
  match rows with
  | [] => None
  | None :: _ => Some TypeError
  | Some first :: _ =>
      let headers := map fst first in
      Some (bind (rowLines rt headers rows) (λ lines,
            Ok (String.append (String.append (join headers) newline) lines)))
  end.

(** *** What the specification says of a field *)

(** The text of a value: a string as it is, a number in digits, a boolean
    by its name, nothing for null and undefined. *)
Definition text_of (rt : runtime) (v : jsval) : string :=
  match v with
  | JUndefined | JNull => ""
  | JBool true => "true"
  | JBool false => "false"
  | JNaN => "NaN"
  | JNum n => number_toString rt n
  | JStr s => s
  | JRef l => object_toString rt l
  end.

(** A comma, a double quote or a newline. *)
Definition special (c : Ascii.ascii) : bool :=
  Ascii.eqb c commaChar || Ascii.eqb c quoteChar || Ascii.eqb c newlineChar.

(** The text with every double quote doubled. *)
Definition doubled (text : string) : string :=
  String.string_of_list_ascii
    (flat_map (λ c, if Ascii.eqb c quoteChar then [c; c] else [c])
       (String.list_ascii_of_string text)).

(** A value as the file should show it: wrapped in double quotes, with
    every double quote of its own doubled, when its text has a special
    character; verbatim otherwise. *)
Definition csv_field (rt : runtime) (v : jsval) : string :=
  let text := text_of rt v in
  if existsb special (String.list_ascii_of_string text)
  then quote +:+ doubled text +:+ quote
  else text.

Lemma field_own rt (r : row) k v :
  NoDup (map fst r) → (k, v) ∈ r → field rt r k = v.
Proof.
  induction r as [|[k' v'] r IH]; intros Hnd Hin; [by apply elem_of_nil in Hin|].
  cbn in *. apply NoDup_cons in Hnd as [Hk' Hnd].
  apply elem_of_cons in Hin as [[= -> ->]|Hin].
  - by rewrite String.eqb_refl.
  - destruct (String.eqb_spec k' k) as [->|Hne]; [|by apply IH].
    destruct Hk'. apply list_elem_of_fmap. by exists (k, v).
Qed.

Lemma own_cells rt (r r0 : row) :
  NoDup (map fst r0) → (∀ x, x ∈ r → x ∈ r0) →
  map (λ header, cell rt (field rt r0 header)) (map fst r) = map (λ kv, cell rt kv.2) r.
Proof.
  intros Hnd. induction r as [|[k v] r IH]; intros Hsub; [done|].
  cbn. rewrite (field_own rt r0 k v Hnd) by (apply Hsub; left).
  rewrite IH; [done|]. intros x Hx. apply Hsub. by right.
Qed.

Lemma prefix_empty s : String.prefix "" s = true.
Proof. by destruct s. Qed.

Lemma includes_char (c : Ascii.ascii) (s : string) :
  includes s (String c EmptyString)
  = existsb (λ x, Ascii.eqb x c) (String.list_ascii_of_string s).
Proof.
  induction s as [|x s IH]; [done|].
  cbn [includes String.list_ascii_of_string existsb String.prefix]. rewrite IH.
  destruct (Ascii.ascii_dec c x) as [->|Hne].
  - by rewrite prefix_empty, Ascii.eqb_refl.
  - apply not_eq_sym, Ascii.eqb_neq in Hne. by rewrite Hne.
Qed.

Lemma existsb_orb {A} (p q : A → bool) l :
  existsb (λ x, p x || q x) l = existsb p l || existsb q l.
Proof.
  induction l as [|x l IH]; [done|]. cbn. rewrite IH.
  destruct (p x), (q x), (existsb p l); done.
Qed.

Lemma needsQuoting_special value :
  needsQuoting value = existsb special (String.list_ascii_of_string value).
Proof.
  unfold needsQuoting, special, comma, quote, newline.
  by rewrite !includes_char, !existsb_orb.
Qed.

Lemma doubleQuotes_doubled value : doubleQuotes value = doubled value.
Proof.
  unfold doubled. induction value as [|c value IH]; [done|].
  cbn [doubleQuotes String.list_ascii_of_string flat_map]. rewrite IH.
  by destruct (Ascii.eqb c quoteChar).
Qed.

Lemma cell_csv_field rt v : cell rt v = csv_field rt v.
Proof.
  unfold cell, csv_field. rewrite needsQuoting_special, doubleQuotes_doubled.
  by destruct v as [| |[|]| | | |].
Qed.

(** C8. For every non-empty list of rows (plain objects with distinct
    field names, none of them null), the generated content starts with the
    first row's field names joined by commas and a newline, followed by
    the first row's values joined by commas and a newline, where a value
    whose text contains a comma, a double quote or a newline is wrapped in
    double quotes with every double quote doubled, every other value
    appears verbatim, and null and undefined give the empty text.  With
    one row this is the whole content. *)
Theorem csv_first_lines (rt : runtime) (first : row) (rest : list (option row)) :
  NoDup (map fst first) →
  Forall is_Some rest →
  ∃ body,
    csvContent rt (Some first :: rest)
    = Some (Ok ((join (map fst first) +:+ newline)
                +:+ ((join (map (λ kv, csv_field rt kv.2) first) +:+ newline)
                     +:+ body)))
    ∧ (rest = [] → body = "").
Proof.
  intros Hnd Hrest.
  assert (∃ body, rowLines rt (map fst first) rest = Ok body
                  ∧ (rest = [] → body = "")) as (body & Hbody & Hnil).
  { induction Hrest as [|r rest [r' ->] _ (body & IH & _)]; [by exists EmptyString|].
    cbn. rewrite IH. cbn. eexists. split; [done|]. intros [=]. }
  exists body. split; [|exact Hnil].
  unfold csvContent. cbn [rowLines rowLine bind]. rewrite Hbody. cbn [bind].
  rewrite (own_cells rt first first Hnd) by done.
  replace (map (λ kv, cell rt kv.2) first) with (map (λ kv, csv_field rt kv.2) first);
    [done|].
  apply map_ext. intros kv. symmetry. apply cell_csv_field.
Qed.

(** The row of the specification's example. *)
Definition example_row : row :=
  [("date", JStr "2024-01-01"); ("type", JStr "RECEIVED");
   ("amount", JStr "10"); ("asset", JStr "USDT")].

(** A row whose values have a comma, double quotes and a newline, a
    number and null. *)
Definition special_row : row :=
  [("memo", JStr "coffee, black");
   ("note", JStr ("say " +:+ quote +:+ "hi" +:+ quote));
   ("text", JStr ("one" +:+ newline +:+ "two"));
   ("amount", JNum 10);
   ("asset", JNull)].

(** C8, witness: the example of the specification, and the row with the
    special characters; [quote] stands for one double quote. *)
Lemma csv_first_lines_witness :
  csvContent AssetService.bare_runtime [Some example_row]
  = Some (Ok ("date,type,amount,asset" +:+ newline
              +:+ "2024-01-01,RECEIVED,10,USDT" +:+ newline))
  ∧ csvContent AssetService.bare_runtime [Some special_row]
    = Some (Ok ("memo,note,text,amount,asset" +:+ newline
                +:+ quote +:+ "coffee, black" +:+ quote +:+ ","
                +:+ quote +:+ "say " +:+ quote +:+ quote +:+ "hi" +:+ quote +:+ quote
                +:+ quote +:+ ","
                +:+ quote +:+ "one" +:+ newline +:+ "two" +:+ quote +:+ ","
                +:+ "10" +:+ "," +:+ newline)).
Proof.
  split.
  - destruct (csv_first_lines AssetService.bare_runtime example_row [])
      as (body & H & Hb).
    + apply (bool_decide_eq_true_1 (NoDup _)). vm_compute. reflexivity.
    + constructor.
    + rewrite H, (Hb eq_refl). vm_compute. reflexivity.
  - destruct (csv_first_lines AssetService.bare_runtime special_row [])
      as (body & H & Hb).
    + apply (bool_decide_eq_true_1 (NoDup _)). vm_compute. reflexivity.
    + constructor.
    + rewrite H, (Hb eq_refl). vm_compute. reflexivity.
Defined.

(** *** What of a row reaches the file *)

(** Two rows that agree on the fields named by [headers]. *)
Definition sameFields (rt : runtime) (headers : list string) (r r' : option row) : Prop :=
  match r, r' with
  | Some a, Some b =>
      ∀ header, header ∈ headers → field rt a header = field rt b header
  | None, None => True
  | _, _ => False
  end.

Lemma rowLine_sameFields rt headers r r' :
  sameFields rt headers r r' → rowLine rt headers r = rowLine rt headers r'.
Proof.
  destruct r as [a|], r' as [b|]; cbn; try done. intros H. do 3 f_equal.
  apply map_ext_in. intros header Hin. f_equal. apply H. by apply list_elem_of_In.
Qed.

Lemma rowLines_sameFields rt headers rows rows' :
  Forall2 (sameFields rt headers) rows rows' →
  rowLines rt headers rows = rowLines rt headers rows'.
Proof.
  induction 1 as [|r r' rows rows' Hr _ IH]; [done|].
  cbn. by rewrite (rowLine_sameFields _ _ _ _ Hr), IH.
Qed.

(** X12. The columns of the file are the fields of the first row: what the
    other rows hold under other names never reaches the file (two lists of
    rows that agree on the first row's fields give the same content). *)
Theorem csv_columns_of_first_row (rt : runtime) (first : row) (rest rest' : list (option row)) :
  Forall2 (sameFields rt (map fst first)) rest rest' →
  csvContent rt (Some first :: rest) = csvContent rt (Some first :: rest').
Proof.
  intros H. unfold csvContent. do 2 f_equal.
  apply rowLines_sameFields. constructor; [by intros ?|exact H].
Qed.

(** A first row with the field [amount] only, and a second row that also
    has a [memo]. *)
Lemma csv_columns_of_first_row_witness :
  csvContent AssetService.bare_runtime
    [Some [("amount", JNum 1)]; Some [("amount", JNum 2); ("memo", JStr "coffee")]]
  = csvContent AssetService.bare_runtime
      [Some [("amount", JNum 1)]; Some [("amount", JNum 2)]].
Proof.
  apply csv_columns_of_first_row. constructor; [|constructor].
  intros header Hin. apply list_elem_of_singleton in Hin as ->. reflexivity.
Defined.

End CsvExport.

(** ** PaymentService, NotificationService and the pay flow of the page *)

Module PaymentService.

(** The body of [POST pay]. *)
Record payload := mkPayload {
  payment_request : jsval;
  fee_limit_sats : jsval;
  asset_id : jsval;
  peer_pubkey : option jsval
}.

(** A thrown value: its [message], [error.response?.data], [isApiError]
    and the [isInternalPayment] mark. *)
Record error := mkError {
  message : jsval;
  response_data : jsval;
  isApiError : jsval;
  isInternalPayment : bool
}.

(** [new Error(message)] (and a TypeError alike). *)
Definition Error (msg : string) : error :=
  mkError (JStr msg) JUndefined JUndefined false.

(** What the backend does with a pay call: the promise resolves with a
    response whose [data] is given, or rejects. *)
Inductive api_result :=
| Resolved (data : jsval)
| Rejected (e : error).

Inductive outcome (A : Type) :=
| Returned (a : A)
| Thrown (e : error).
Arguments Returned {A} a.
Arguments Thrown {A} e.

(** What the user gets to see, and the refreshes the page kicks off. *)
Inductive note :=
| ShowSuccess (m : jsval)
| ShowError (m : jsval)
| ShowInfo (m : jsval)
| RefreshAssets
| RefreshTransactions.

(** The store, [window.assetMap] (when it exists), the pay calls made so
    far and the notes issued so far. *)
Record world := mkWorld {
  st : Store.store;
  assetMap : option loc;
  calls : list payload;
  notes : list note
}.

Definition heapOf (w : world) : heap := Store.objects (st w).

Definition withHeap (h : heap) (w : world) : world :=
  mkWorld (Store.mkStore h (Store.assets (st w)) (Store.invoices (st w))
             (Store.payments (st w)))
    (assetMap w) (calls w) (notes w).

Definition withStore (s : Store.store) (w : world) : world :=
  mkWorld s (assetMap w) (calls w) (notes w).

Definition withAssetMap (am : loc) (w : world) : world :=
  mkWorld (st w) (Some am) (calls w) (notes w).

Definition notify (n : note) (w : world) : world :=
  mkWorld (st w) (assetMap w) (calls w) (notes w ++ [n]).

(** [ApiService.payInvoice]: the backend answers the n-th pay call. *)
Definition apiPayInvoice (api : nat → api_result) (p : payload) (w : world)
  : api_result * world :=
  (api (length (calls w)), mkWorld (st w) (assetMap w) (calls w ++ [p]) (notes w)).

(** The test of [assets.find(a => a.asset_id === assetId)]. *)
Definition hasAssetId (h : heap) (assetId : jsval) (x : loc) : bool :=
  strict_eq (get (deref h x) "asset_id") assetId.

(** [Array.prototype.find] on the assets of the store. *)
Definition findAsset (w : world) (assetId : jsval) : option loc :=
  match findIndex (hasAssetId (heapOf w) assetId) (Store.assets (st w)) with
  | Some i => Store.assets (st w) !! i
  | None => None
  end.

(** [_getAssetName] (913-934): the global map first, then AssetService
    (which is loaded with the page), whose [getAssetName] looks into the
    store. *)
Definition getAssetName (rt : runtime) (w : world) (assetId : jsval) : jsval :=
  if negb (truthy assetId) then JStr "Unknown"
  else
    let viaAssetService :=
      match findAsset w assetId with
      | Some a => js_or (get (deref (heapOf w) a) "name") (JStr "Unknown")
      | None => JStr "Unknown"
      end in
    match assetMap w with
    | Some am =>
        let entry := get (deref (heapOf w) am) (to_key rt assetId) in
        if truthy entry then js_or (prop (heapOf w) entry "name") (JStr "Unknown")
        else viaAssetService
    | None => viaAssetService
    end.

(** [_mapPayment] (883-905). *)
Definition mapPayment (rt : runtime) (w : world) (payment : jsval) : world * jsval :=
  if negb (truthy payment) then (w, JNull)
  else
    let '(h, mapped) := DataUtils.mapTransaction rt (heapOf w) payment (JStr "payment") in
    let w := withHeap h w in
    let w :=
      if truthy (prop (heapOf w) mapped "asset_id")
         && negb (truthy (prop (heapOf w) mapped "asset_name"))
      then
        let w := withHeap (write (heapOf w) mapped "asset_name"
                             (getAssetName rt w (prop (heapOf w) mapped "asset_id"))) w in
        if negb (truthy (prop (heapOf w) mapped "memo"))
           && truthy (prop (heapOf w) mapped "asset_name")
           && negb (strict_eq (prop (heapOf w) mapped "asset_name") (JStr "Unknown"))
        then withHeap (write (heapOf w) mapped "memo" (JStr "")) w
        else w
      else w in
    let w :=
      if truthy (prop (heapOf w) mapped "extra") then
        withHeap (write (heapOf w) mapped "extra" (prop (heapOf w) mapped "extra")) w
      else
        let '(h, extra) := alloc (heapOf w) ∅ in
        withHeap (write h mapped "extra" (JRef extra)) w in
    let w :=
      withHeap (write (heapOf w) (prop (heapOf w) mapped "extra") "asset_name"
                  (js_or (prop (heapOf w) mapped "asset_name")
                     (getAssetName rt w (prop (heapOf w) mapped "asset_id")))) w in
    (w, mapped).

(** "Make sure this asset is in the global map" (744-750, 840-846). *)
Definition rememberAsset (rt : runtime) (asset : jsval) (w : world) : world :=
  let '(w, am) :=
    match assetMap w with
    | Some am => (w, am)
    | None =>
        let '(h, am) := alloc (heapOf w) ∅ in
        (withAssetMap am (withHeap h w), am)
    end in
  let key := to_key rt (prop (heapOf w) asset "asset_id") in
  if negb (truthy (get (deref (heapOf w) am) key)) then
    let '(h, entry) :=
      alloc (heapOf w)
        {[ "name" := js_or (prop (heapOf w) asset "name") (JStr "Unknown");
           "type" := js_or (prop (heapOf w) asset "type") (JStr "unknown") ]} in
    withHeap (write h (JRef am) key (JRef entry)) w
  else w.

(** "Deduct the asset amount from the user's balance" (736-737, 832-833):
    [balance] is the [user_balance] of the asset object at hand. *)
Definition newBalance (rt : runtime) (balance amount : jsval) : jsval :=
  of_number
    (math_max (Int 0)
       (num_sub (to_number rt (js_or balance (JNum 0))) (to_number rt amount))).

(** "Update the asset in the store" (739-741, 835-837): the object with
    the new balance is handed to [updateAsset], called as a member of
    [taprootStore.actions]. *)
Definition deduct (rt : runtime) (asset data : jsval) (w : world) : world :=
  let balance :=
    newBalance rt (prop (heapOf w) asset "user_balance")
      (prop (heapOf w) data "asset_amount") in
  let assetId := prop (heapOf w) asset "asset_id" in
  let '(h, changes) := alloc (heapOf w) {[ "user_balance" := balance ]} in
  withStore (Store.updateAsset Store.Actions (st (withHeap h w)) assetId changes) w.

(** The payment record built for the store (754-767, 850-864). *)
Definition paymentRecord (rt : runtime) (h : heap) (wallet data : jsval)
    (paymentRequest assetId fee : jsval) (internal : bool) : obj :=
  let fields : obj :=
    {[ "id" := js_or (prop h data "payment_hash") (JStr (now_string rt));
       "payment_hash" := prop h data "payment_hash";
       "payment_request" := paymentRequest;
       "asset_id" := assetId;
       "asset_amount" := prop h data "asset_amount";
       "fee_sats" := fee;
       "memo" := js_or (prop h data "description") (JStr "");
       "status" := JStr "completed";
       "user_id" := prop h wallet "user";
       "wallet_id" := prop h wallet "id";
       "created_at" := JStr (now_iso rt);
       "preimage" := prop h data "preimage" ]} in
  if internal then <["internal_payment" := JBool true]> fields else fields.

(** Build the record, map it and hand it to [addPayment], called as a
    member of [taprootStore.actions] (771, 868). *)
Definition storePayment (rt : runtime) (record : obj) (w : world) : world :=
  let '(h, payment) := alloc (heapOf w) record in
  let '(w, mapped) := mapPayment rt (withHeap h w) (JRef payment) in
  match mapped with
  | JRef m => withStore (Store.addPayment Store.Actions (st w) m) w
  | _ => w
  end.

Definition internalMessage : string :=
  "This invoice belongs to another user on this node. System will process it as an internal payment.".

(** "Update asset information in the store with new balance" (734-751,
    829-847), for a response that names an asset and an asset object at
    hand. *)
Definition updateBalance (rt : runtime) (asset data : jsval) (w : world) : world :=
  if truthy (prop (heapOf w) data "asset_id") && truthy asset then
    rememberAsset rt asset (deduct rt asset data w)
  else w.

(** "Create payment record for store" of [payInvoice] (754-767). *)
Definition payInvoiceRecord (rt : runtime) (wallet assetData paymentData data : jsval)
    (w : world) : obj :=
  let h := heapOf w in
  let fee :=
    if truthy (prop h data "fee_msat")
    then of_number (ceil_div_1000 (to_number rt (prop h data "fee_msat")))
    else JNum 0 in
  paymentRecord rt h wallet data (prop h paymentData "paymentRequest")
    (js_or (prop h data "asset_id") (prop h assetData "asset_id"))
    fee false.

(** [payInvoice] once the response is there (720-773). *)
Definition settle (rt : runtime) (wallet assetData paymentData data : jsval)
    (w : world) : outcome jsval * world :=
  if negb (truthy data) then
    (Thrown (Error "Failed to process payment: No data returned"), w)
  else if negb (truthy (prop (heapOf w) data "status"))
          || strict_eq (prop (heapOf w) data "status") (JStr "failed") then
    (Thrown (Error (to_key rt (js_or (prop (heapOf w) data "error") (JStr "Payment failed")))), w)
  else if strict_eq (prop (heapOf w) data "status") (JStr "success") then
    let w := updateBalance rt assetData data w in
    (Returned data,
     storePayment rt (payInvoiceRecord rt wallet assetData paymentData data w) w)
  else (Returned data, w).

(** The [try] block of [payInvoice] (696-774); reading [asset_id] of an
    [assetData] that is null or undefined raises. *)
Definition payInvoiceBody (rt : runtime) (api : nat → api_result)
    (wallet assetData paymentData : jsval) (w : world) : outcome jsval * world :=
  let h := heapOf w in
  if negb (truthy wallet) || negb (truthy (prop h wallet "adminkey")) then
    (Thrown (Error "Valid wallet is required"), w)
  else if negb (truthy (opt_prop h paymentData "paymentRequest")) then
    (Thrown (Error "Payment request is required"), w)
  else
    match read h assetData "asset_id" with
    | TypeError => (Thrown (Error "TypeError"), w)
    | Ok assetId =>
        let peer := opt_prop h (opt_prop h assetData "channel_info") "peer_pubkey" in
        let payload :=
          mkPayload (prop h paymentData "paymentRequest")
            (js_or (prop h paymentData "feeLimit") (JNum 1000))
            assetId
            (if truthy peer then Some peer else None) in
        match apiPayInvoice api payload w with
        | (Rejected e, w) => (Thrown e, w)
        | (Resolved data, w) => settle rt wallet assetData paymentData data w
        end
    end.

(** The [catch] of [payInvoice] (775-790): an error whose detail names an
    internal payment is thrown again with the mark; a detail that is not a
    string has no [includes]. *)
Definition classify (h : heap) (e : error) : error :=
  let detail := opt_prop h (response_data e) "detail" in
  if truthy detail then
    match detail with
    | JStr d =>
        if includes d "internal payment" || includes d "own invoice"
        then mkError (JStr internalMessage) (response_data e) (isApiError e) true
        else e
    | _ => Error "TypeError"
    end
  else e.

(** [PaymentService.payInvoice] (695-791). *)
Definition payInvoice (rt : runtime) (api : nat → api_result)
    (wallet assetData paymentData : jsval) (w : world) : outcome jsval * world :=
  match payInvoiceBody rt api wallet assetData paymentData w with
  | (Thrown e, w) => (Thrown (classify (heapOf w) e), w)
  | r => r
  end.

(** "Create payment record for store" of [processInternalPayment]
    (850-864). *)
Definition internalRecord (rt : runtime) (wallet paymentData data : jsval) (w : world)
  : obj :=
  paymentRecord rt (heapOf w) wallet data (prop (heapOf w) paymentData "paymentRequest")
    (prop (heapOf w) data "asset_id") (JNum 0) true.

(** "Find the asset in the store" (824-827). *)
Definition storeAsset (w : world) (data : jsval) : jsval :=
  match findAsset w (prop (heapOf w) data "asset_id") with
  | Some a => JRef a
  | None => JUndefined
  end.

(** [processInternalPayment] once the response is there (820-870). *)
Definition settleInternal (rt : runtime) (wallet paymentData data : jsval)
    (w : world) : outcome jsval * world :=
  if negb (truthy data) then
    (Thrown (Error "Failed to process internal payment: No data returned"), w)
  else
    let w := updateBalance rt (storeAsset w data) data w in
    (Returned data, storePayment rt (internalRecord rt wallet paymentData data w) w).

(** [PaymentService.processInternalPayment] (799-875); its [catch] throws
    the error again as it is. *)
Definition processInternalPayment (rt : runtime) (api : nat → api_result)
    (wallet paymentData : jsval) (w : world) : outcome jsval * world :=
  let h := heapOf w in
  if negb (truthy wallet) || negb (truthy (prop h wallet "adminkey")) then
    (Thrown (Error "Valid wallet is required"), w)
  else if negb (truthy (opt_prop h paymentData "paymentRequest")) then
    (Thrown (Error "Payment request is required"), w)
  else
    let payload :=
      mkPayload (prop h paymentData "paymentRequest")
        (js_or (prop h paymentData "feeLimit") (JNum 10))
        (prop h paymentData "assetId") None in
    match apiPayInvoice api payload w with
    | (Rejected e, w) => (Thrown e, w)
    | (Resolved data, w) => settleInternal rt wallet paymentData data w
    end.

(** *** What a payment leaves untouched *)

Lemma heapOf_withHeap h w : heapOf (withHeap h w) = h.
Proof. reflexivity. Qed.

Lemma heapOf_withAssetMap am w : heapOf (withAssetMap am w) = heapOf w.
Proof. reflexivity. Qed.

Lemma withHeap_withHeap h h' w : withHeap h (withHeap h' w) = withHeap h w.
Proof. reflexivity. Qed.


(** From [w] to [w']: the log and the assets of the store are the same,
    and so is every object of [w] other than the asset map. *)
Definition stable (w w' : world) : Prop :=
  calls w' = calls w ∧ notes w' = notes w ∧ Store.assets (st w') = Store.assets (st w)
  ∧ ∀ n, is_Some (heapOf w !! n) → assetMap w ≠ Some n →
         heapOf w' !! n = heapOf w !! n ∧ assetMap w' ≠ Some n.

Lemma stable_refl w : stable w w.
Proof. by split_and!. Qed.

Lemma stable_trans w1 w2 w3 : stable w1 w2 → stable w2 w3 → stable w1 w3.
Proof.
  intros (Hc & Hn & Ha & Hf) (Hc' & Hn' & Ha' & Hf'). split_and!; [congruence..|].
  intros n Hs Ham. destruct (Hf n Hs Ham) as [Hh Ham'].
  destruct (Hf' n) as [Hh' Ham'']; [by rewrite Hh|done|].
  split; [congruence|done].
Qed.

Lemma stable_withHeap w h' : extends (heapOf w) h' → stable w (withHeap h' w).
Proof.
  intros He. split_and!; [done..|]. intros n Hs Ham. split; [|done]. by apply He.
Qed.

Lemma mapPayment_spec rt w p (Q : world * jsval → Prop) :
  truthy p = true →
  (∀ h' m, extends (heapOf w) h' → heapOf w !! m = None → Q (withHeap h' w, JRef m)) →
  Q (mapPayment rt w p).
Proof.
  intros Hp HQ. cbv delta [mapPayment] beta. rewrite Hp. cbv delta [negb] beta iota.
  pattern (DataUtils.mapTransaction rt (heapOf w) p (JStr "payment")).
  apply DataUtils.mapTransaction_payment; [done|]. intros h' m e He Hm Hf Hx. cbv beta iota.
  pose (I := λ wx : world, ∃ hx, wx = withHeap hx w ∧ extends (heapOf w) hx
                                 ∧ prop hx (JRef m) "extra" = JRef e).
  assert (∀ wx k x, I wx → k ≠ "extra" →
            I (withHeap (write (heapOf wx) (JRef m) k x) wx)) as Hstep.
  { intros wx k x (hx & -> & Hex & Hxx) Hk. eexists. split; [apply withHeap_withHeap|].
    rewrite heapOf_withHeap. split.
    - apply extends_write; [done|]. by intros ? [= <-].
    - by rewrite prop_write_ne. }
  step I. { by exists h'. }
  intros w1 H1. step I.
  { split_if; [|done]. cbv zeta. split_if; [|by apply Hstep].
    by do 2 (apply Hstep; [|done]). }
  clear w1 H1. intros w1 H1. step I.
  { destruct H1 as (hx & -> & Hex & Hxx). rewrite !heapOf_withHeap, Hxx. cbn [truthy].
    cbv beta iota. eexists. split; [apply withHeap_withHeap|]. split.
    - apply extends_write; [done|]. by intros ? [= <-].
    - by rewrite prop_write_eq. }
  clear w1 H1. intros w1 (hx & -> & Hex & Hxx).
  step (λ wx : world, ∃ hx, wx = withHeap hx w ∧ extends (heapOf w) hx).
  { rewrite !heapOf_withHeap, Hxx. eexists. split; [apply withHeap_withHeap|].
    apply extends_write; [done|]. by intros ? [= <-]. }
  intros w2 (h2 & -> & He2). by apply HQ.
Qed.

Lemma withStore_st w : withStore (st w) w = w.
Proof. by destruct w. Qed.

Lemma storePayment_alloc rt record w :
  ∃ h', storePayment rt record w = withHeap h' w ∧ extends (heapOf w) h'.
Proof.
  cbv delta [storePayment alloc] beta iota.
  pattern (mapPayment rt (withHeap (<[fresh (dom (heapOf w)):=record]> (heapOf w)) w)
             (JRef (fresh (dom (heapOf w))))).
  apply mapPayment_spec; [done|]. intros h' m He Hm. cbv beta iota.
  rewrite heapOf_withHeap in He. rewrite withHeap_withHeap.
  exists h'. split.
  - unfold Store.addPayment. cbn [Store.has_state negb]. apply withStore_st.
  - eapply extends_trans; [|exact He]. apply (extends_alloc _ _ record), extends_refl.
Qed.

Lemma storePayment_stable rt record w : stable w (storePayment rt record w).
Proof.
  destruct (storePayment_alloc rt record w) as (h' & -> & He). by apply stable_withHeap.
Qed.

Lemma rememberAsset_stable rt asset w : stable w (rememberAsset rt asset w).
Proof.
  cbv delta [rememberAsset alloc] beta.
  destruct (assetMap w) as [am|] eqn:Ham; cbv beta iota zeta.
  - case_match; [|apply stable_refl].
    split_and!; [done..|]. intros n Hs Hn. split; [|exact Hn].
    cbn. rewrite !lookup_insert_ne; [done| |congruence].
    intros <-. by apply fresh_not_allocated in Hs.
  - rewrite !heapOf_withAssetMap, !heapOf_withHeap.
    assert (∀ n, is_Some (heapOf w !! n) → n ≠ fresh (dom (heapOf w))) as Hfr.
    { intros n Hs. by apply fresh_not_allocated. }
    case_match.
    + split_and!; [done..|]. intros n Hs Hn. split.
      * cbn. rewrite !lookup_insert_ne; [done|..].
        -- apply not_eq_sym, Hfr, Hs.
        -- intros <-. 
           assert (is_Some (<[fresh (dom (heapOf w)):=∅]> (heapOf w) !! fresh (dom (<[fresh (dom (heapOf w)):=∅]> (heapOf w))))) as Hs'.
           { rewrite lookup_insert_ne; [done|]. apply not_eq_sym, Hfr, Hs. }
           by apply fresh_not_allocated in Hs'.
        -- apply not_eq_sym, Hfr, Hs.
      * cbn. intros [= <-]. by apply Hfr in Hs.
    + split_and!; [done..|]. intros n Hs Hn. split.
      * cbn. rewrite lookup_insert_ne; [done|]. apply not_eq_sym, Hfr, Hs.
      * cbn. intros [= <-]. by apply Hfr in Hs.
Qed.

Lemma deduct_alloc rt asset data w :
  ∃ h', deduct rt asset data w = withHeap h' w ∧ extends (heapOf w) h'.
Proof.
  cbv delta [deduct alloc] beta iota zeta. eexists. split.
  - unfold Store.updateAsset. cbn [Store.has_state negb]. reflexivity.
  - apply extends_insert; [apply extends_refl|]. apply extends_fresh, extends_refl.
Qed.

Lemma deduct_stable rt asset data w : stable w (deduct rt asset data w).
Proof.
  destruct (deduct_alloc rt asset data w) as (h' & -> & He). by apply stable_withHeap.
Qed.

Lemma deduct_log rt asset data w :
  calls (deduct rt asset data w) = calls w
  ∧ notes (deduct rt asset data w) = notes w
  ∧ assetMap (deduct rt asset data w) = assetMap w.
Proof. by destruct (deduct_alloc rt asset data w) as (h' & -> & _). Qed.

(** The objects of the store and the asset map exist. *)
Definition live (w : world) : Prop :=
  (∀ l, l ∈ Store.assets (st w) → is_Some (heapOf w !! l))
  ∧ (∀ am, assetMap w = Some am → is_Some (heapOf w !! am)).

(** [state.assets[i].user_balance]. *)
Definition storedBalance (w : world) (i : nat) : jsval :=
  get (deref (heapOf w) (Store.assets (st w) !!! i)) "user_balance".

(** The three collections of the store. *)
Definition collections (w : world) : list loc * list loc * list loc :=
  (Store.assets (st w), Store.invoices (st w), Store.payments (st w)).

Lemma collections_withHeap h w : collections (withHeap h w) = collections w.
Proof. reflexivity. Qed.

Lemma storePayment_collections rt record w :
  collections (storePayment rt record w) = collections w.
Proof. by destruct (storePayment_alloc rt record w) as (h' & -> & _). Qed.

Lemma deduct_collections rt asset data w :
  collections (deduct rt asset data w) = collections w.
Proof. by destruct (deduct_alloc rt asset data w) as (h' & -> & _). Qed.

Lemma rememberAsset_collections rt asset w :
  collections (rememberAsset rt asset w) = collections w.
Proof.
  cbv delta [rememberAsset alloc] beta.
  destruct (assetMap w); cbv beta iota zeta; by case_match.
Qed.

(** From [w] to [w']: the store holds the same three lists, the log is
    the same, and every object of [w] other than the asset map is as it
    was. *)
Definition kept (w w' : world) : Prop :=
  stable w w' ∧ collections w' = collections w.

Lemma kept_refl w : kept w w.
Proof. split; [apply stable_refl|done]. Qed.

Lemma kept_trans w1 w2 w3 : kept w1 w2 → kept w2 w3 → kept w1 w3.
Proof.
  intros [H1 E1] [H2 E2]. split; [by eapply stable_trans|congruence].
Qed.

Lemma updateBalance_kept rt asset data w : kept w (updateBalance rt asset data w).
Proof.
  unfold updateBalance. destruct (_ && _); [|apply kept_refl].
  apply (kept_trans _ (deduct rt asset data w)).
  - split; [apply deduct_stable|apply deduct_collections].
  - split; [apply rememberAsset_stable|apply rememberAsset_collections].
Qed.

Lemma storePayment_kept rt record w : kept w (storePayment rt record w).
Proof. split; [apply storePayment_stable|apply storePayment_collections]. Qed.

Lemma settle_kept rt wallet assetData paymentData data w :
  kept w (settle rt wallet assetData paymentData data w).2.
Proof.
  unfold settle. destruct (negb (truthy data)); [apply kept_refl|].
  destruct (_ || _); [apply kept_refl|].
  destruct (strict_eq _ _); cbv zeta; cbn [snd]; [|apply kept_refl].
  eapply kept_trans; [apply updateBalance_kept|apply storePayment_kept].
Qed.

Lemma settleInternal_kept rt wallet paymentData data w :
  kept w (settleInternal rt wallet paymentData data w).2.
Proof.
  unfold settleInternal. destruct (negb (truthy data)); [apply kept_refl|].
  cbv zeta. cbn [snd].
  eapply kept_trans; [apply updateBalance_kept|apply storePayment_kept].
Qed.

(** The two pay operations of the service. *)
Inductive operation :=
| PayInvoice (wallet assetData paymentData : jsval)
| ProcessInternalPayment (wallet paymentData : jsval).

Definition perform (rt : runtime) (api : nat → api_result) (op : operation) (w : world)
  : outcome jsval * world :=
  match op with
  | PayInvoice wallet assetData paymentData =>
      payInvoice rt api wallet assetData paymentData w
  | ProcessInternalPayment wallet paymentData =>
      processInternalPayment rt api wallet paymentData w
  end.

(** [w] with at most one more pay call in its log. *)
Definition called (w w1 : world) : Prop :=
  st w1 = st w ∧ assetMap w1 = assetMap w ∧ notes w1 = notes w.

Lemma called_refl w : called w w.
Proof. by split_and!. Qed.

Lemma payInvoice_snd rt api wallet assetData paymentData w :
  (payInvoice rt api wallet assetData paymentData w).2
  = (payInvoiceBody rt api wallet assetData paymentData w).2.
Proof. unfold payInvoice. by destruct (payInvoiceBody _ _ _ _ _ _) as [[r|e] w1]. Qed.

Lemma payInvoice_kept rt api wallet assetData paymentData w :
  ∃ w1, called w w1 ∧ kept w1 (payInvoice rt api wallet assetData paymentData w).2.
Proof.
  rewrite payInvoice_snd. unfold payInvoiceBody. cbv zeta.
  destruct (negb _ || _); [exists w; split; [apply called_refl|apply kept_refl]|].
  destruct (negb _); [exists w; split; [apply called_refl|apply kept_refl]|].
  destruct (read _ _ _) as [assetId|];
    [|exists w; split; [apply called_refl|apply kept_refl]].
  unfold apiPayInvoice. destruct (api _) as [data|e0].
  - eexists. split; [|apply settle_kept]. by split_and!.
  - eexists. split; [|apply kept_refl]. by split_and!.
Qed.

Lemma processInternalPayment_kept rt api wallet paymentData w :
  ∃ w1, called w w1 ∧ kept w1 (processInternalPayment rt api wallet paymentData w).2.
Proof.
  unfold processInternalPayment. cbv zeta.
  destruct (negb _ || _); [exists w; split; [apply called_refl|apply kept_refl]|].
  destruct (negb _); [exists w; split; [apply called_refl|apply kept_refl]|].
  unfold apiPayInvoice. destruct (api _) as [data|e0].
  - eexists. split; [|apply settleInternal_kept]. by split_and!.
  - eexists. split; [|apply kept_refl]. by split_and!.
Qed.

Lemma perform_kept rt api op w :
  ∃ w1, called w w1 ∧ kept w1 (perform rt api op w).2.
Proof.
  destruct op as [wallet assetData paymentData|wallet paymentData].
  - apply payInvoice_kept.
  - apply processInternalPayment_kept.
Qed.

(** A pay operation does not change what the store holds.  [payInvoice]
    and [processInternalPayment] hand the new balance to
    [taprootStore.actions.updateAsset] and the payment record to
    [taprootStore.actions.addPayment]; called as members of [actions],
    both find no [this.state] and return.  So after every pay operation,
    returned or thrown, the assets, the invoices and the payments of the
    store are the lists they were, every object that existed before is as
    it was (the global asset map apart, which gets an entry), and the
    stored [user_balance] of every asset is the previous one. *)
Lemma pay_keeps_store (rt : runtime) (api : nat → api_result) (op : operation)
    (w w' : world) (r : outcome jsval) :
  live w →
  perform rt api op w = (r, w') →
  Store.assets (st w') = Store.assets (st w)
  ∧ Store.invoices (st w') = Store.invoices (st w)
  ∧ Store.payments (st w') = Store.payments (st w)
  ∧ (∀ n, is_Some (heapOf w !! n) → assetMap w ≠ Some n → heapOf w' !! n = heapOf w !! n)
  ∧ (∀ i a, Store.assets (st w) !! i = Some a → assetMap w ≠ Some a →
       storedBalance w' i = storedBalance w i).
Proof.
  intros [Hlive _] Hrun. apply (f_equal snd) in Hrun. cbn [snd] in Hrun.
  destruct (perform_kept rt api op w) as (w1 & (Hst & Ham & _) & (_ & _ & _ & Hf) & Hc).
  rewrite Hrun in Hf, Hc. unfold collections in Hc. unfold heapOf in Hf.
  rewrite Hst, Ham in *. injection Hc as Ha Hi Hp.
  assert (∀ n, is_Some (heapOf w !! n) → assetMap w ≠ Some n →
               heapOf w' !! n = heapOf w !! n) as Hframe.
  { intros n Hn Hmap. by destruct (Hf n Hn Hmap). }
  split_and!; [exact Ha|exact Hi|exact Hp|exact Hframe|].
  intros i a Hia Hmap. unfold storedBalance. rewrite Ha.
  rewrite (list_lookup_total_correct _ _ _ Hia). unfold deref.
  rewrite Hframe; [done| |exact Hmap].
  apply Hlive. by eapply list_elem_of_lookup_2.
Qed.

Lemma updateBalance_log rt asset data w :
  calls (updateBalance rt asset data w) = calls w
  ∧ notes (updateBalance rt asset data w) = notes w.
Proof.
  unfold updateBalance. destruct (_ && _); [|done].
  destruct (rememberAsset_stable rt asset (deduct rt asset data w)) as (-> & -> & _).
  by destruct (deduct_log rt asset data w) as (-> & -> & _).
Qed.

Lemma settleInternal_log rt wallet paymentData data w :
  calls (settleInternal rt wallet paymentData data w).2 = calls w
  ∧ notes (settleInternal rt wallet paymentData data w).2 = notes w
  ∧ (settleInternal rt wallet paymentData data w).1
    = if truthy data then Returned data
      else Thrown (Error "Failed to process internal payment: No data returned").
Proof.
  unfold settleInternal. destruct (truthy data); unfold negb, fst, snd; [|done].
  destruct (storePayment_stable rt
              (internalRecord rt wallet paymentData data
                 (updateBalance rt (storeAsset w data) data w))
              (updateBalance rt (storeAsset w data) data w)) as (-> & -> & _).
  by destruct (updateBalance_log rt (storeAsset w data) data w) as (-> & ->).
Qed.

Lemma processInternalPayment_log rt api wallet paymentData w :
  truthy (prop (heapOf w) wallet "adminkey") = true →
  truthy (prop (heapOf w) paymentData "paymentRequest") = true →
  calls (processInternalPayment rt api wallet paymentData w).2
  = calls w ++ [mkPayload (prop (heapOf w) paymentData "paymentRequest")
                  (js_or (prop (heapOf w) paymentData "feeLimit") (JNum 10))
                  (prop (heapOf w) paymentData "assetId") None]
  ∧ notes (processInternalPayment rt api wallet paymentData w).2 = notes w
  ∧ (∀ data, api (length (calls w)) = Resolved data → truthy data = true →
       (processInternalPayment rt api wallet paymentData w).1 = Returned data).
Proof.
  intros Hkey Hreq. unfold processInternalPayment. cbv zeta.
  rewrite (truthy_prop _ _ _ Hkey), Hkey. unfold opt_prop. rewrite Hreq. cbn [negb orb].
  unfold apiPayInvoice. destruct (api _) as [data|e].
  - match goal with
    | |- context [settleInternal rt wallet paymentData data ?w1] =>
        destruct (settleInternal_log rt wallet paymentData data w1) as (-> & -> & ->)
    end.
    split_and!; [done..|]. by intros ? [= <-] ->.
  - by split_and!.
Qed.

Lemma classify_internal h e d :
  opt_prop h (response_data e) "detail" = JStr d →
  includes d "internal payment" || includes d "own invoice" = true →
  classify h e = mkError (JStr internalMessage) (response_data e) (isApiError e) true.
Proof.
  intros Hd Hi. unfold classify. cbv zeta. rewrite Hd, Hi.
  destruct d; [done|]. done.
Qed.

Lemma payInvoice_rejected rt api wallet assetData paymentData w e :
  truthy (prop (heapOf w) wallet "adminkey") = true →
  truthy (prop (heapOf w) paymentData "paymentRequest") = true →
  truthy assetData = true →
  api (length (calls w)) = Rejected e →
  payInvoice rt api wallet assetData paymentData w
  = (Thrown (classify (heapOf w) e),
     mkWorld (st w) (assetMap w)
       (calls w ++ [mkPayload (prop (heapOf w) paymentData "paymentRequest")
                      (js_or (prop (heapOf w) paymentData "feeLimit") (JNum 1000))
                      (prop (heapOf w) assetData "asset_id")
                      (if truthy (opt_prop (heapOf w)
                                    (opt_prop (heapOf w) assetData "channel_info")
                                    "peer_pubkey")
                       then Some (opt_prop (heapOf w)
                                    (opt_prop (heapOf w) assetData "channel_info")
                                    "peer_pubkey")
                       else None)])
       (notes w)).
Proof.
  intros Hkey Hreq Ha Hapi. unfold payInvoice, payInvoiceBody. cbv zeta.
  rewrite (truthy_prop _ _ _ Hkey), Hkey. unfold opt_prop. rewrite Hreq. cbn [negb orb].
  unfold apiPayInvoice. rewrite Hapi.
  by destruct assetData.
Qed.

(** One asset of balance 100 in the store (object 1), a wallet (2), the
    payment data (3) and three responses of the backend: two payments of
    30 units of the asset (4, 5) and one that names no asset (6). *)
Definition gold_heap : heap :=
  <[1%positive := {[ "asset_id" := JStr "a"; "name" := JStr "Gold";
                     "user_balance" := JNum 100 ]}]>
    (<[2%positive := {[ "adminkey" := JStr "k"; "id" := JStr "w"; "user" := JStr "u" ]}]>
       (<[3%positive := {[ "paymentRequest" := JStr "lnbc1"; "feeLimit" := JNum 10 ]}]>
          (<[4%positive := {[ "status" := JStr "success"; "asset_id" := JStr "a";
                              "asset_amount" := JNum 30; "payment_hash" := JStr "p1" ]}]>
             (<[5%positive := {[ "status" := JStr "success"; "asset_id" := JStr "a";
                                 "asset_amount" := JNum 30; "payment_hash" := JStr "p2" ]}]>
                (<[6%positive := {[ "status" := JStr "success"; "asset_amount" := JNum 30;
                                    "payment_hash" := JStr "p3" ]}]> ∅))))).

Definition gold_world : world :=
  mkWorld (Store.mkStore gold_heap [1%positive] [] []) None [] [].

(** The asset selected on the page is the object the store held at that
    time. *)
Definition pay_gold : operation :=
  PayInvoice (JRef 2%positive) (JRef 1%positive) (JRef 3%positive).

Definition two_payments (n : nat) : api_result :=
  match n with
  | O => Resolved (JRef 4%positive)
  | S _ => Resolved (JRef 5%positive)
  end.

(** The same payment through the internal path. *)
Definition pay_gold_internal : operation :=
  ProcessInternalPayment (JRef 2%positive) (JRef 3%positive).

(** C9. The balance is not deducted.  The store holds an asset whose
    [user_balance] is 100 and the backend answers a payment of 30 units of
    it with success.  Either operation returns the response, and the
    balance it computes for the store is max(0, 100 - 30) = 70; but
    [updateAsset] and [addPayment], called as members of
    taprootStore.actions, return at their guard on [this.state]: the store
    still says 100 and has no payment. *)
Theorem balance_not_deducted :
  ((perform AssetService.bare_runtime two_payments pay_gold gold_world).1
   = Returned (JRef 4%positive)
   ∧ storedBalance gold_world 0 = JNum 100
   ∧ prop gold_heap (JRef 4%positive) "status" = JStr "success"
   ∧ prop gold_heap (JRef 4%positive) "asset_amount" = JNum 30
   ∧ newBalance AssetService.bare_runtime (storedBalance gold_world 0)
       (prop gold_heap (JRef 4%positive) "asset_amount") = JNum 70
   ∧ storedBalance (perform AssetService.bare_runtime two_payments pay_gold gold_world).2 0
     = JNum 100
   ∧ Store.payments
       (st (perform AssetService.bare_runtime two_payments pay_gold gold_world).2) = [])
  ∧ ((perform AssetService.bare_runtime two_payments pay_gold_internal gold_world).1
     = Returned (JRef 4%positive)
     ∧ storedBalance
         (perform AssetService.bare_runtime two_payments pay_gold_internal gold_world).2 0
       = JNum 100
     ∧ Store.payments
         (st (perform AssetService.bare_runtime two_payments pay_gold_internal
                gold_world).2) = []).
Proof. split_and!; vm_compute; reflexivity. Qed.

(** The general fact at that payment. *)
Lemma pay_gold_keeps_store :
  Store.assets (st (perform AssetService.bare_runtime two_payments pay_gold gold_world).2)
  = Store.assets (st gold_world)
  ∧ Store.payments (st (perform AssetService.bare_runtime two_payments pay_gold gold_world).2)
    = Store.payments (st gold_world)
  ∧ storedBalance (perform AssetService.bare_runtime two_payments pay_gold gold_world).2 0
    = storedBalance gold_world 0.
Proof.
  assert (live gold_world) as Hlive.
  { split; [|done]. intros l Hl. apply list_elem_of_singleton in Hl as ->.
    eexists. vm_compute. reflexivity. }
  destruct (pay_keeps_store AssetService.bare_runtime two_payments pay_gold gold_world
              (perform AssetService.bare_runtime two_payments pay_gold gold_world).2
              (perform AssetService.bare_runtime two_payments pay_gold gold_world).1
              Hlive)
    as (Ha & _ & Hp & _ & Hb).
  { by destruct (perform _ _ _ _). }
  split_and!; [exact Ha|exact Hp|].
  apply (Hb 0 1%positive); [reflexivity|discriminate].
Qed.

(** *** A payment that fails *)

(** From [w] to [w'] the store, the asset map and the notes are the same,
    and at most one pay call was made. *)
Definition onlyCalled (w w' : world) : Prop :=
  st w' = st w ∧ assetMap w' = assetMap w ∧ notes w' = notes w
  ∧ (calls w' = calls w ∨ ∃ p, calls w' = calls w ++ [p]).

Lemma settle_thrown rt wallet assetData paymentData data w e w' :
  settle rt wallet assetData paymentData data w = (Thrown e, w') → w' = w.
Proof.
  unfold settle. cbv zeta.
  destruct (negb (truthy data)); [by intros [= _ <-]|].
  destruct (_ || _); [by intros [= _ <-]|].
  destruct (strict_eq _ _); intros H; apply (f_equal fst) in H; cbn [fst] in H;
    discriminate H.
Qed.

Lemma settleInternal_thrown rt wallet paymentData data w e w' :
  settleInternal rt wallet paymentData data w = (Thrown e, w') → w' = w.
Proof.
  unfold settleInternal. cbv zeta.
  destruct (negb (truthy data)); [by intros [= _ <-]|].
  intros H. apply (f_equal fst) in H. cbn [fst] in H. discriminate H.
Qed.

Lemma payInvoiceBody_thrown rt api wallet assetData paymentData w e w' :
  payInvoiceBody rt api wallet assetData paymentData w = (Thrown e, w') → onlyCalled w w'.
Proof.
  unfold payInvoiceBody. cbv zeta.
  destruct (negb _ || _); [intros [= _ <-]; by split_and!; [..|left]|].
  destruct (negb _); [intros [= _ <-]; by split_and!; [..|left]|].
  destruct (read _ _ _); [|intros [= _ <-]; by split_and!; [..|left]].
  unfold apiPayInvoice. destruct (api _) as [data|e0].
  - intros H. apply settle_thrown in H. subst w'. split_and!; [done..|]. right. eauto.
  - intros [= _ <-]. split_and!; [done..|]. right. eauto.
Qed.

(** X13. Whenever [payInvoice] or [processInternalPayment] throws (a guard that
    fails, a call the backend rejects, a response without data or with a
    failed status), the store, the asset map and the notes are as they
    were: nothing of the balance update or of the payment record has
    happened, and at most the one pay call was made. *)
Theorem failed_payment_changes_nothing (rt : runtime) (api : nat → api_result)
    (op : operation) (w w' : world) (e : error) :
  perform rt api op w = (Thrown e, w') →
  st w' = st w ∧ assetMap w' = assetMap w ∧ notes w' = notes w
  ∧ (calls w' = calls w ∨ ∃ p, calls w' = calls w ++ [p]).
Proof.
  destruct op as [wallet assetData paymentData|wallet paymentData]; unfold perform.
  - unfold payInvoice.
    destruct (payInvoiceBody _ _ _ _ _ _) as [[r|e0] w1] eqn:Hbody; [done|].
    intros H. apply pair_eq_snd in H. subst w1.
    exact (payInvoiceBody_thrown _ _ _ _ _ _ _ _ Hbody).
  - unfold processInternalPayment. cbv zeta.
    destruct (negb _ || _); [intros [= _ <-]; by split_and!; [..|left]|].
    destruct (negb _); [intros [= _ <-]; by split_and!; [..|left]|].
    unfold apiPayInvoice. destruct (api _) as [data|e0].
    + intros H. apply settleInternal_thrown in H. subst w'. split_and!; [done..|]. right. eauto.
    + intros [= _ <-]. split_and!; [done..|]. right. eauto.
Qed.

(** The backend answers with a response whose status is failed. *)
Definition failed_heap : heap := <[7%positive := {[ "status" := JStr "failed" ]}]> gold_heap.

Definition failed_world : world :=
  mkWorld (Store.mkStore failed_heap [1%positive] [] []) None [] [].

Definition failing (n : nat) : api_result := Resolved (JRef 7%positive).

Lemma failed_payment_changes_nothing_witness :
  st (perform AssetService.bare_runtime failing pay_gold failed_world).2 = st failed_world
  ∧ assetMap (perform AssetService.bare_runtime failing pay_gold failed_world).2
    = assetMap failed_world
  ∧ notes (perform AssetService.bare_runtime failing pay_gold failed_world).2
    = notes failed_world
  ∧ (calls (perform AssetService.bare_runtime failing pay_gold failed_world).2
     = calls failed_world
     ∨ ∃ p, calls (perform AssetService.bare_runtime failing pay_gold failed_world).2
            = calls failed_world ++ [p]).
Proof.
  apply (failed_payment_changes_nothing AssetService.bare_runtime failing pay_gold
           failed_world _ (Error "Payment failed")).
  vm_compute. reflexivity.
Defined.

(** *** The global map of asset names *)

Lemma getAssetName_mapped rt w am assetId entry :
  assetMap w = Some am → truthy assetId = true →
  get (deref (heapOf w) am) (to_key rt assetId) = entry → truthy entry = true →
  getAssetName rt w assetId = js_or (prop (heapOf w) entry "name") (JStr "Unknown").
Proof.
  intros Ham Hid He Ht. unfold getAssetName. rewrite Hid, Ham. cbv zeta. cbn [negb].
  by rewrite He, Ht.
Qed.

(** The property names every object inherits from [Object.prototype]:
    under these the lookup [window.assetMap[id]] of the sources finds the
    inherited member and not an entry, so the statements on the map leave
    them aside. *)
Definition inherited (key : string) : bool :=
  bool_decide
    (key ∈ ["constructor"; "toString"; "toLocaleString"; "valueOf"; "hasOwnProperty";
            "isPrototypeOf"; "propertyIsEnumerable"; "__proto__"; "__defineGetter__";
            "__defineSetter__"; "__lookupGetter__"; "__lookupSetter__"]).

(** What the name of [asset] is taken to be when a map entry is made. *)
Definition nameOf (h : heap) (asset : jsval) : jsval :=
  js_or (prop h asset "name") (JStr "Unknown").

(** The entry the map has for an id, if it has a (truthy) one. *)
Definition knownEntry (rt : runtime) (w : world) (assetId : jsval) : option jsval :=
  match assetMap w with
  | Some am =>
      let entry := get (deref (heapOf w) am) (to_key rt assetId) in
      if truthy entry then Some entry else None
  | None => None
  end.

Lemma rememberAsset_new_entry rt (h : heap) (a am : loc) (w : world) :
  heapOf w = h → assetMap w = Some am → is_Some (h !! am) → is_Some (h !! a) →
  truthy (get (deref h a) "asset_id") = true →
  truthy (get (deref h am) (to_key rt (get (deref h a) "asset_id"))) = false →
  getAssetName rt (rememberAsset rt (JRef a) w) (get (deref h a) "asset_id")
  = nameOf h (JRef a).
Proof.
  intros Hh Ham Hlam Hla Hid Hnew. unfold rememberAsset. rewrite Ham.
  cbv zeta beta iota. unfold alloc. cbv beta iota. rewrite Hh. simpl prop.
  rewrite Hnew. cbn [negb].
  set (entry := fresh (dom h)).
  assert (entry ≠ am) as Hne by (symmetry; by apply fresh_not_allocated).
  erewrite (getAssetName_mapped rt _ am _ (JRef entry)); [|done|done| |done].
  - rewrite heapOf_withHeap. simpl. rewrite deref_insert_ne by done.
    rewrite deref_insert_eq. unfold get at 1. rewrite lookup_insert_eq. simpl.
    apply js_or_twice. done.
  - rewrite heapOf_withHeap. simpl. by rewrite deref_insert_eq, get_insert_eq.
Qed.

Lemma rememberAsset_first rt asset w :
  assetMap w = None →
  rememberAsset rt asset w
  = rememberAsset rt asset
      (withAssetMap (fresh (dom (heapOf w)))
         (withHeap (<[fresh (dom (heapOf w)) := ∅]> (heapOf w)) w)).
Proof. intros H. unfold rememberAsset. by rewrite H. Qed.

(** X14. After an asset has been remembered, the name of its id (an id that
    is not the name of an inherited member) comes from the global map: the
    name of the entry the map had for the id already (the first entry
    wins), and otherwise the name of the asset, or Unknown when that name
    is missing or empty. *)
Theorem remembered_asset_name (rt : runtime) (asset : jsval) (w : world) :
  live w →
  truthy (prop (heapOf w) asset "asset_id") = true →
  inherited (to_key rt (prop (heapOf w) asset "asset_id")) = false →
  getAssetName rt (rememberAsset rt asset w) (prop (heapOf w) asset "asset_id")
  = match knownEntry rt w (prop (heapOf w) asset "asset_id") with
    | Some entry => nameOf (heapOf w) entry
    | None => nameOf (heapOf w) asset
    end.
Proof.
  intros [_ Hlive] Hid _. destruct asset as [| | | | | |a]; try done. simpl in Hid.
  simpl prop at 1 2.
  assert (is_Some (heapOf w !! a)) as Hla.
  { unfold deref in Hid. destruct (heapOf w !! a); [eauto|done]. }
  unfold knownEntry. destruct (assetMap w) as [am|] eqn:Ham.
  - cbv zeta. destruct (truthy (get (deref (heapOf w) am) _)) eqn:Hk.
    + assert (rememberAsset rt (JRef a) w = w) as ->.
      { unfold rememberAsset. rewrite Ham. cbv zeta beta iota. simpl prop. by rewrite Hk. }
      by apply (getAssetName_mapped rt w am).
    + apply (rememberAsset_new_entry rt (heapOf w) a am w); try done. by apply Hlive.
  - rewrite rememberAsset_first by done.
    set (am := fresh (dom (heapOf w))). set (h1 := <[am := ∅]> (heapOf w)).
    assert (am ≠ a) as Hne by (symmetry; by apply fresh_not_allocated).
    assert (deref h1 a = deref (heapOf w) a) as Ea by (by apply deref_insert_ne).
    rewrite <- Ea. rewrite (rememberAsset_new_entry rt h1 a am).
    + unfold nameOf. simpl. by rewrite Ea.
    + done.
    + done.
    + unfold h1. rewrite lookup_insert_eq. eauto.
    + unfold h1. rewrite lookup_insert_ne by done. done.
    + by rewrite Ea.
    + unfold h1 at 1. by rewrite deref_insert_eq.
Qed.

Lemma remembered_asset_name_witness :
  getAssetName AssetService.bare_runtime
    (rememberAsset AssetService.bare_runtime (JRef 1%positive) gold_world)
    (prop (heapOf gold_world) (JRef 1%positive) "asset_id")
  = match knownEntry AssetService.bare_runtime gold_world
            (prop (heapOf gold_world) (JRef 1%positive) "asset_id") with
    | Some entry => nameOf (heapOf gold_world) entry
    | None => nameOf (heapOf gold_world) (JRef 1%positive)
    end.
Proof.
  apply (remembered_asset_name AssetService.bare_runtime (JRef 1%positive) gold_world).
  - split; [|done]. intros l Hl. apply list_elem_of_singleton in Hl as ->.
    eexists. vm_compute. reflexivity.
  - vm_compute. reflexivity.
  - vm_compute. reflexivity.
Defined.

End PaymentService.

(** ** AssetService: the asset updates of the balances socket *)

Module AssetServiceUpdates.
Import PaymentService.

(** [_updateAssetMap] (asset.service.js 90-106): the entry made for an
    asset. *)
Definition mapEntry (h : heap) (asset : jsval) : obj :=
  {[ "name" := js_or (prop h asset "name") (JStr "Unknown");
     "type" := js_or (prop h asset "type") (JStr "unknown");
     "meta_hash" := prop h asset "meta_hash" ]}.

(** The [forEach] of [_updateAssetMap] on the map object [am]; reading
    [asset_id] of a null element raises and leaves the entries made so
    far. *)
Fixpoint updateEntries (rt : runtime) (am : loc) (assets : list jsval) (h : heap)
  : result unit * heap :=
  match assets with
  | [] => (Ok tt, h)
  | asset :: rest =>
      match read h asset "asset_id" with
      | TypeError => (TypeError, h)
      | Ok assetId =>
          let h :=
            if truthy assetId then
              let '(h, entry) := alloc h (mapEntry h asset) in
              write h (JRef am) (to_key rt assetId) (JRef entry)
            else h in
          updateEntries rt am rest h
      end
  end.

Definition updateAssetMap (rt : runtime) (assets : list jsval) (w : world)
  : result unit * world :=
  let '(w, am) :=
    match assetMap w with
    | Some am => (w, am)
    | None =>
        let '(h, am) := alloc (heapOf w) ∅ in
        (withAssetMap am (withHeap h w), am)
    end in
  let '(r, h) := updateEntries rt am assets (heapOf w) in
  (r, withHeap h w).

(** [assetIds.has(id)]: a [Set] compares by SameValueZero, which on these
    values is equality. *)
Definition has (assetIds : list jsval) (assetId : jsval) : bool :=
  bool_decide (assetId ∈ assetIds).

(** The callback of the [forEach] of [processWebSocketUpdate] (224-238) on
    the heap, [updatedAssets] and [assetIds]; only an object has a truthy
    [asset_id]. *)
Definition mergeAsset (asset assetId : jsval) (s : heap * list loc * list jsval)
  : heap * list loc * list jsval :=
  let '(h, updatedAssets, assetIds) := s in
  if truthy assetId then
    if has assetIds assetId then
      match findIndex (λ a, strict_eq (get (deref h a) "asset_id") assetId) updatedAssets with
      | Some index =>
          let '(h, merged) :=
            alloc h (spread (deref h (updatedAssets !!! index)) (own_props h asset)) in
          (h, <[index := merged]> updatedAssets, assetIds)
      | None => s
      end
    else
      match asset with
      | JRef a => (h, updatedAssets ++ [a], assetIds ++ [assetId])
      | _ => s
      end
  else s.

Fixpoint mergeAssets (assets : list jsval) (s : heap * list loc * list jsval)
  : result unit * (heap * list loc * list jsval) :=
  match assets with
  | [] => (Ok tt, s)
  | asset :: rest =>
      match read s.1.1 asset "asset_id" with
      | TypeError => (TypeError, s)
      | Ok assetId => mergeAssets rest (mergeAsset asset assetId s)
      end
  end.

(** The [asset_id]s of a list of assets. *)
Definition idsOf (h : heap) (l : list loc) : list jsval :=
  (λ a, get (deref h a) "asset_id") <$> l.

(** The list [updatedAssets] that [processWebSocketUpdate] builds from
    the assets of the store and the batch (217-238), with the heap the
    merged objects are made in. *)
Definition mergeIntoStore (items : list jsval) (w : world)
  : result unit * (heap * list loc) :=
  let existingAssets := Store.assets (st w) in
  let assetIds := idsOf (heapOf w) existingAssets in
  let '(r, (h, updatedAssets, _)) :=
    mergeAssets items (heapOf w, existingAssets, assetIds) in
  (r, (h, updatedAssets)).

(** [AssetService.processWebSocketUpdate] (asset.service.js 211-244);
    [type] is [data?.type] and [data] is [data.data] of the message.  The
    merged list is handed to [setAssets], called as a member of
    [taprootStore.actions]. *)
Definition processWebSocketUpdate (rt : runtime) (type : jsval) (data : array_arg)
    (w : world) : result unit * world :=
  match data with
  | Array items =>
      if strict_eq type (JStr "assets_update") then
        match updateAssetMap rt items w with
        | (TypeError, w) => (TypeError, w)
        | (Ok _, w) =>
            let '(r, (h, updatedAssets)) := mergeIntoStore items w in
            match r with
            | Ok _ =>
                (Ok tt,
                 withStore
                   (Store.setAssets Store.Actions (st (withHeap h w)) updatedAssets) w)
            | TypeError => (TypeError, withHeap h w)
            end
        end
      else (Ok tt, w)
  | NotArray _ => (Ok tt, w)
  end.

(** *** The merge keeps the ids of the store's assets apart *)

(** The ids a batch brings that are not known yet, each once, in the
    order in which they first appear. *)
Fixpoint newIds (h : heap) (known : list jsval) (items : list jsval) : list jsval :=
  match items with
  | [] => []
  | x :: rest =>
      if truthy (prop h x "asset_id") && negb (has known (prop h x "asset_id"))
      then prop h x "asset_id" :: newIds h (known ++ [prop h x "asset_id"]) rest
      else newIds h known rest
  end.

(** An element of a batch: anything but null and undefined, an object
    being one of the heap. *)
Definition item (h : heap) (v : jsval) : bool :=
  match v with
  | JUndefined | JNull => false
  | JRef a => bool_decide (is_Some (h !! a))
  | _ => true
  end.


Lemma prop_same h h' v k :
  (∀ a, v = JRef a → h' !! a = h !! a) → prop h' v k = prop h v k.
Proof.
  intros H. destruct v as [| | | | | |a]; try done. simpl. unfold deref. by rewrite H.
Qed.

Lemma item_same h h' v :
  (∀ a, v = JRef a → h' !! a = h !! a) → item h' v = item h v.
Proof.
  intros H. destruct v as [| | | | | |a]; try done. simpl. by rewrite H.
Qed.

Lemma newIds_same h h' items :
  (∀ a, JRef a ∈ items → h' !! a = h !! a) →
  ∀ known, newIds h' known items = newIds h known items.
Proof.
  induction items as [|x rest IH]; intros H known; [done|].
  cbn [newIds]. rewrite (prop_same h h' x "asset_id").
  - rewrite IH; [by rewrite IH by (intros; apply H; by right)|].
    intros a Ha. apply H. by right.
  - intros a ->. apply H. left.
Qed.

Lemma idsOf_same h h' l :
  (∀ a, a ∈ l → h' !! a = h !! a) → idsOf h' l = idsOf h l.
Proof.
  intros Hl. unfold idsOf. apply list_fmap_ext. intros i a Hi.
  unfold deref. rewrite Hl; [done|]. by eapply list_elem_of_lookup_2.
Qed.

Lemma item_live h a : item h (JRef a) = true → is_Some (h !! a).
Proof. simpl. apply bool_decide_eq_true_1. Qed.

Lemma truthy_id_ref h x :
  truthy (prop h x "asset_id") = true → ∃ a, x = JRef a.
Proof. destruct x; try done. eauto. Qed.

(** One element of the batch: the ids of the list are kept, and a truthy
    id that is not among them is added at the end. *)
Lemma mergeAsset_ids h updated x :
  (∀ a, a ∈ updated → is_Some (h !! a)) →
  item h x = true →
  ∃ h1 updated1,
    mergeAsset x (prop h x "asset_id") (h, updated, idsOf h updated)
    = (h1, updated1, idsOf h1 updated1)
    ∧ extends h h1
    ∧ (∀ a, a ∈ updated1 → is_Some (h1 !! a))
    ∧ idsOf h1 updated1
      = idsOf h updated
        ++ (if truthy (prop h x "asset_id") && negb (has (idsOf h updated) (prop h x "asset_id"))
            then [prop h x "asset_id"] else []).
Proof.
  intros Hlive Hx. unfold mergeAsset.
  destruct (truthy (prop h x "asset_id")) eqn:Hid; cbn [andb];
    [|exists h, updated; rewrite app_nil_r; split_and!; [done|apply extends_refl|done|done]].
  destruct (truthy_id_ref _ _ Hid) as [a ->].
  destruct (has _ _) eqn:Hhas; cbn [negb].
  - destruct (findIndex _ updated) as [i|] eqn:Hf;
      [|exists h, updated; rewrite app_nil_r; split_and!; [done|apply extends_refl|done|done]].
    unfold alloc. cbv beta iota. set (n := fresh (dom h)).
    set (h1 := <[n := spread (deref h (updated !!! i)) (own_props h (JRef a))]> h).
    assert (extends h h1) as He by (apply extends_insert; [apply extends_refl|apply extends_fresh, extends_refl]).
    assert (idsOf h1 updated = idsOf h updated) as Hsame.
    { apply idsOf_same. intros b Hb. apply He. by apply Hlive. }
    assert (idsOf h1 (<[i := n]> updated) = idsOf h updated) as Hids.
    { unfold idsOf at 1. rewrite list_fmap_insert. fold (idsOf h1 updated). rewrite Hsame.
      apply list_insert_id. unfold idsOf. rewrite list_lookup_fmap.
      destruct (findIndex_Some _ _ _ Hf) as (b & Hb & Heq). rewrite Hb. simpl. f_equal.
      apply strict_eq_true in Heq. rewrite Heq.
      unfold h1. rewrite deref_insert_eq, get_spread. simpl in *. unfold get in Hid |- *.
      destruct (deref h a !! "asset_id"); done. }
    exists h1, (<[i := n]> updated). rewrite Hids, app_nil_r. split_and!; [done|done| |done].
    intros b Hb. apply list_elem_of_lookup in Hb as [j Hj].
    destruct (decide (j = i)) as [->|Hne].
    + rewrite list_lookup_insert_eq in Hj by (by eapply findIndex_lt).
      injection Hj as <-. unfold h1. rewrite lookup_insert_eq. eauto.
    + rewrite list_lookup_insert_ne in Hj by done.
      rewrite He; apply Hlive; by eapply list_elem_of_lookup_2.
  - exists h, (updated ++ [a]).
    assert (idsOf h (updated ++ [a]) = idsOf h updated ++ [prop h (JRef a) "asset_id"]) as E.
    { unfold idsOf. by rewrite fmap_app. }
    rewrite E. split_and!; [done|apply extends_refl| |done].
    intros b Hb. apply elem_of_app in Hb as [Hb|Hb]; [by apply Hlive|].
    apply list_elem_of_singleton in Hb as ->. by apply item_live.
Qed.

Lemma mergeAssets_ids items :
  ∀ h updated,
    (∀ a, a ∈ updated → is_Some (h !! a)) →
    Forall (λ v, item h v = true) items →
    ∃ h' updated' ids',
      mergeAssets items (h, updated, idsOf h updated) = (Ok tt, (h', updated', ids'))
      ∧ extends h h'
      ∧ idsOf h' updated' = idsOf h updated ++ newIds h (idsOf h updated) items.
Proof.
  induction items as [|x rest IH]; intros h updated Hlive Hitems.
  { exists h, updated, (idsOf h updated). rewrite app_nil_r. split_and!; [done|apply extends_refl|done]. }
  apply Forall_cons in Hitems as [Hx Hrest].
  cbn [mergeAssets fst].
  assert (read h x "asset_id" = Ok (prop h x "asset_id")) as -> by (by destruct x).
  destruct (mergeAsset_ids h updated x Hlive Hx) as (h1 & updated1 & -> & He & Hlive1 & Hids).
  assert (Forall (λ v, item h1 v = true) rest) as Hrest1.
  { eapply Forall_impl; [exact Hrest|]. intros v Hv. rewrite <- Hv. apply item_same.
    intros a ->. apply He. by apply item_live. }
  destruct (IH h1 updated1 Hlive1 Hrest1) as (h' & updated' & ids' & -> & He' & Hids').
  exists h', updated', ids'. split_and!; [done|by eapply extends_trans|].
  rewrite Hids'. rewrite (newIds_same h h1).
  2:{ intros a Ha. apply He. apply item_live. by apply (proj1 (Forall_forall _ _) Hrest). }
  rewrite Hids. cbn [newIds]. destruct (_ && _).
  - by rewrite <- (assoc_L (++)).
  - by rewrite app_nil_r.
Qed.

(** [_updateAssetMap] writes into the map object and into new objects
    only. *)
Lemma updateEntries_frame rt am items :
  ∀ h, is_Some (h !! am) →
       Forall (λ v, item h v = true) items →
       ∃ h', updateEntries rt am items h = (Ok tt, h')
             ∧ is_Some (h' !! am)
             ∧ ∀ l, is_Some (h !! l) → l ≠ am → h' !! l = h !! l.
Proof.
  induction items as [|x rest IH]; intros h Ham Hitems.
  { exists h. by split_and!. }
  apply Forall_cons in Hitems as [Hx Hrest]. cbn [updateEntries].
  assert (read h x "asset_id" = Ok (prop h x "asset_id")) as -> by (by destruct x).
  set (h1 := if truthy (prop h x "asset_id")
             then let '(h0, entry) := alloc h (mapEntry h x) in
                  write h0 (JRef am) (to_key rt (prop h x "asset_id")) (JRef entry)
             else h).
  assert (is_Some (h1 !! am) ∧ ∀ l, is_Some (h !! l) → l ≠ am → h1 !! l = h !! l) as [Ham1 Hf1].
  { unfold h1. destruct (truthy _); [|done]. unfold alloc. cbv beta iota. simpl. split.
    - rewrite lookup_insert_eq. eauto.
    - intros l Hl Hne. rewrite lookup_insert_ne by done.
      rewrite lookup_insert_ne; [done|]. symmetry. by apply fresh_not_allocated. }
  assert (∀ l, is_Some (h !! l) → is_Some (h1 !! l)) as Hgrow.
  { intros l Hl. destruct (decide (l = am)) as [->|Hne]; [done|]. by rewrite Hf1. }
  destruct (IH h1 Ham1) as (h' & -> & Ham' & Hf').
  { eapply Forall_impl; [exact Hrest|]. intros v Hv.
    destruct v as [| | | | | |a]; try done. simpl in *.
    apply bool_decide_eq_true_1 in Hv. apply bool_decide_eq_true_2. by apply Hgrow. }
  exists h'. split_and!; [done|done|].
  intros l Hl Hne. rewrite Hf' by auto. by apply Hf1.
Qed.

(** The map object is none of the assets of the store and none of the
    elements of the batch. *)
Definition apart (w : world) (items : list jsval) : Prop :=
  ∀ am, assetMap w = Some am →
        (am ∉ Store.assets (st w)) ∧ (JRef am ∉ items).

(** The last element of the batch that has a truthy [asset_id] with the
    given property key. *)
Definition named (rt : runtime) (h : heap) (key : string) (x : jsval) : bool :=
  truthy (prop h x "asset_id") && bool_decide (to_key rt (prop h x "asset_id") = key).

Fixpoint lastNamed (rt : runtime) (h : heap) (key : string) (items : list jsval)
  : option jsval :=
  match items with
  | [] => None
  | x :: rest =>
      match lastNamed rt h key rest with
      | Some y => Some y
      | None => if named rt h key x then Some x else None
      end
  end.

Lemma lastNamed_same rt h h' key items :
  (∀ a, JRef a ∈ items → h' !! a = h !! a) →
  lastNamed rt h' key items = lastNamed rt h key items.
Proof.
  induction items as [|x rest IH]; intros H; [done|]. cbn [lastNamed].
  rewrite IH by (intros; apply H; by right). unfold named.
  rewrite (prop_same h h' x "asset_id"); [done|]. intros a ->. apply H. left.
Qed.

(** What the map holds under a key after [_updateAssetMap]: a new entry
    with the name of the last element that has the key, or what it held
    before. *)
Lemma updateEntries_lookup rt am key items :
  ∀ h, is_Some (h !! am) →
       Forall (λ v, item h v = true) items →
       JRef am ∉ items →
       match lastNamed rt h key items with
       | Some x =>
           ∃ e, get (deref (updateEntries rt am items h).2 am) key = JRef e
                ∧ get (deref (updateEntries rt am items h).2 e) "name"
                  = js_or (prop h x "name") (JStr "Unknown")
       | None =>
           get (deref (updateEntries rt am items h).2 am) key = get (deref h am) key
       end.
Proof.
  induction items as [|x rest IH]; intros h Ham Hitems Hnot; [done|].
  apply Forall_cons in Hitems as [Hx Hrest]. apply not_elem_of_cons in Hnot as [Hxam Hnot].
  cbn [updateEntries lastNamed].
  assert (read h x "asset_id" = Ok (prop h x "asset_id")) as -> by (by destruct x).
  set (h1 := if truthy (prop h x "asset_id")
             then let '(h0, entry) := alloc h (mapEntry h x) in
                  write h0 (JRef am) (to_key rt (prop h x "asset_id")) (JRef entry)
             else h).
  assert (is_Some (h1 !! am) ∧ ∀ l, is_Some (h !! l) → l ≠ am → h1 !! l = h !! l) as [Ham1 Hf1].
  { unfold h1. destruct (truthy _); [|done]. unfold alloc. cbv beta iota. simpl. split.
    - rewrite lookup_insert_eq. eauto.
    - intros l Hl Hne. rewrite lookup_insert_ne by done.
      rewrite lookup_insert_ne; [done|]. symmetry. by apply fresh_not_allocated. }
  assert (∀ a, JRef a ∈ x :: rest → h1 !! a = h !! a) as Hsame.
  { intros a Ha. apply Hf1.
    - apply item_live. apply elem_of_cons in Ha as [<-|Ha]; [done|].
      by apply (proj1 (Forall_forall _ _) Hrest).
    - intros ->. apply elem_of_cons in Ha as [Ha|Ha]; [by destruct Hxam|by destruct Hnot]. }
  assert (Forall (λ v, item h1 v = true) rest) as Hrest1.
  { apply Forall_forall. intros v Hin.
    rewrite <- (proj1 (Forall_forall _ _) Hrest v Hin). apply item_same.
    intros a ->. apply Hsame. by right. }
  specialize (IH h1 Ham1 Hrest1 Hnot).
  rewrite (lastNamed_same rt h h1) in IH by (intros; apply Hsame; by right).
  destruct (lastNamed rt h key rest) as [y|] eqn:Hlast.
  { destruct IH as (e & He & Hn). exists e. split; [done|]. rewrite Hn.
    f_equal. apply prop_same. intros a ->. apply Hsame. right.
    clear -Hlast. induction rest as [|z rest IH]; [done|]. cbn [lastNamed] in Hlast.
    destruct (lastNamed rt h key rest); [right; by apply IH|].
    destruct (named rt h key z); [|done]. injection Hlast as ->. left. }
  unfold named. unfold h1 in *. clear h1.
  destruct (truthy (prop h x "asset_id")) eqn:Hid; cbn [andb]; [|done].
  unfold alloc in *. cbv beta iota in *.
  set (e := fresh (dom h)) in *.
  set (h1 := write (<[e := mapEntry h x]> h) (JRef am) (to_key rt (prop h x "asset_id"))
               (JRef e)) in *.
  assert (e ≠ am) as Hne by (symmetry; by apply fresh_not_allocated).
  case_bool_decide as Hkey.
  - exists e. rewrite IH. subst key. split.
    + unfold h1. simpl. by rewrite deref_insert_eq, get_insert_eq.
    + destruct (updateEntries_frame rt am rest h1 Ham1 Hrest1) as (h' & E & _ & Hf).
      rewrite E. cbn [snd]. unfold deref at 1. rewrite Hf.
      * unfold h1. simpl. rewrite lookup_insert_ne by done. rewrite lookup_insert_eq.
        simpl. unfold mapEntry, get. by rewrite lookup_insert_eq.
      * unfold h1. simpl. rewrite lookup_insert_ne by done. rewrite lookup_insert_eq. eauto.
      * done.
  - rewrite IH. unfold h1. simpl. rewrite deref_insert_eq, get_insert_ne by done.
    by rewrite deref_insert_ne.
Qed.

(** [_updateAssetMap] as a run of [updateEntries] from a heap [h0] that
    has the map object [am]. *)
Lemma updateAssetMap_run rt items w :
  live w → apart w items →
  Forall (λ v, item (heapOf w) v = true) items →
  ∃ h0 am,
    updateAssetMap rt items w
    = (Ok tt, mkWorld (Store.mkStore (updateEntries rt am items h0).2
                         (Store.assets (st w)) (Store.invoices (st w))
                         (Store.payments (st w)))
                (Some am) (calls w) (notes w))
    ∧ is_Some (h0 !! am)
    ∧ (JRef am ∉ items)
    ∧ (am ∉ Store.assets (st w))
    ∧ (∀ a, is_Some (heapOf w !! a) → h0 !! a = heapOf w !! a).
Proof.
  intros [Hassets Hmap] Hapart Hitems. unfold updateAssetMap.
  destruct (assetMap w) as [am|] eqn:Ham.
  - destruct (updateEntries_frame rt am items (heapOf w)) as (h1 & E & _ & Hf);
      [by apply Hmap|done|].
    exists (heapOf w), am. rewrite E. cbn [snd]. unfold withHeap. rewrite Ham.
    destruct (Hapart am Ham) as [Hna Hni].
    split_and!; [done|by apply Hmap|done|done|done].
  - unfold alloc. cbv beta iota. rewrite heapOf_withAssetMap, heapOf_withHeap.
    set (am := fresh (dom (heapOf w))).
    assert (∀ l, is_Some (heapOf w !! l) → l ≠ am) as Hfresh
      by (intros l Hl; by apply fresh_not_allocated).
    assert (Forall (λ v, item (<[am := ∅]> (heapOf w)) v = true) items) as Hitems0.
    { eapply Forall_impl; [exact Hitems|]. intros v Hv. rewrite <- Hv. apply item_same.
      intros a ->. rewrite lookup_insert_ne; [done|]. symmetry. apply Hfresh.
      by apply item_live. }
    destruct (updateEntries_frame rt am items (<[am := ∅]> (heapOf w))) as (h1 & E & _ & Hf);
      [rewrite lookup_insert_eq; eauto|done|].
    exists (<[am := ∅]> (heapOf w)), am. rewrite E. cbn [snd]. split_and!.
    + done.
    + rewrite lookup_insert_eq. eauto.
    + intros Hin. apply (Hfresh am); [|done]. apply item_live.
      by apply (proj1 (Forall_forall _ _) Hitems).
    + intros Hin. by apply (Hfresh am); [apply Hassets|].
    + intros a Ha. rewrite lookup_insert_ne; [done|]. symmetry. by apply Hfresh.
Qed.

(** The whole update: the map first, then the merge of the batch with the
    assets of the store, which makes new objects only; the store keeps
    the list it had. *)
Lemma processWebSocketUpdate_run rt items w :
  live w → apart w items →
  Forall (λ v, item (heapOf w) v = true) items →
  ∃ h0 am h' updated',
    processWebSocketUpdate rt (JStr "assets_update") (Array items) w
    = (Ok tt, mkWorld (Store.mkStore h' (Store.assets (st w)) (Store.invoices (st w))
                         (Store.payments (st w)))
                (Some am) (calls w) (notes w))
    ∧ (∃ w1, updateAssetMap rt items w = (Ok tt, w1)
             ∧ mergeIntoStore items w1 = (Ok tt, (h', updated')))
    ∧ is_Some (h0 !! am)
    ∧ (JRef am ∉ items)
    ∧ (∀ a, is_Some (heapOf w !! a) → h0 !! a = heapOf w !! a)
    ∧ Forall (λ v, item h0 v = true) items
    ∧ extends (updateEntries rt am items h0).2 h'
    ∧ idsOf h' updated'
      = idsOf (heapOf w) (Store.assets (st w))
        ++ newIds (heapOf w) (idsOf (heapOf w) (Store.assets (st w))) items.
Proof.
  intros Hlive Hapart Hitems.
  destruct (updateAssetMap_run rt items w Hlive Hapart Hitems)
    as (h0 & am & E & Ham & Hni & Hna & H0).
  assert (Forall (λ v, item h0 v = true) items) as Hitems0.
  { apply Forall_forall. intros v Hin.
    rewrite <- (proj1 (Forall_forall _ _) Hitems v Hin). apply item_same.
    intros a ->. apply H0, item_live. by apply (proj1 (Forall_forall _ _) Hitems). }
  destruct (updateEntries_frame rt am items h0 Ham Hitems0) as (h1 & E1 & Ham1 & Hf).
  rewrite E1 in E. cbn [snd] in E.
  assert (∀ a, a ∈ Store.assets (st w) → h1 !! a = heapOf w !! a) as Ha.
  { intros a Hin. assert (is_Some (heapOf w !! a)) as Hl by (by apply (proj1 Hlive)).
    rewrite Hf; [by apply H0|by rewrite H0|by intros ->]. }
  assert (∀ a, JRef a ∈ items → h1 !! a = heapOf w !! a) as Hi.
  { intros a Hin.
    assert (is_Some (heapOf w !! a)) as Hl
      by (apply item_live; by apply (proj1 (Forall_forall _ _) Hitems)).
    rewrite Hf; [by apply H0|by rewrite H0|by intros ->]. }
  unfold processWebSocketUpdate.
  change (strict_eq (JStr "assets_update") (JStr "assets_update")) with true. cbv iota.
  rewrite E. unfold mergeIntoStore. cbv zeta. unfold heapOf at 1 2 3 4.
  cbn [st Store.objects Store.assets].
  destruct (mergeAssets_ids items h1 (Store.assets (st w)))
    as (h' & updated' & ids' & Hm & He & Hids).
  { intros a Hin. rewrite Ha by done. by apply (proj1 Hlive). }
  { apply Forall_forall. intros v Hin.
    rewrite <- (proj1 (Forall_forall _ _) Hitems v Hin). apply item_same.
    intros a ->. by apply Hi. }
  rewrite Hm.
  exists h0, am, h', updated'. rewrite E1. cbn [snd]. split_and!; [done| |done..|].
  - eexists. split; [reflexivity|]. unfold mergeIntoStore, heapOf.
    cbn [st Store.objects Store.assets]. by rewrite Hm.
  - rewrite Hids, (idsOf_same (heapOf w) h1) by done.
    by rewrite (newIds_same (heapOf w) h1).
Qed.


(** X18. After such a batch (whose ids are not names of inherited members),
    the name under which an id of the batch is shown is the one the batch
    gives it last (Unknown when that element has no name), whatever the map
    or the store said before. *)
Theorem batch_names_last_wins (rt : runtime) (items : list jsval) (w : world)
    (assetId x : jsval) :
  live w → apart w items →
  Forall (λ v, item (heapOf w) v = true) items →
  Forall (λ v, inherited (to_key rt (prop (heapOf w) v "asset_id")) = false) items →
  truthy assetId = true →
  lastNamed rt (heapOf w) (to_key rt assetId) items = Some x →
  getAssetName rt
    (processWebSocketUpdate rt (JStr "assets_update") (Array items) w).2 assetId
  = nameOf (heapOf w) x.
Proof.
  intros Hlive Hapart Hitems _ Hid Hlast.
  destruct (processWebSocketUpdate_run rt items w Hlive Hapart Hitems)
    as (h0 & am & h' & updated' & -> & _ & Ham & Hni & H0 & Hitems0 & He & _).
  cbn [snd].
  pose proof (updateEntries_lookup rt am (to_key rt assetId) items h0 Ham Hitems0 Hni) as Hl.
  assert (∀ a, JRef a ∈ items → h0 !! a = heapOf w !! a) as Hsame.
  { intros a Hin. apply H0, item_live. by apply (proj1 (Forall_forall _ _) Hitems). }
  rewrite (lastNamed_same rt (heapOf w) h0) in Hl by done. rewrite Hlast in Hl.
  destruct Hl as (e & Hkey & Hname).
  destruct (updateEntries_frame rt am items h0 Ham Hitems0) as (h1 & E1 & Ham1 & Hf).
  rewrite E1 in Hkey, Hname, He. cbn [snd] in Hkey, Hname, He.
  assert (is_Some (h1 !! e)) as Hle.
  { unfold get, deref in Hname. destruct (h1 !! e) eqn:Hq; [eauto|].
    simpl in Hname. rewrite lookup_empty in Hname. simpl in Hname.
    unfold js_or in Hname. by destruct (truthy (prop h0 x "name")) eqn:Hq'; rewrite <- ?Hname in Hq'. }
  erewrite (getAssetName_mapped rt _ am assetId (JRef e)); [|done|done| |done].
  - unfold heapOf. cbn [st Store.objects prop]. unfold deref. rewrite (He e Hle).
    fold (deref h1 e). rewrite Hname. unfold nameOf.
    rewrite (prop_same (heapOf w) h0 x "name").
    + apply js_or_twice. done.
    + intros a ->. apply Hsame.
      clear -Hlast. induction items as [|z rest IH]; [done|]. cbn [lastNamed] in Hlast.
      destruct (lastNamed rt (heapOf w) (to_key rt assetId) rest); [right; by apply IH|].
      destruct (named rt (heapOf w) (to_key rt assetId) z); [|done].
      injection Hlast as ->. left.
  - unfold heapOf. cbn [st Store.objects]. unfold deref. rewrite (He am Ham1).
    exact Hkey.
Qed.

(** The store holds the asset [a]; the batch brings news of [a] and names
    the new asset [b] twice. *)
Definition batch_heap : heap :=
  <[1%positive := {[ "asset_id" := JStr "a"; "name" := JStr "Gold" ]}]>
    (<[2%positive := {[ "asset_id" := JStr "a"; "user_balance" := JNum 5 ]}]>
       (<[3%positive := {[ "asset_id" := JStr "b"; "name" := JStr "Silver" ]}]>
          (<[4%positive := {[ "asset_id" := JStr "b"; "user_balance" := JNum 7 ]}]> ∅))).

Definition batch_world : world :=
  mkWorld (Store.mkStore batch_heap [1%positive] [] []) None [] [].

Definition batch : list jsval := [JRef 2%positive; JRef 3%positive; JRef 4%positive].


Lemma batch_names_last_wins_witness :
  getAssetName AssetService.bare_runtime
    (processWebSocketUpdate AssetService.bare_runtime (JStr "assets_update") (Array batch)
       batch_world).2 (JStr "b")
  = nameOf (heapOf batch_world) (JRef 4%positive).
Proof.
  apply (batch_names_last_wins AssetService.bare_runtime batch batch_world (JStr "b")
           (JRef 4%positive)).
  - split; [|done]. intros l Hl. apply list_elem_of_singleton in Hl as ->.
    eexists. vm_compute. reflexivity.
  - intros am Ham. discriminate Ham.
  - repeat constructor.
  - repeat constructor.
  - reflexivity.
  - vm_compute. reflexivity.
Defined.

End AssetServiceUpdates.

Module NotificationService.
Import PaymentService.

(** [notifyPaymentSent] (185-201); the result handed over is the data of
    a response, an object. *)
Definition notifyPaymentSent (paymentResult : jsval) (w : world) : world :=
  notify
    (ShowSuccess
       (JStr (if truthy (prop (heapOf w) paymentResult "internal_payment")
              then "Payment to another user on this node has been processed successfully."
              else "Payment has been sent successfully.")))
    w.

(** [processApiError] (217-237). *)
Definition processApiError (e : error) (fallbackMessage : string) (w : world)
  : jsval * world :=
  let h := heapOf w in
  let errorMessage :=
    if truthy (isApiError e) && truthy (message e) then message e
    else if truthy (response_data e) then
      if truthy (prop h (response_data e) "detail") then prop h (response_data e) "detail"
      else if truthy (prop h (response_data e) "message")
           then prop h (response_data e) "message"
           else JStr fallbackMessage
    else if truthy (message e) then message e
    else JStr fallbackMessage in
  (errorMessage, notify (ShowError errorMessage) w).

End NotificationService.

Module Page.
Import PaymentService NotificationService.

(** What the pay flow reads from the page: [parseDialog.invoice],
    [paymentDialog.selectedAsset], [paymentDialog.form.feeLimit] and
    [g.user.wallets]. *)
Record page := mkPage {
  invoice : jsval;
  selectedAsset : jsval;
  feeLimit : jsval;
  wallets : option (list jsval)
}.

(** [processInternalPayment] of the page (index.js 780-823): every error
    is caught and shown. *)
Definition processInternalPayment (rt : runtime) (api : nat → api_result) (pg : page)
    (paymentRequest feeLimit : jsval) (w : world) : bool * world :=
  match wallets pg with
  | None | Some [] => (false, w)
  | Some (wallet :: _) =>
      let assetId :=
        if truthy (selectedAsset pg)
        then prop (heapOf w) (selectedAsset pg) "asset_id" else JNull in
      let '(h, paymentData) :=
        alloc (heapOf w)
          {[ "paymentRequest" := paymentRequest;
             "feeLimit" := js_or feeLimit (JNum 10);
             "assetId" := assetId ]} in
      match PaymentService.processInternalPayment rt api wallet (JRef paymentData)
              (withHeap h w) with
      | (Returned paymentResult, w) =>
          (true, notify RefreshTransactions
                   (notify RefreshAssets (notifyPaymentSent paymentResult w)))
      | (Thrown e, w) =>
          (false, (processApiError e "Internal payment failed" w).2)
      end
  end.

(** [payInvoice] of the page (index.js 586-661).  The [toLowerCase] of an
    error message that is not a string raises and leaves the handler. *)
Definition payInvoice (rt : runtime) (api : nat → api_result) (pg : page) (w : world)
  : result world :=
  if negb (truthy (invoice pg)) || negb (truthy (selectedAsset pg)) then
    Ok (notify (ShowError (JStr "Missing invoice or asset information")) w)
  else
    match wallets pg with
    | None | Some [] => Ok w
    | Some (wallet :: _) =>
        let '(h, paymentData) :=
          alloc (heapOf w)
            {[ "paymentRequest" := prop (heapOf w) (invoice pg) "bolt11";
               "feeLimit" := feeLimit pg ]} in
        match PaymentService.payInvoice rt api wallet (selectedAsset pg) (JRef paymentData)
                (withHeap h w) with
        | (Returned paymentResult, w) =>
            Ok (notify RefreshTransactions
                  (notify RefreshAssets (notifyPaymentSent paymentResult w)))
        | (Thrown e, w) =>
            if isInternalPayment e then
              let w := notify (ShowInfo (message e)) w in
              Ok (processInternalPayment rt api pg
                    (prop (heapOf w) (invoice pg) "bolt11") (feeLimit pg) w).2
            else
              let '(errorMessage, w) := processApiError e "Payment failed" w in
              match errorMessage with
              | JStr m =>
                  if includes (toLowerCase rt m) "channel"
                     && (includes (toLowerCase rt m) "offline"
                         || includes (toLowerCase rt m) "unavailable")
                  then Ok (notify RefreshAssets w)
                  else Ok w
              | _ => TypeError
              end
        end
    end.

Lemma page_internal rt api pg w wallet ws a paymentRequest fee :
  wallets pg = Some (wallet :: ws) →
  selectedAsset pg = JRef a → is_Some (heapOf w !! a) →
  truthy (prop (heapOf w) wallet "adminkey") = true →
  truthy paymentRequest = true →
  calls (processInternalPayment rt api pg paymentRequest fee w).2
  = calls w ++ [mkPayload paymentRequest (js_or fee (JNum 10))
                  (get (deref (heapOf w) a) "asset_id") None]
  ∧ ∃ tail,
      notes (processInternalPayment rt api pg paymentRequest fee w).2 = notes w ++ tail
      ∧ (∀ data, api (length (calls w)) = Resolved data → truthy data = true →
           ∃ m, tail = [ShowSuccess m; RefreshAssets; RefreshTransactions]).
Proof.
  intros Hw Ha Hlive Hkey Hreq. unfold processInternalPayment. rewrite Hw, Ha.
  cbn [truthy]. cbv delta [alloc] beta iota zeta.
  set (pd := fresh (dom (heapOf w))).
  set (o := ({[ "paymentRequest" := paymentRequest; "feeLimit" := js_or fee (JNum 10);
                "assetId" := prop (heapOf w) (JRef a) "asset_id" ]} : obj)).
  set (w1 := withHeap (<[pd := o]> (heapOf w)) w).
  assert (prop (heapOf w1) (JRef pd) "paymentRequest" = paymentRequest) as Hp1.
  { unfold w1. rewrite heapOf_withHeap. cbn [prop]. rewrite deref_insert_eq.
    apply get_insert_eq. }
  assert (prop (heapOf w1) (JRef pd) "feeLimit" = js_or fee (JNum 10)) as Hp2.
  { unfold w1. rewrite heapOf_withHeap. cbn [prop]. rewrite deref_insert_eq.
    unfold o. rewrite get_insert_ne by done. apply get_insert_eq. }
  assert (prop (heapOf w1) (JRef pd) "assetId" = get (deref (heapOf w) a) "asset_id") as Hp3.
  { unfold w1. rewrite heapOf_withHeap. cbn [prop]. rewrite deref_insert_eq.
    unfold o. rewrite !get_insert_ne by done. unfold get. by rewrite lookup_singleton_eq. }
  destruct (processInternalPayment_log rt api wallet (JRef pd) w1) as (Hc & Hn & Hr).
  { unfold w1. rewrite heapOf_withHeap. unfold pd. by rewrite prop_insert_fresh. }
  { by rewrite Hp1. }
  rewrite Hp1, Hp2, Hp3, js_or_twice in Hc by done.
  change (calls w1) with (calls w) in Hc, Hr. change (notes w1) with (notes w) in Hn.
  destruct (PaymentService.processInternalPayment rt api wallet (JRef pd) w1)
    as [[r|e] w2]; cbn [fst snd] in *.
  - split; [done|]. eexists. split.
    + unfold notifyPaymentSent, notify. cbn [notes]. rewrite Hn, <- !app_assoc. done.
    + intros data Hd Ht. eexists. done.
  - split; [done|]. eexists. split.
    + unfold processApiError, notify. cbn [notes snd]. rewrite Hn. done.
    + intros data Hd Ht. by specialize (Hr data Hd Ht).
Qed.

Lemma heapOf_notify n w : heapOf (notify n w) = heapOf w.
Proof. reflexivity. Qed.

Lemma calls_notify n w : calls (notify n w) = calls w.
Proof. reflexivity. Qed.

Lemma notes_notify n w : notes (notify n w) = notes w ++ [n].
Proof. reflexivity. Qed.

Lemma payInvoice_caught rt api pg w wallet ws m data apiError w2 :
  wallets pg = Some (wallet :: ws) →
  truthy (invoice pg) = true →
  truthy (selectedAsset pg) = true →
  PaymentService.payInvoice rt api wallet (selectedAsset pg)
    (JRef (fresh (dom (heapOf w))))
    (withHeap
       (<[fresh (dom (heapOf w)) :=
            {[ "paymentRequest" := prop (heapOf w) (invoice pg) "bolt11";
               "feeLimit" := feeLimit pg ]}]> (heapOf w)) w)
  = (Thrown (mkError m data apiError true), w2) →
  payInvoice rt api pg w
  = Ok (processInternalPayment rt api pg
          (prop (heapOf (notify (ShowInfo m) w2)) (invoice pg) "bolt11")
          (feeLimit pg) (notify (ShowInfo m) w2)).2.
Proof.
  intros Hw Hi Ha Hpay. unfold payInvoice. rewrite Hi, Ha, Hw.
  cbv delta [alloc negb orb] beta iota. rewrite Hpay. reflexivity.
Qed.

Lemma calls_withHeap h w : calls (withHeap h w) = calls w.
Proof. reflexivity. Qed.

Lemma notes_withHeap h w : notes (withHeap h w) = notes w.
Proof. reflexivity. Qed.

Lemma fallback_after_reject rt api pg w wallet ws a e d paymentData :
  wallets pg = Some (wallet :: ws) →
  selectedAsset pg = JRef a → is_Some (heapOf w !! a) →
  truthy (prop (heapOf w) wallet "adminkey") = true →
  truthy (prop (heapOf w) (invoice pg) "bolt11") = true →
  truthy (prop (heapOf w) paymentData "paymentRequest") = true →
  api (length (calls w)) = Rejected e →
  opt_prop (heapOf w) (response_data e) "detail" = JStr d →
  includes d "internal payment" || includes d "own invoice" = true →
  ∃ w2 first tail,
    PaymentService.payInvoice rt api wallet (selectedAsset pg) paymentData w
    = (Thrown (mkError (JStr internalMessage) (response_data e) (isApiError e) true), w2)
    ∧ calls (processInternalPayment rt api pg
               (prop (heapOf (notify (ShowInfo (JStr internalMessage)) w2)) (invoice pg)
                  "bolt11")
               (feeLimit pg) (notify (ShowInfo (JStr internalMessage)) w2)).2
      = calls w ++ [first;
                    mkPayload (prop (heapOf w) (invoice pg) "bolt11")
                      (js_or (feeLimit pg) (JNum 10))
                      (get (deref (heapOf w) a) "asset_id") None]
    ∧ notes (processInternalPayment rt api pg
               (prop (heapOf (notify (ShowInfo (JStr internalMessage)) w2)) (invoice pg)
                  "bolt11")
               (feeLimit pg) (notify (ShowInfo (JStr internalMessage)) w2)).2
      = notes w ++ ShowInfo (JStr internalMessage) :: tail
    ∧ (∀ data, api (S (length (calls w))) = Resolved data → truthy data = true →
         ∃ m, tail = [ShowSuccess m; RefreshAssets; RefreshTransactions]).
Proof.
  intros Hw Ha Hlive Hkey Hbolt Hreq Hapi Hd Hi.
  pose proof (payInvoice_rejected rt api wallet (selectedAsset pg) paymentData w e
                Hkey Hreq) as Hrej.
  rewrite (classify_internal _ _ d Hd Hi) in Hrej.
  specialize (Hrej ltac:(by rewrite Ha) Hapi).
  eexists _. 
  destruct (page_internal rt api pg
              (notify (ShowInfo (JStr internalMessage))
                 (mkWorld (st w) (assetMap w)
                    (calls w ++ [mkPayload (prop (heapOf w) paymentData "paymentRequest")
                      (js_or (prop (heapOf w) paymentData "feeLimit") (JNum 1000))
                      (prop (heapOf w) (selectedAsset pg) "asset_id")
                      (if truthy (opt_prop (heapOf w)
                                    (opt_prop (heapOf w) (selectedAsset pg) "channel_info")
                                    "peer_pubkey")
                       then Some (opt_prop (heapOf w)
                                    (opt_prop (heapOf w) (selectedAsset pg) "channel_info")
                                    "peer_pubkey")
                       else None)]) (notes w)))
              wallet ws a (prop (heapOf w) (invoice pg) "bolt11") (feeLimit pg)
              Hw Ha Hlive Hkey Hbolt) as (Hc & tail & Hn & Hr).
  eexists _, tail. split; [exact Hrej|]. split_and!.
  - rewrite heapOf_notify. change (heapOf (mkWorld ?s _ _ _)) with (Store.objects s).
    etrans; [exact Hc|]. rewrite calls_notify. cbn [calls]. by rewrite <- app_assoc.
  - rewrite heapOf_notify. change (heapOf (mkWorld ?s _ _ _)) with (Store.objects s).
    etrans; [exact Hn|]. rewrite notes_notify. cbn [notes]. by rewrite <- app_assoc.
  - intros data Hdata Ht. apply (Hr data); [|done].
    rewrite calls_notify. cbn [calls]. by rewrite length_app, Nat.add_1_r.
Qed.

(** C7. When the pay call is rejected with an error whose detail is a
    text containing 'internal payment' or 'own invoice',
    [PaymentService.payInvoice] throws the error again marked
    [isInternalPayment = true] (with the message of the internal payment),
    and [payInvoice] of the page shows that message as an information and
    issues exactly one more pay call, the one of the internal-payment
    path (no [peer_pubkey], fee limit defaulting to 10); the notes that
    follow are those of the internal payment, and when that call resolves
    with data no error is shown at all. *)
Theorem internal_payment_fallback rt api pg w wallet ws a e d :
  wallets pg = Some (wallet :: ws) →
  selectedAsset pg = JRef a → is_Some (heapOf w !! a) →
  truthy (prop (heapOf w) wallet "adminkey") = true →
  truthy (prop (heapOf w) (invoice pg) "bolt11") = true →
  api (length (calls w)) = Rejected e →
  opt_prop (heapOf w) (response_data e) "detail" = JStr d →
  includes d "internal payment" || includes d "own invoice" = true →
  (∀ paymentData,
     truthy (prop (heapOf w) paymentData "paymentRequest") = true →
     ∃ w1,
       PaymentService.payInvoice rt api wallet (selectedAsset pg) paymentData w
       = (Thrown (mkError (JStr internalMessage) (response_data e) (isApiError e) true), w1))
  ∧ ∃ w' first tail,
      payInvoice rt api pg w = Ok w'
      ∧ calls w'
        = calls w ++ [first;
                      mkPayload (prop (heapOf w) (invoice pg) "bolt11")
                        (js_or (feeLimit pg) (JNum 10))
                        (get (deref (heapOf w) a) "asset_id") None]
      ∧ notes w' = notes w ++ ShowInfo (JStr internalMessage) :: tail
      ∧ (∀ data, api (S (length (calls w))) = Resolved data → truthy data = true →
           ∃ m, tail = [ShowSuccess m; RefreshAssets; RefreshTransactions]).
Proof.
  intros Hw Ha Hlive Hkey Hbolt Hapi Hd Hi. split.
  - intros paymentData Hreq.
    destruct (fallback_after_reject rt api pg w wallet ws a e d paymentData
                Hw Ha Hlive Hkey Hbolt Hreq Hapi Hd Hi) as (w2 & _ & _ & Hrej & _).
    by exists w2.
  - pose proof (extends_alloc (heapOf w) (heapOf w)
                  {[ "paymentRequest" := prop (heapOf w) (invoice pg) "bolt11";
                     "feeLimit" := feeLimit pg ]} (extends_refl _)) as He.
    unfold alloc, fst in He.
    assert (∀ v k, truthy (prop (heapOf w) v k) = true →
                   prop (<[fresh (dom (heapOf w)) :=
                             {[ "paymentRequest" := prop (heapOf w) (invoice pg) "bolt11";
                                "feeLimit" := feeLimit pg ]}]> (heapOf w)) v k
                   = prop (heapOf w) v k) as Hp.
    { intros v k Ht. apply prop_extends; [done|]. intros Hu. by rewrite Hu in Ht. }
    destruct (fallback_after_reject rt api pg
                (withHeap
                   (<[fresh (dom (heapOf w)) :=
                        {[ "paymentRequest" := prop (heapOf w) (invoice pg) "bolt11";
                           "feeLimit" := feeLimit pg ]}]> (heapOf w)) w)
                wallet ws a e d (JRef (fresh (dom (heapOf w)))) Hw Ha)
      as (w2 & first & tail & Hrej & Hc & Hn & Hr).
    + rewrite heapOf_withHeap, He; done.
    + by rewrite heapOf_withHeap, Hp.
    + by rewrite heapOf_withHeap, Hp.
    + rewrite heapOf_withHeap. unfold prop. by rewrite deref_insert_eq, get_insert_eq.
    + by rewrite calls_withHeap.
    + rewrite heapOf_withHeap. unfold opt_prop in *.
      rewrite (prop_extends (heapOf w) _ _ _ He); [done|]. by rewrite Hd.
    + done.
    + eexists _, first, tail. split_and!.
      * apply (payInvoice_caught rt api pg w wallet ws (JStr internalMessage)
                 (response_data e) (isApiError e) w2 Hw);
          [by apply truthy_prop in Hbolt|by rewrite Ha|exact Hrej].
      * rewrite Hc, calls_withHeap, heapOf_withHeap, Hp by done.
        unfold deref. by rewrite He.
      * by rewrite Hn, notes_withHeap.
      * intros data Hdata Ht. apply (Hr data); [|done]. by rewrite calls_withHeap.
Qed.

(** A page with a parsed invoice (object 7), the asset of the store
    selected, and a wallet; the backend rejects the first pay call with
    the detail of object 8 and answers the second one. *)
Definition own_invoice_heap : heap :=
  <[7%positive := {[ "bolt11" := JStr "lnbc1" ]}]>
    (<[8%positive := {[ "detail" := JStr "Cannot pay own invoice" ]}]> gold_heap).

Definition own_invoice_world : world :=
  mkWorld (Store.mkStore own_invoice_heap [1%positive] [] []) None [] [].

Definition own_invoice_page : page :=
  mkPage (JRef 7%positive) (JRef 1%positive) (JNum 5) (Some [JRef 2%positive]).

Definition own_invoice_error : error :=
  mkError (JStr "Request failed with status code 500") (JRef 8%positive) JUndefined false.

Definition rejected_once (n : nat) : api_result :=
  match n with
  | O => Rejected own_invoice_error
  | S _ => Resolved (JRef 4%positive)
  end.

(** C7, witness: the rejected call is followed by the internal one, and
    the user sees the information and the success. *)
Lemma internal_payment_fallback_witness :
  (∃ w1,
     PaymentService.payInvoice AssetService.bare_runtime rejected_once (JRef 2%positive)
       (JRef 1%positive) (JRef 3%positive) own_invoice_world
     = (Thrown (mkError (JStr internalMessage) (JRef 8%positive) JUndefined true), w1))
  ∧ ∃ w' first m,
      payInvoice AssetService.bare_runtime rejected_once own_invoice_page own_invoice_world
      = Ok w'
      ∧ calls w' = [first; mkPayload (JStr "lnbc1") (JNum 5) (JStr "a") None]
      ∧ notes w' = [ShowInfo (JStr internalMessage); ShowSuccess m;
                    RefreshAssets; RefreshTransactions].
Proof.
  assert (is_Some (heapOf own_invoice_world !! 1%positive)) as Hlive.
  { eexists. vm_compute. reflexivity. }
  destruct (internal_payment_fallback AssetService.bare_runtime rejected_once
              own_invoice_page own_invoice_world (JRef 2%positive) [] 1%positive
              own_invoice_error "Cannot pay own invoice" eq_refl eq_refl Hlive)
    as (Hservice & w' & first & tail & Hpage & Hcalls & Hnotes & Htail);
    [vm_compute; reflexivity..|].
  split.
  - apply (Hservice (JRef 3%positive)). vm_compute. reflexivity.
  - destruct (Htail (JRef 4%positive) eq_refl eq_refl) as [m ->].
    exists w', first, m. split_and!; [exact Hpage|exact Hcalls|exact Hnotes].
Defined.

(** *** The transactions table: pagination *)

(** [transactionsTable.pagination] (its [page] and [rowsPerPage], whole
    numbers) and [filteredTransactions], which may be missing. *)
Record table := mkTable {
  pageNo : Z;
  rowsPerPage : Z;
  filteredTransactions : option (list jsval)
}.

(** The text of a whole number in a template string. *)
Definition numberText (n : Z) : string := pretty n.

(** [paginationLabel] (index.js 160-171). *)
Definition paginationLabel (t : table) : string :=
  let totalItems :=
    match filteredTransactions t with
    | Some l => Z.of_nat (length l)
    | None => 0%Z
    end in
  if (0 <? totalItems)%Z then
    let startIndex := Z.min ((pageNo t - 1) * rowsPerPage t + 1) totalItems in
    let endIndex := Z.min (startIndex + rowsPerPage t - 1) totalItems in
    String.append (numberText startIndex)
      (String.append "-"
         (String.append (numberText endIndex)
            (String.append " of " (numberText totalItems))))
  else "0-0 of 0".

(** [applyFilters] (index.js 281-299): [combinedTransactions] filtered by
    the filters of the page, and the table sent back to its first page. *)
Definition applyFilters (rt : runtime) (h : heap) (combinedTransactions : array_arg)
    (filters searchDate : jsval) (t : table) : result (heap * table) :=
  let '(h, searchData) := alloc h {[ "searchText" := prop h filters "searchText" ]} in
  bind (DataUtils.filterTransactions rt h combinedTransactions filters (JRef searchData)
          searchDate) (λ filtered,
  let page := if (1 <? pageNo t)%Z then 1%Z else pageNo t in
  let page :=
    if (0 <? Z.of_nat (length filtered))%Z
       && (Z.of_nat (length filtered) <=? (page - 1) * rowsPerPage t)%Z
    then 1%Z else page in
  Ok (h, mkTable page (rowsPerPage t) (Some filtered))).

(** The label of a table of [total] rows that shows rows [first] to
    [last]. *)
Definition label (first last total : Z) : string :=
  String.append (numberText first)
    (String.append "-"
       (String.append (numberText last) (String.append " of " (numberText total)))).

(** X15. With at least one row, a page number from 1 on and at least one row
    per page, the label names a range of rows that exist: it starts at the
    first row of the page (at the last row when the page lies beyond the
    end), is not empty and is not longer than a page. *)
Theorem pagination_label_range (t : table) (rows : list jsval) :
  filteredTransactions t = Some rows →
  rows ≠ [] → (1 ≤ pageNo t)%Z → (1 ≤ rowsPerPage t)%Z →
  ∃ first last : Z,
    paginationLabel t = label first last (Z.of_nat (length rows))
    ∧ (1 ≤ first ≤ last)%Z ∧ (last ≤ Z.of_nat (length rows))%Z
    ∧ (last - first < rowsPerPage t)%Z
    ∧ first = Z.min ((pageNo t - 1) * rowsPerPage t + 1) (Z.of_nat (length rows))
    ∧ ((pageNo t * rowsPerPage t ≤ Z.of_nat (length rows))%Z →
       (last - first + 1 = rowsPerPage t)%Z).
Proof.
  intros Hrows Hne Hp Hr. unfold paginationLabel. rewrite Hrows. cbv zeta.
  assert (0 < Z.of_nat (length rows))%Z as Hlen by (destruct rows; [done|simpl; lia]).
  destruct (Z.ltb_spec 0 (Z.of_nat (length rows))) as [_|?]; [|lia].
  eexists _, _. split; [reflexivity|]. nia.
Qed.

Lemma pagination_label_range_witness :
  ∃ first last : Z,
    paginationLabel (mkTable 2 10 (Some (replicate 25 JNull)))
    = label first last (Z.of_nat (length (replicate 25 JNull)))
    ∧ (1 ≤ first ≤ last)%Z ∧ (last ≤ Z.of_nat (length (replicate 25 JNull)))%Z
    ∧ (last - first < rowsPerPage (mkTable 2 10 (Some (replicate 25 JNull))))%Z
    ∧ first = Z.min ((pageNo (mkTable 2 10 (Some (replicate 25 JNull))) - 1)
                     * rowsPerPage (mkTable 2 10 (Some (replicate 25 JNull))) + 1)
                (Z.of_nat (length (replicate 25 JNull)))
    ∧ ((pageNo (mkTable 2 10 (Some (replicate 25 JNull)))
        * rowsPerPage (mkTable 2 10 (Some (replicate 25 JNull)))
        ≤ Z.of_nat (length (replicate 25 JNull)))%Z →
       (last - first + 1 = rowsPerPage (mkTable 2 10 (Some (replicate 25 JNull))))%Z).
Proof.
  apply (pagination_label_range (mkTable 2 10 (Some (replicate 25 JNull)))
           (replicate 25 JNull)); [reflexivity|discriminate|simpl; lia|simpl; lia].
Defined.

(** X16. After the filters have been applied to a table that was on page 1 or
    later, the label starts at row 1 (or says that there is none). *)
Theorem label_after_applyFilters (rt : runtime) (h h' : heap) (combined : array_arg)
    (filters searchDate : jsval) (t t' : table) :
  applyFilters rt h combined filters searchDate t = Ok (h', t') →
  (1 ≤ pageNo t)%Z → (1 ≤ rowsPerPage t)%Z →
  ∃ rows, filteredTransactions t' = Some rows
    ∧ pageNo t' = 1%Z
    ∧ paginationLabel t'
      = if bool_decide (rows = []) then "0-0 of 0"
        else label 1 (Z.min (rowsPerPage t) (Z.of_nat (length rows)))
               (Z.of_nat (length rows)).
Proof.
  intros Happly Hp Hr. unfold applyFilters, alloc in Happly. cbv beta iota zeta in Happly.
  destruct (DataUtils.filterTransactions _ _ _ _ _ _) as [filtered|]; [|done].
  cbn [bind] in Happly. injection Happly as <- <-. exists filtered.
  assert ((if (0 <? Z.of_nat (length filtered))%Z
              && (Z.of_nat (length filtered)
                  <=? ((if (1 <? pageNo t)%Z then 1 else pageNo t) - 1) * rowsPerPage t)%Z
           then 1%Z else if (1 <? pageNo t)%Z then 1%Z else pageNo t) = 1%Z) as Hpage.
  { destruct (Z.ltb_spec 1 (pageNo t)); [by destruct (_ && _)|].
    destruct (_ && _); [done|lia]. }
  split; [done|]. split; [exact Hpage|].
  unfold paginationLabel. cbn [filteredTransactions pageNo rowsPerPage]. rewrite Hpage.
  destruct filtered as [|x filtered]; [done|].
  rewrite bool_decide_eq_false_2 by done.
  destruct (Z.ltb_spec 0 (Z.of_nat (length (x :: filtered)))) as [_|Hlen];
    [|simpl in Hlen; lia].
  cbv zeta. unfold label.
  replace (Z.min ((1 - 1) * rowsPerPage t + 1) (Z.of_nat (length (x :: filtered))))
    with 1%Z by (simpl length; lia).
  by replace (1 + rowsPerPage t - 1)%Z with (rowsPerPage t) by lia.
Qed.

(** The two transactions of [DataUtils.undated_heap] under its direction
    filter and date range, with the table on page 3. *)
Definition third_page : table := mkTable 3 10 None.

Definition after_filters : heap * table :=
  match applyFilters DataUtils.utc_runtime DataUtils.undated_heap
          (Array [JRef 1%positive; JRef 2%positive]) (JRef 4%positive) (JRef 3%positive)
          third_page with
  | Ok r => r
  | TypeError => (∅, third_page)
  end.

Lemma label_after_applyFilters_witness :
  ∃ rows, filteredTransactions after_filters.2 = Some rows
    ∧ pageNo after_filters.2 = 1%Z
    ∧ paginationLabel after_filters.2
      = if bool_decide (rows = []) then "0-0 of 0"
        else label 1 (Z.min (rowsPerPage third_page) (Z.of_nat (length rows)))
               (Z.of_nat (length rows)).
Proof.
  apply (label_after_applyFilters DataUtils.utc_runtime DataUtils.undated_heap
           after_filters.1 (Array [JRef 1%positive; JRef 2%positive])
           (JRef 4%positive) (JRef 3%positive) third_page after_filters.2).
  - vm_compute. reflexivity.
  - simpl. lia.
  - simpl. lia.
Defined.

End Page.
